(** * operations-ibm: the semantic validator for operations

    A shallow embedding of
    [src/plugins/validation/semantic-validators/validators/operations-ibm.js]
    and the properties of its two functions, [resolveRef] and [validate].

    Conventions of the embedding.
    - A document is a tree of JavaScript values as a JSON or YAML parser
      builds them, plus [undefined], which is what a missing property reads
      as.  Numbers are the integral ones ([Z]), printed in plain decimal; a
      string is a sequence of code units, here the Latin-1 range carried by
      [ascii].
    - An object is the list of its own enumerable properties in the order
      in which [Object.keys] lists them, first binding of a key winning.
    - What the module raises are [TypeError]s (a property read on
      [undefined] or [null], a call of something that is not a function, a
      failed conversion to a primitive): the [TypeError] outcome.
    - The five lodash helpers the module imports ([at], [each], [includes],
      [map], [pick]) follow lodash 4.17.
    - Where the JavaScript semantics leaves what is modelled (a string
      converted to a number, a member inherited from a built-in prototype
      and reached through a reference pointer, an allocation that is too
      large) the outcome is [Unmodelled]: nothing is asserted about such
      runs. *)

From Stdlib Require Import Ascii String List ZArith Bool Lia DecimalString Sorted.
Import ListNotations.

Local Open Scope list_scope.
Local Open Scope string_scope.

(** ** Values and outcomes *)

Set Warnings "-register-all".

Inductive value : Type :=
| VUndefined
| VNull
| VBool (b : bool)
| VNum (n : Z)
| VStr (s : string)
| VArr (items : list value)
| VObj (props : list (string * value)).

Inductive outcome (A : Type) : Type :=
| Ok (a : A)
| TypeError
| Unmodelled.

Arguments Ok {A} a.
Arguments TypeError {A}.
Arguments Unmodelled {A}.

Definition bind {A B : Type} (m : outcome A) (k : A -> outcome B) : outcome B :=
  match m with
  | Ok a => k a
  | TypeError => TypeError
  | Unmodelled => Unmodelled
  end.

Notation "x <- m ;; k" := (bind m (fun x => k))
  (at level 61, m at next level, right associativity).

(** The result of a conversion to a number, as far as it is modelled. *)
Inductive number : Type :=
| NaN
| Num (z : Z).

(** ** Strings *)

Definition dquote : ascii := "034"%char.
Definition backslash : ascii := "092"%char.

Definition decimal_of_Z (z : Z) : string := NilZero.string_of_int (Z.to_int z).
Definition decimal_of_nat (n : nat) : string := decimal_of_Z (Z.of_nat n).

(** White space and line terminators that [String.prototype.trim] strips,
    within the Latin-1 range. *)
Definition is_whitespace (c : ascii) : bool :=
  match nat_of_ascii c with
  | 9 | 10 | 11 | 12 | 13 | 32 | 160 => true
  | _ => false
  end.

Fixpoint trim_start (s : string) : string :=
  match s with
  | String c r => if is_whitespace c then trim_start r else s
  | EmptyString => EmptyString
  end.

(** [trim_end] keeps a character when it is not white space or when
    something that is kept follows it. *)
Fixpoint trim_end (s : string) : string :=
  match s with
  | String c r =>
      match trim_end r with
      | EmptyString => if is_whitespace c then EmptyString else String c EmptyString
      | r' => String c r'
      end
  | EmptyString => EmptyString
  end.

Definition trim (s : string) : string := trim_end (trim_start s).

Definition is_empty (s : string) : bool :=
  match s with
  | EmptyString => true
  | _ => false
  end.

Definition lower_char (c : ascii) : ascii :=
  let n := nat_of_ascii c in
  if (((65 <=? n) && (n <=? 90)) || ((192 <=? n) && (n <=? 222) && negb (n =? 215)))%nat
  then ascii_of_nat (n + 32)
  else c.

Fixpoint toLowerCase (s : string) : string :=
  match s with
  | String c r => String (lower_char c) (toLowerCase r)
  | EmptyString => EmptyString
  end.

(** [s.split(sep)] for a one-character separator. *)
Fixpoint split_on (sep : ascii) (s : string) : list string :=
  match s with
  | EmptyString => [EmptyString]
  | String c r =>
      if Ascii.eqb c sep then EmptyString :: split_on sep r
      else match split_on sep r with
           | h :: t => String c h :: t
           | [] => [String c EmptyString]
           end
  end.

(** [parts.join(sep)] on strings. *)
Fixpoint join_strings (sep : string) (parts : list string) : string :=
  match parts with
  | [] => EmptyString
  | [p] => p
  | p :: rest => p ++ sep ++ join_strings sep rest
  end.

(** ** Objects *)

Fixpoint assoc (k : string) (props : list (string * value)) : option value :=
  match props with
  | [] => None
  | (k', v) :: rest => if String.eqb k k' then Some v else assoc k rest
  end.

Definition has_key (k : string) (props : list (string * value)) : bool :=
  match assoc k props with
  | Some _ => true
  | None => false
  end.

Definition or_undefined (o : option value) : value :=
  match o with
  | Some v => v
  | None => VUndefined
  end.

(** [v.name] for the member names the module itself spells out ([$ref],
    [consumes], [required], ...).  None of them is a member of a built-in
    prototype, so only an object's own properties can answer. *)
Definition member (v : value) (name : string) : outcome value :=
  match v with
  | VUndefined | VNull => TypeError
  | VObj props => Ok (or_undefined (assoc name props))
  | _ => Ok VUndefined
  end.

(** [v.length]. *)
Definition length_of (v : value) : outcome value :=
  match v with
  | VUndefined | VNull => TypeError
  | VStr s => Ok (VNum (Z.of_nat (String.length s)))
  | VArr items => Ok (VNum (Z.of_nat (List.length items)))
  | VObj props => Ok (or_undefined (assoc "length" props))
  | _ => Ok VUndefined
  end.

(** [v[i]] for a number [i] that is an index. *)
Definition index_value (v : value) (i : nat) : outcome value :=
  match v with
  | VUndefined | VNull => TypeError
  | VArr items => Ok (nth i items VUndefined)
  | VStr s =>
      Ok (match String.get i s with
          | Some c => VStr (String c EmptyString)
          | None => VUndefined
          end)
  | VObj props => Ok (or_undefined (assoc (decimal_of_nat i) props))
  | _ => Ok VUndefined
  end.

(** ** Conversions *)

Definition truthy (v : value) : bool :=
  match v with
  | VUndefined | VNull => false
  | VBool b => b
  | VNum n => negb (n =? 0)%Z
  | VStr s => negb (is_empty s)
  | VArr _ | VObj _ => true
  end.

(** [Array.prototype.join] with separator [sep], over the conversion
    [element] of an element to a string: [undefined] and [null] count as
    empty. *)
Definition join_with (element : value -> outcome string) (sep : string)
  : bool -> list value -> outcome string :=
  fix join_rest (first : bool) (items : list value) : outcome string :=
    match items with
    | [] => Ok EmptyString
    | x :: rest =>
        s <- match x with
             | VUndefined | VNull => Ok EmptyString
             | _ => element x
             end ;;
        t <- join_rest false rest ;;
        Ok ((if first then EmptyString else sep) ++ s ++ t)
    end.

(** [ToString].  An object answers ["[object Object]"] through the
    inherited [toString]; an own property of that name is data, not a
    function, and the conversion then fails.  An array joins its elements
    with a comma. *)
Fixpoint to_string (v : value) : outcome string :=
  match v with
  | VUndefined => Ok "undefined"
  | VNull => Ok "null"
  | VBool true => Ok "true"
  | VBool false => Ok "false"
  | VNum n => Ok (decimal_of_Z n)
  | VStr s => Ok s
  | VArr items => join_with to_string "," true items
  | VObj props => if has_key "toString" props then TypeError else Ok "[object Object]"
  end.

(** [items.join(sep)] *)
Definition join (sep : string) (items : list value) : outcome string :=
  join_with to_string sep true items.

(** [ToNumber], as far as it is modelled: strings and arrays go through the
    numeric-literal grammar and are left out. *)
Definition to_number (v : value) : outcome number :=
  match v with
  | VUndefined => Ok NaN
  | VNull => Ok (Num 0)
  | VBool b => Ok (Num (if b then 1 else 0))
  | VNum n => Ok (Num n)
  | VStr _ | VArr _ => Unmodelled
  | VObj props => if has_key "toString" props then TypeError else Ok NaN
  end.

(** [v > 0]. *)
Definition gt_zero (v : value) : outcome bool :=
  n <- to_number v ;;
  Ok (match n with
      | Num z => (0 <? z)%Z
      | NaN => false
      end).

(** The number of [i = 0, 1, ...] with [i < v]. *)
Definition iterations (v : value) : outcome nat :=
  n <- to_number v ;;
  Ok (match n with
      | Num z => Z.to_nat z
      | NaN => 0
      end).

(** [v.join(sep)]: only an array has a [join] that can be called. *)
Definition call_join (v : value) (sep : string) : outcome string :=
  match v with
  | VArr items => join sep items
  | _ => TypeError
  end.

(** [v.toString()]. *)
Definition call_toString (v : value) : outcome string :=
  match v with
  | VUndefined | VNull => TypeError
  | _ => to_string v
  end.

(** [v.startsWith(p)]: only a string has it. *)
Definition call_startsWith (v : value) (p : string) : outcome bool :=
  match v with
  | VStr s => Ok (String.prefix p s)
  | _ => TypeError
  end.

(** [v.split(sep)], likewise. *)
Definition call_split (v : value) (sep : ascii) : outcome (list string) :=
  match v with
  | VStr s => Ok (split_on sep s)
  | _ => TypeError
  end.

(** [v === s] for a string literal [s]. *)
Definition is_string (v : value) (s : string) : bool :=
  match v with
  | VStr s' => String.eqb s' s
  | _ => false
  end.

(** [v === true]. *)
Definition is_true (v : value) : bool :=
  match v with
  | VBool true => true
  | _ => false
  end.

(** ** lodash: iteration and [pick] *)

(** 2^53 - 1, the largest length lodash takes for an array-like. *)
Definition MAX_SAFE_INTEGER : Z := 9007199254740991.

(** The [(value, key)] pairs that [each] and [map] hand to their callback,
    in order.  Arrays, strings and objects whose own [length] is a valid
    length are walked by index, the key being the number; any other object
    is walked over its own keys; nothing else has entries. *)
Definition entries (collection : value) : list (value * value) :=
  match collection with
  | VArr items =>
      map (fun i => (nth i items VUndefined, VNum (Z.of_nat i))) (seq 0 (List.length items))
  | VStr s =>
      map (fun i => (match String.get i s with
                     | Some c => VStr (String c EmptyString)
                     | None => VUndefined
                     end, VNum (Z.of_nat i))) (seq 0 (String.length s))
  | VObj props =>
      match assoc "length" props with
      | Some (VNum n) =>
          if ((0 <=? n) && (n <=? MAX_SAFE_INTEGER))%Z
          then map (fun i => (or_undefined (assoc (decimal_of_nat i) props), VNum (Z.of_nat i)))
                   (seq 0 (Z.to_nat n))
          else map (fun kv => (snd kv, VStr (fst kv))) props
      | _ => map (fun kv => (snd kv, VStr (fst kv))) props
      end
  | _ => []
  end.

(** [map] walks the same pairs, but for an array-like that is not an array
    it first allocates [Array(collection.length)], which raises a
    [RangeError] when the length is over 2^32 - 1: that is left out. *)
Definition map_entries (collection : value) : outcome (list (value * value)) :=
  match collection with
  | VObj props =>
      match assoc "length" props with
      | Some (VNum n) =>
          if ((4294967295 <? n) && (n <=? MAX_SAFE_INTEGER))%Z then Unmodelled
          else Ok (entries collection)
      | _ => Ok (entries collection)
      end
  | _ => Ok (entries collection)
  end.

(** The method keys of line 60, in the order [pick] is given them. *)
Definition method_keys : list string :=
  ["get"; "head"; "post"; "put"; "patch"; "delete"; "options"].

Fixpoint pick_props (keys : list string) (props : list (string * value)) : list (string * value) :=
  match keys with
  | [] => []
  | k :: rest =>
      match assoc k props with
      | Some v => (k, v) :: pick_props rest props
      | None => pick_props rest props
      end
  end.

(** [pick(object, keys)]: the properties of [object] named by [keys], in
    the order of [keys].  Only an object has properties of these names. *)
Definition pick (object : value) (keys : list string) : list (string * value) :=
  match object with
  | VObj props => pick_props keys props
  | _ => []
  end.

(** [includes(list, s)] on strings. *)
Definition includes (l : list string) (s : string) : bool :=
  existsb (String.eqb s) l.

(** ** lodash: [at]

    [at(object, path)[0]] is [get(object, path)]: the path is taken as one
    key when [isKey] says so and is cut into keys by [stringToPath]
    otherwise; [baseGet] then reads one key after the other. *)

Definition is_digit (c : ascii) : bool :=
  let n := nat_of_ascii c in ((48 <=? n) && (n <=? 57))%nat.

(** A word character of a regular expression. *)
Definition is_word_char (c : ascii) : bool :=
  let n := nat_of_ascii c in
  (((48 <=? n) && (n <=? 57)) || ((65 <=? n) && (n <=? 90)) ||
   ((97 <=? n) && (n <=? 122)) || (n =? 95))%nat.

Definition is_bracket (c : ascii) : bool :=
  Ascii.eqb c "["%char || Ascii.eqb c "]"%char.

(** The characters that end a run of the first alternative of [rePropName]. *)
Definition is_path_special (c : ascii) : bool :=
  Ascii.eqb c "."%char || is_bracket c.

Definition is_quote (c : ascii) : bool :=
  Ascii.eqb c dquote || Ascii.eqb c "'"%char.

(** What [.] of a regular expression does not match. *)
Definition is_line_terminator (c : ascii) : bool :=
  let n := nat_of_ascii c in ((n =? 10) || (n =? 13))%nat.

Fixpoint all_chars (p : ascii -> bool) (s : string) : bool :=
  match s with
  | String c r => p c && all_chars p r
  | EmptyString => true
  end.

(** [reIsPlainProp]: word characters only. *)
Definition reIsPlainProp (s : string) : bool := all_chars is_word_char s.

(** The longest prefix of [s] whose characters satisfy [p]. *)
Fixpoint take_while (p : ascii -> bool) (s : string) : string :=
  match s with
  | String c r => if p c then String c (take_while p r) else EmptyString
  | EmptyString => EmptyString
  end.

Fixpoint drop_while (p : ascii -> bool) (s : string) : string :=
  match s with
  | String c r => if p c then drop_while p r else s
  | EmptyString => EmptyString
  end.

Definition starts_with_char (c : ascii) (s : string) : bool :=
  match s with
  | String c' _ => Ascii.eqb c' c
  | EmptyString => false
  end.

(** The body of a quoted key, read from just after the opening quote [q]:
    the raw body and what follows the closing bracket.  The body is made of
    characters other than [q] and the backslash, and of backslashes each
    followed by one more character of the line; it is the shortest one
    after which [q] and the closing bracket stand, so it stops at the first
    quote that is not escaped, and that quote has to be followed by the
    bracket. *)
Fixpoint quoted_body (q : ascii) (s : string) : option (string * string) :=
  match s with
  | EmptyString => None
  | String c r =>
      if Ascii.eqb c q then
        match r with
        | String c' r' => if Ascii.eqb c' "]"%char then Some (EmptyString, r') else None
        | EmptyString => None
        end
      else if Ascii.eqb c backslash then
        match r with
        | String c' r' =>
            if is_line_terminator c' then None
            else match quoted_body q r' with
                 | Some (body, rest) => Some (String c (String c' body), rest)
                 | None => None
                 end
        | EmptyString => None
        end
      else
        match quoted_body q r with
        | Some (body, rest) => Some (String c body, rest)
        | None => None
        end
  end.

(** [reIsDeepProp] tried at the start of [s]: a dot, or an opening bracket
    followed either by characters that are not brackets and a closing
    bracket, or by a quoted key. *)
Definition deep_prop_at (s : string) : bool :=
  match s with
  | String c r =>
      if Ascii.eqb c "."%char then true
      else if Ascii.eqb c "["%char then
        starts_with_char "]"%char (drop_while (fun x => negb (is_bracket x)) r)
        || match r with
           | String q r' =>
               is_quote q && match quoted_body q r' with Some _ => true | None => false end
           | EmptyString => false
           end
      else false
  | EmptyString => false
  end.

Fixpoint reIsDeepProp (s : string) : bool :=
  match s with
  | String _ r => deep_prop_at s || reIsDeepProp r
  | EmptyString => false
  end.

(** [key in Object(object)], for keys that are not plain: only own keys of
    an object can be such. *)
Definition in_object (key : string) (object : value) : bool :=
  match object with
  | VObj props => has_key key props
  | _ => false
  end.

Definition isKey (path : string) (object : value) : bool :=
  reIsPlainProp path || negb (reIsDeepProp path) || in_object path object.

(** Every match of [reEscapeChar], a backslash and a backslash after it if
    there is one, replaced by that second backslash. *)
Fixpoint unescape (s : string) : string :=
  match s with
  | String c r =>
      if Ascii.eqb c backslash then
        match r with
        | String c' r' => if Ascii.eqb c' backslash then String backslash (unescape r') else unescape r
        | EmptyString => EmptyString
        end
      else String c (unescape r)
  | EmptyString => EmptyString
  end.

(** The bracketed number of [rePropName], read from just after the opening
    bracket: an optional minus, digits, an optional dot and digits, then
    the closing bracket.  The result is the text of the number. *)
Definition bracket_number (s : string) : option string :=
  let sign := if starts_with_char "-"%char s then "-" else EmptyString in
  let s1 := if starts_with_char "-"%char s then String.substring 1 (String.length s) s else s in
  let int := take_while is_digit s1 in
  let s2 := drop_while is_digit s1 in
  if is_empty int then None
  else if starts_with_char "]"%char s2 then Some (sign ++ int)
  else
    match s2 with
    | String c s3 =>
        let frac := take_while is_digit s3 in
        if Ascii.eqb c "."%char && negb (is_empty frac)
           && starts_with_char "]"%char (drop_while is_digit s3)
        then Some (sign ++ int ++ "." ++ frac)
        else None
    | EmptyString => None
    end.

(** The first two alternatives of [rePropName] tried at the start of [s]:
    a run of characters other than dot and brackets; or a bracketed number
    or quoted key.  The result is the key that [stringToPath] pushes (the
    run, the number, the unescaped body) and the number of characters
    matched. *)
Definition prop_name_at (s : string) : option (string * nat) :=
  match s with
  | String c r =>
      if negb (is_path_special c) then
        let run := take_while (fun x => negb (is_path_special x)) s in
        Some (run, String.length run)
      else if Ascii.eqb c "["%char then
        match bracket_number r with
        | Some num => Some (num, String.length num + 2)
        | None =>
            match r with
            | String q r' =>
                if is_quote q then
                  match quoted_body q r' with
                  | Some (body, _) => Some (unescape body, String.length body + 4)
                  | None => None
                  end
                else None
            | EmptyString => None
            end
        end
      else None
  | EmptyString => None
  end.

(** The third alternative of [rePropName]: an empty match where a dot or
    an empty pair of brackets is followed by a dot, by an empty pair of
    brackets or by the end of the string. *)
Definition empty_key_at (s : string) : bool :=
  let after (t : string) :=
    is_empty t || String.prefix "." t || String.prefix "[]" t in
  match s with
  | String c r =>
      if Ascii.eqb c "."%char then after r
      else if String.prefix "[]" s then after (String.substring 2 (String.length s) s)
      else false
  | EmptyString => false
  end.

(** [string.replace(rePropName, ...)]: the keys pushed, left to right.
    [skip] counts the characters of the last match still to be passed. *)
Fixpoint scan_keys (skip : nat) (s : string) : list string :=
  match s with
  | EmptyString => []
  | String _ r =>
      match skip with
      | S k => scan_keys k r
      | O =>
          match prop_name_at s with
          | Some (key, len) => key :: scan_keys (pred len) r
          | None => if empty_key_at s then EmptyString :: scan_keys 0 r else scan_keys 0 r
          end
      end
  end.

Definition stringToPath (s : string) : list string :=
  (if starts_with_char "."%char s then [EmptyString] else []) ++ scan_keys 0 s.

Definition castPath (path : string) (object : value) : list string :=
  if isKey path object then [path] else stringToPath path.

(** The members every object inherits from [Object.prototype]. *)
Definition object_prototype_names : list string :=
  ["constructor"; "__defineGetter__"; "__defineSetter__"; "hasOwnProperty";
   "__lookupGetter__"; "__lookupSetter__"; "isPrototypeOf"; "propertyIsEnumerable";
   "toString"; "valueOf"; "__proto__"; "toLocaleString"].

Definition is_identifier (key : string) : bool :=
  negb (is_empty key) && all_chars (fun c => is_word_char c || Ascii.eqb c "$"%char) key.

(** The index that [key] denotes, when it is the decimal form of one. *)
Definition index_of_key (key : string) : option nat :=
  match NilZero.uint_of_string key with
  | Some u =>
      let n := Nat.of_uint u in
      if String.eqb (decimal_of_nat n) key then Some n else None
  | None => None
  end.

(** [object[key]] for a key that a reference pointer supplies, on an
    object that is neither [undefined] nor [null].  Own properties, indices
    and [length] are data.  A name that a built-in prototype answers (any
    member of [Object.prototype] on an object; on the other values, whose
    prototypes depend on the engine, any identifier) would read a function:
    that is left out. *)
Definition read_property (object : value) (key : string) : outcome value :=
  match object with
  | VUndefined | VNull => TypeError
  | VObj props =>
      match assoc key props with
      | Some v => Ok v
      | None => if includes object_prototype_names key then Unmodelled else Ok VUndefined
      end
  | VArr items =>
      if String.eqb key "length" then Ok (VNum (Z.of_nat (List.length items)))
      else match index_of_key key with
           | Some i => Ok (nth i items VUndefined)
           | None => if is_identifier key then Unmodelled else Ok VUndefined
           end
  | VStr s =>
      if String.eqb key "length" then Ok (VNum (Z.of_nat (String.length s)))
      else match index_of_key key with
           | Some i => Ok (match String.get i s with
                           | Some c => VStr (String c EmptyString)
                           | None => VUndefined
                           end)
           | None => if is_identifier key then Unmodelled else Ok VUndefined
           end
  | VBool _ | VNum _ => if is_identifier key then Unmodelled else Ok VUndefined
  end.

(** The loop of [baseGet]: it stops at [undefined] or [null], and the
    result is [undefined] unless every key was used. *)
Fixpoint baseGet_loop (object : value) (keys : list string) : outcome value :=
  match keys with
  | [] => Ok object
  | key :: rest =>
      match object with
      | VUndefined | VNull => Ok VUndefined
      | _ => v <- read_property object key ;; baseGet_loop v rest
      end
  end.

Definition baseGet (object : value) (path : string) : outcome value :=
  match castPath path object with
  | [] => Ok VUndefined
  | keys => baseGet_loop object keys
  end.

(** [at(object, path)[0]] *)
Definition at_first (object : value) (path : string) : outcome value :=
  match object with
  | VUndefined | VNull => Ok VUndefined
  | _ => baseGet object path
  end.

(** ** The reference resolver (lines 30-46) *)

(** The template [`["${e}"]`] of line 42. *)
Definition bracket_quote (e : string) : string :=
  "[" ++ String dquote e ++ String dquote "]".

Definition resolveRef (obj jsSpec : value) : outcome value :=
  ref <- member obj "$ref" ;;
  if negb (truthy ref) then Ok obj
  else
    internal <- call_startsWith ref "#/" ;;
    if negb internal then Ok (VObj [])
    else
      parts <- call_split ref "/"%char ;;
      let path := join_strings "." (map bracket_quote (tl parts)) in
      at_first jsSpec path.

(** ** Findings and the severity buckets *)

Record finding : Type := { path : string; message : string }.

(** The local [result] of [validate], with its two arrays. *)
Record buckets : Type := { error : list finding; warning : list finding }.

(** What [validate] returns. *)
Record report : Type := { errors : list finding; warnings : list finding }.

(** [result[checkStatus].push(f)].  The key is [checkStatus] converted to a
    string.  [result] has two own properties; under any other key the read
    gives [undefined], or a member of [Object.prototype], which has no
    [push]: the call raises either way. *)
Definition push (result : buckets) (checkStatus : value) (f : finding) : outcome buckets :=
  key <- to_string checkStatus ;;
  if String.eqb key "error" then
    Ok {| error := (error result ++ [f])%list; warning := warning result |}
  else if String.eqb key "warning" then
    Ok {| error := error result; warning := (warning result ++ [f])%list |}
  else TypeError.

Definition consumes_message : string :=
  "PUT and POST operations must have a non-empty `consumes` field.".
Definition produces_message : string :=
  "Operations must have a non-empty `produces` field.".
Definition get_consumes_message : string :=
  "GET operations should not specify a consumes field.".
Definition array_response_message : string :=
  "Arrays MUST NOT be returned as the top-level structure in a response body.".
Definition operationId_message : string :=
  "Operations must have a non-empty `operationId`.".
Definition summary_message : string :=
  "Operations must have a non-empty `summary` field.".
Definition parameter_order_message : string :=
  "Required parameters should appear before optional parameters.".

(** ** The checks of [validate] (lines 61-184) *)

(** [x && x.length > 0 && !!x.join("").trim()], as the condition it is
    used for (lines 71 and 89). *)
Definition has_joined_text (x : value) : outcome bool :=
  if truthy x then
    len <- length_of x ;;
    positive <- gt_zero len ;;
    if positive then
      s <- call_join x EmptyString ;;
      Ok (negb (is_empty (trim s)))
    else Ok false
  else Ok false.

(** [x && x.length > 0 && !!x.toString().trim()] (lines 137 and 149). *)
Definition has_text (x : value) : outcome bool :=
  if truthy x then
    len <- length_of x ;;
    positive <- gt_zero len ;;
    if positive then
      s <- call_toString x ;;
      Ok (negb (is_empty (trim s)))
    else Ok false
  else Ok false.

Section Operation.

(** The document, the severities ([config.operations]), and the
    operation the callback of line 61 is at. *)
Variables (jsSpec config : value) (pathKey : string) (op : value) (opKey : string).

Definition hasLocalConsumes : outcome bool :=
  consumes <- member op "consumes" ;; has_joined_text consumes.

Definition hasGlobalConsumes : outcome bool :=
  consumes <- member jsSpec "consumes" ;; Ok (truthy consumes).

(** Lines 69-84. *)
Definition check_consumes (result : buckets) : outcome buckets :=
  if includes ["put"; "post"] (toLowerCase opKey) then
    hasLocal <- hasLocalConsumes ;;
    hasGlobal <- hasGlobalConsumes ;;
    if negb hasLocal && negb hasGlobal then
      checkStatus <- member config "no_consumes_for_put_or_post" ;;
      if negb (is_string checkStatus "off") then
        push result checkStatus
             {| path := "paths." ++ pathKey ++ "." ++ opKey ++ ".consumes";
                message := consumes_message |}
      else Ok result
    else Ok result
  else Ok result.

Definition hasLocalProduces : outcome bool :=
  produces <- member op "produces" ;; has_joined_text produces.

Definition hasGlobalProduces : outcome bool :=
  produces <- member jsSpec "produces" ;; Ok (truthy produces).

(** Lines 86-102. *)
Definition check_produces (result : buckets) : outcome buckets :=
  let isHeadOperation := String.eqb (toLowerCase opKey) "head" in
  if negb isHeadOperation then
    hasLocal <- hasLocalProduces ;;
    hasGlobal <- hasGlobalProduces ;;
    if negb hasLocal && negb hasGlobal then
      checkStatus <- member config "no_produces" ;;
      if negb (is_string checkStatus "off") then
        push result checkStatus
             {| path := "paths." ++ pathKey ++ "." ++ opKey ++ ".produces";
                message := produces_message |}
      else Ok result
    else Ok result
  else Ok result.

(** Lines 107-117. *)
Definition check_get_consumes (result : buckets) : outcome buckets :=
  consumes <- member op "consumes" ;;
  if truthy consumes then
    checkStatus <- member config "get_op_has_consumes" ;;
    if negb (is_string checkStatus "off") then
      push result checkStatus
           {| path := "paths." ++ pathKey ++ "." ++ opKey ++ ".consumes";
              message := get_consumes_message |}
    else Ok result
  else Ok result.

(** The callback of line 122 on one response. *)
Definition check_response (checkStatus response name : value) (result : buckets)
  : outcome buckets :=
  schema <- member response "schema" ;;
  if truthy schema then
    responseSchema <- resolveRef schema jsSpec ;;
    if truthy responseSchema then
      type <- member responseSchema "type" ;;
      if is_string type "array" then
        nameText <- to_string name ;;
        push result checkStatus
             {| path := "paths." ++ pathKey ++ "." ++ opKey ++ ".responses." ++ nameText
                        ++ ".schema";
                message := array_response_message |}
      else Ok result
    else Ok result
  else Ok result.

Fixpoint each_response (checkStatus : value) (responses : list (value * value))
         (result : buckets) : outcome buckets :=
  match responses with
  | [] => Ok result
  | (response, name) :: rest =>
      result' <- check_response checkStatus response name result ;;
      each_response checkStatus rest result'
  end.

(** Lines 119-133. *)
Definition check_array_responses (result : buckets) : outcome buckets :=
  checkStatus <- member config "no_array_responses" ;;
  if negb (is_string checkStatus "off") then
    responses <- member op "responses" ;;
    each_response checkStatus (entries responses) result
  else Ok result.

(** Lines 104-134. *)
Definition check_get (result : buckets) : outcome buckets :=
  let isGetOperation := String.eqb (toLowerCase opKey) "get" in
  if isGetOperation then
    result' <- check_get_consumes result ;;
    check_array_responses result'
  else Ok result.

Definition hasOperationId : outcome bool :=
  operationId <- member op "operationId" ;; has_text operationId.

(** Lines 137-147. *)
Definition check_operationId (result : buckets) : outcome buckets :=
  has <- hasOperationId ;;
  if negb has then
    checkStatus <- member config "no_operation_id" ;;
    if negb (is_string checkStatus "off") then
      push result checkStatus
           {| path := "paths." ++ pathKey ++ "." ++ opKey ++ ".operationId";
              message := operationId_message |}
    else Ok result
  else Ok result.

Definition hasSummary : outcome bool :=
  summary <- member op "summary" ;; has_text summary.

(** Lines 149-159. *)
Definition check_summary (result : buckets) : outcome buckets :=
  has <- hasSummary ;;
  if negb has then
    checkStatus <- member config "no_summary" ;;
    if negb (is_string checkStatus "off") then
      push result checkStatus
           {| path := "paths." ++ pathKey ++ "." ++ opKey ++ ".summary";
              message := summary_message |}
    else Ok result
  else Ok result.

(** The body of the loop of line 167 at index [indx]: the new
    [firstOptional] and [result]. *)
Definition parameter_step (checkStatus parameters : value) (indx : nat)
           (firstOptional : Z) (result : buckets) : outcome (Z * buckets) :=
  parameter <- index_value parameters indx ;;
  param <- resolveRef parameter jsSpec ;;
  if (firstOptional <? 0)%Z then
    required <- member param "required" ;;
    if negb (truthy required) then Ok (Z.of_nat indx, result)
    else Ok (firstOptional, result)
  else
    required <- member param "required" ;;
    if truthy required then
      result' <- push result checkStatus
                      {| path := "paths." ++ pathKey ++ "." ++ opKey ++ ".parameters["
                                 ++ decimal_of_nat indx ++ "]";
                         message := parameter_order_message |} ;;
      Ok (firstOptional, result')
    else Ok (firstOptional, result).

Fixpoint parameter_loop (checkStatus parameters : value) (indices : list nat)
         (firstOptional : Z) (result : buckets) : outcome buckets :=
  match indices with
  | [] => Ok result
  | indx :: rest =>
      next <- parameter_step checkStatus parameters indx firstOptional result ;;
      parameter_loop checkStatus parameters rest (fst next) (snd next)
  end.

(** Lines 161-183. *)
Definition check_parameter_order (result : buckets) : outcome buckets :=
  checkStatus <- member config "parameter_order" ;;
  if negb (is_string checkStatus "off") then
    parameters <- member op "parameters" ;;
    if truthy parameters then
      len <- length_of parameters ;;
      positive <- gt_zero len ;;
      if positive then
        count <- iterations len ;;
        parameter_loop checkStatus parameters (seq 0 count) (-1)%Z result
      else Ok result
    else Ok result
  else Ok result.

(** The callback of line 61. *)
Definition visit_operation (result : buckets) : outcome buckets :=
  excluded <- member op "x-sdk-exclude" ;;
  if is_true excluded then Ok result
  else
    r1 <- check_consumes result ;;
    r2 <- check_produces r1 ;;
    r3 <- check_get r2 ;;
    r4 <- check_operationId r3 ;;
    r5 <- check_summary r4 ;;
    check_parameter_order r5.

End Operation.

(** [each(pathOps, ...)] of line 61. *)
Fixpoint each_operation (jsSpec config : value) (pathKey : string)
         (pathOps : list (string * value)) (result : buckets) : outcome buckets :=
  match pathOps with
  | [] => Ok result
  | (opKey, op) :: rest =>
      result' <- visit_operation jsSpec config pathKey op opKey result ;;
      each_operation jsSpec config pathKey rest result'
  end.

(** The callback of line 56.  [pathKey.slice(0, 2)] is the first two
    characters of a key that is a string; a key that is a number, as an
    array-like [paths] gives, has no [slice]. *)
Definition visit_path (jsSpec config : value) (path pathKey : value) (result : buckets)
  : outcome buckets :=
  match pathKey with
  | VStr key =>
      if String.eqb (String.substring 0 2 key) "x-" then Ok result
      else each_operation jsSpec config key (pick path method_keys) result
  | _ => TypeError
  end.

(** [map(jsSpec.paths, ...)] of line 56. *)
Fixpoint map_paths (jsSpec config : value) (paths : list (value * value))
         (result : buckets) : outcome buckets :=
  match paths with
  | [] => Ok result
  | (path, pathKey) :: rest =>
      result' <- visit_path jsSpec config path pathKey result ;;
      map_paths jsSpec config rest result'
  end.

(** [validate({ jsSpec }, config)] (lines 48-188): [arg] is the first
    argument, from which [jsSpec] is taken. *)
Definition validate (arg config : value) : outcome report :=
  jsSpec <- member arg "jsSpec" ;;
  let result := {| error := []; warning := [] |} in
  config' <- member config "operations" ;;
  paths <- member jsSpec "paths" ;;
  pairs <- map_entries paths ;;
  result' <- map_paths jsSpec config' pairs result ;;
  Ok {| errors := error result'; warnings := warning result' |}.

(** ** Notions the properties are stated with *)

(** [result] with [es] appended to its errors and [ws] to its warnings. *)
Definition add_findings (result : buckets) (es ws : list finding) : buckets :=
  {| error := (error result ++ es)%list; warning := (warning result ++ ws)%list |}.

(** [result] with [fs] appended to the bucket that [severity] names,
    [severity] being [error] or [warning]. *)
Definition add_to (severity : string) (result : buckets) (fs : list finding) : buckets :=
  if String.eqb severity "error" then add_findings result fs []
  else add_findings result [] fs.

(** A severity that names no bucket: not [off], and not [error] or
    [warning] once converted to a property key. *)
Definition names_no_bucket (s : value) : Prop :=
  s <> VStr "off" /\ to_string s <> Ok "error" /\ to_string s <> Ok "warning".

(** The findings of [fs] that carry the message [m]. *)
Definition with_message (m : string) (fs : list finding) : list finding :=
  filter (fun f => String.eqb (message f) m) fs.

(** [r'] is [r] with findings added that all carry the message [m]. *)
Definition emits_only (m : string) (r r' : buckets) : Prop :=
  exists es ws,
    r' = add_findings r es ws /\
    Forall (fun f => message f = m) es /\ Forall (fun f => message f = m) ws.

(** What a push under the severity found at [key] can have done when it
    returned: nothing when the severity is [off]. *)
Definition guarded_push (config : value) (key : string) (f : finding) (r r' : buckets) : Prop :=
  exists s, member config key = Ok s /\
            ((s = VStr "off" /\ r' = r) \/ (s <> VStr "off" /\ push r s f = Ok r')).

Section Findings.

(** The findings that the checks push for the operation [opKey] of the
    path [pathKey]. *)
Variables (pathKey opKey : string).

Definition consumes_finding : finding :=
  {| path := "paths." ++ pathKey ++ "." ++ opKey ++ ".consumes"; message := consumes_message |}.

Definition produces_finding : finding :=
  {| path := "paths." ++ pathKey ++ "." ++ opKey ++ ".produces"; message := produces_message |}.

Definition get_consumes_finding : finding :=
  {| path := "paths." ++ pathKey ++ "." ++ opKey ++ ".consumes";
     message := get_consumes_message |}.

Definition array_response_finding (nameText : string) : finding :=
  {| path := "paths." ++ pathKey ++ "." ++ opKey ++ ".responses." ++ nameText ++ ".schema";
     message := array_response_message |}.

Definition operationId_finding : finding :=
  {| path := "paths." ++ pathKey ++ "." ++ opKey ++ ".operationId";
     message := operationId_message |}.

Definition summary_finding : finding :=
  {| path := "paths." ++ pathKey ++ "." ++ opKey ++ ".summary"; message := summary_message |}.

Definition parameter_order_finding (indx : nat) : finding :=
  {| path := "paths." ++ pathKey ++ "." ++ opKey ++ ".parameters[" ++ decimal_of_nat indx ++ "]";
     message := parameter_order_message |}.

End Findings.

(** The seven rules, numbered as the header of the module numbers its
    assertions. *)
Inductive rule : Type :=
| R1_consumes_required
| R2_consumes_forbidden
| R3_produces_required
| R4_operationId_required
| R5_summary_required
| R6_no_array_response
| R7_parameter_order.

Definition all_rules : list rule :=
  [R1_consumes_required; R2_consumes_forbidden; R3_produces_required;
   R4_operationId_required; R5_summary_required; R6_no_array_response; R7_parameter_order].

Definition rule_message (k : rule) : string :=
  match k with
  | R1_consumes_required => consumes_message
  | R2_consumes_forbidden => get_consumes_message
  | R3_produces_required => produces_message
  | R4_operationId_required => operationId_message
  | R5_summary_required => summary_message
  | R6_no_array_response => array_response_message
  | R7_parameter_order => parameter_order_message
  end.

(** The key of [config.operations] that holds the severity of a rule. *)
Definition rule_key (k : rule) : string :=
  match k with
  | R1_consumes_required => "no_consumes_for_put_or_post"
  | R2_consumes_forbidden => "get_op_has_consumes"
  | R3_produces_required => "no_produces"
  | R4_operationId_required => "no_operation_id"
  | R5_summary_required => "no_summary"
  | R6_no_array_response => "no_array_responses"
  | R7_parameter_order => "parameter_order"
  end.

(** The rule a finding comes from, told by its message. *)
Definition rule_of (f : finding) : option rule :=
  find (fun k => String.eqb (message f) (rule_message k)) all_rules.

(** The place of a rule in the sequence R1, R2, ..., R7. *)
Definition numbered_position (k : rule) : nat :=
  match k with
  | R1_consumes_required => 1
  | R2_consumes_forbidden => 2
  | R3_produces_required => 3
  | R4_operationId_required => 4
  | R5_summary_required => 5
  | R6_no_array_response => 6
  | R7_parameter_order => 7
  end.

(** The place of a rule in the sequence in which the callback of line 61
    runs the checks: R1, R3, R2, R6, R4, R5, R7. *)
Definition emission_position (k : rule) : nat :=
  match k with
  | R1_consumes_required => 1
  | R3_produces_required => 2
  | R2_consumes_forbidden => 3
  | R6_no_array_response => 4
  | R4_operationId_required => 5
  | R5_summary_required => 6
  | R7_parameter_order => 7
  end.

(** [f] and [g] come from rules, and the rule of [f] is not after the rule
    of [g] in the sequence that [position] gives. *)
Definition in_sequence (position : rule -> nat) (f g : finding) : Prop :=
  exists a b, rule_of f = Some a /\ rule_of g = Some b /\ position a <= position b.

(** The findings of a list keep to the sequence: each one is in sequence
    with every later one. *)
Definition keeps_sequence (position : rule -> nat) (fs : list finding) : Prop :=
  StronglySorted (in_sequence position) fs.

(** [r'] is [r] with findings added of which those with the message [m]
    are [es] among the errors and [ws] among the warnings. *)
Definition adds (m : string) (es ws : list finding) (r r' : buckets) : Prop :=
  exists es' ws',
    r' = add_findings r es' ws' /\ with_message m es' = es /\ with_message m ws' = ws.

(** The findings [fs] in the bucket that [severity] names, as a pair of
    what goes to the errors and what goes to the warnings. *)
Definition errors_of (severity : string) (fs : list finding) : list finding :=
  if String.eqb severity "error" then fs else [].
Definition warnings_of (severity : string) (fs : list finding) : list finding :=
  if String.eqb severity "error" then [] else fs.

Section Rules.

Variables (jsSpec config : value) (pathKey : string) (op : value) (opKey : string).

(** The part of the callback of line 61 that belongs to one rule.  R2 and
    R6 share the test of line 105. *)
Definition run_rule (k : rule) (result : buckets) : outcome buckets :=
  match k with
  | R1_consumes_required => check_consumes jsSpec config pathKey op opKey result
  | R3_produces_required => check_produces jsSpec config pathKey op opKey result
  | R2_consumes_forbidden =>
      if String.eqb (toLowerCase opKey) "get"
      then check_get_consumes config pathKey op opKey result
      else Ok result
  | R6_no_array_response =>
      if String.eqb (toLowerCase opKey) "get"
      then check_array_responses jsSpec config pathKey op opKey result
      else Ok result
  | R4_operationId_required => check_operationId config pathKey op opKey result
  | R5_summary_required => check_summary config pathKey op opKey result
  | R7_parameter_order => check_parameter_order jsSpec config pathKey op opKey result
  end.

Fixpoint run_rules (ks : list rule) (result : buckets) : outcome buckets :=
  match ks with
  | [] => Ok result
  | k :: rest => result' <- run_rule k result ;; run_rules rest result'
  end.

End Rules.

(** The rules in the order in which the callback has their parts. *)
Definition emission_order : list rule :=
  [R1_consumes_required; R3_produces_required; R2_consumes_forbidden; R6_no_array_response;
   R4_operationId_required; R5_summary_required; R7_parameter_order].

(** ** Documents and configurations of the examples *)

Definition empty_buckets : buckets := {| error := []; warning := [] |}.

(** The argument of [validate] for a document with the given [paths]. *)
Definition document_with (paths : list (string * value)) : value :=
  VObj [("jsSpec", VObj [("paths", VObj paths)])].

(** [config.operations] with the severities of R1 to R7. *)
Definition severities (s1 s2 s3 s4 s5 s6 s7 : value) : value :=
  VObj [("no_consumes_for_put_or_post", s1); ("get_op_has_consumes", s2);
        ("no_produces", s3); ("no_operation_id", s4); ("no_summary", s5);
        ("no_array_responses", s6); ("parameter_order", s7)].

Definition config_with (operations : value) : value := VObj [("operations", operations)].

Definition all_errors : value :=
  severities (VStr "error") (VStr "error") (VStr "error") (VStr "error") (VStr "error")
             (VStr "error") (VStr "error").

Definition all_off : value :=
  severities (VStr "off") (VStr "off") (VStr "off") (VStr "off") (VStr "off")
             (VStr "off") (VStr "off").

(** ** R7 in terms of the parameters *)

(** The [required] of each parameter, once resolved. *)
Fixpoint required_values (jsSpec : value) (parameters : list value) : outcome (list value) :=
  match parameters with
  | [] => Ok []
  | parameter :: rest =>
      param <- resolveRef parameter jsSpec ;;
      required <- member param "required" ;;
      requireds <- required_values jsSpec rest ;;
      Ok (required :: requireds)
  end.

(** The index of the first value that is not truthy. *)
Fixpoint first_falsy (vs : list value) : option nat :=
  match vs with
  | [] => None
  | v :: rest => if truthy v then option_map S (first_falsy rest) else Some 0
  end.

(** The indices after the first falsy [required] at which [required] is
    truthy, in increasing order. *)
Definition reported_indices (requireds : list value) : list nat :=
  match first_falsy requireds with
  | Some firstOptional =>
      filter (fun i => (firstOptional <? i)%nat && truthy (nth i requireds VUndefined))
             (seq 0 (List.length requireds))
  | None => []
  end.

(** What the loop of line 167 reports from the index [indx] on, over the
    [required] values that are left, when an optional parameter was seen
    before ([seen]) or not. *)
Fixpoint reported_from (seen : bool) (indx : nat) (requireds : list value) : list nat :=
  match requireds with
  | [] => []
  | v :: rest =>
      if seen then ((if truthy v then [indx] else []) ++ reported_from true (S indx) rest)%list
      else reported_from (negb (truthy v)) (S indx) rest
  end.

(** ** Reference pointers *)

(** A segment with no slash, double quote or backslash in it. *)
Definition clean_segment (s : string) : bool :=
  all_chars (fun c => negb (Ascii.eqb c "/"%char || Ascii.eqb c dquote || Ascii.eqb c backslash)) s.

(** The pointer that names the keys [segments], one after the other. *)
Definition pointer_to (segments : list string) : string :=
  "#/" ++ join_strings "/" segments.

(** The path that line 42 builds for these segments. *)
Definition path_of (segments : list string) : string :=
  join_strings "." (map bracket_quote segments).

(** The value that the document stores under the keys, each of them an own
    key of the object reached so far. *)
Fixpoint stored_at (v : value) (keys : list string) : option value :=
  match keys with
  | [] => Some v
  | key :: rest =>
      match v with
      | VObj props =>
          match assoc key props with
          | Some x => stored_at x rest
          | None => None
          end
      | _ => None
      end
  end.

(** [r'] is [r] with findings appended to its buckets. *)
Definition extends (r r' : buckets) : Prop :=
  exists es ws, r' = add_findings r es ws.

(** ** Documents as the data model has them *)

Definition is_severity (v : value) : Prop :=
  v = VStr "error" \/ v = VStr "warning" \/ v = VStr "off".

(** Every rule has one of the three severities. *)
Definition well_formed_severities (config : value) : Prop :=
  forall k, exists s, member config (rule_key k) = Ok s /\ is_severity s.

(** A field that is missing or a sequence of strings. *)
Definition strings_or_absent (v : value) : Prop :=
  v = VUndefined \/ exists items, v = VArr items /\ Forall (fun x => exists s, x = VStr s) items.

(** A field that is missing or a string. *)
Definition string_or_absent (v : value) : Prop :=
  v = VUndefined \/ exists s, v = VStr s.

(** A parameter, inline or a reference, that resolves to an object. *)
Definition resolves_to_object (jsSpec parameter : value) : Prop :=
  exists props, resolveRef parameter jsSpec = Ok (VObj props).

(** A response: an object whose schema, if it has one, resolves. *)
Definition well_formed_response (jsSpec response : value) : Prop :=
  exists props,
    response = VObj props /\
    (assoc "schema" props = None \/
     exists schema v, assoc "schema" props = Some schema /\ resolveRef schema jsSpec = Ok v).

Definition well_formed_operation (jsSpec op : value) : Prop :=
  exists props,
    op = VObj props /\
    strings_or_absent (or_undefined (assoc "consumes" props)) /\
    strings_or_absent (or_undefined (assoc "produces" props)) /\
    string_or_absent (or_undefined (assoc "operationId" props)) /\
    string_or_absent (or_undefined (assoc "summary" props)) /\
    (or_undefined (assoc "parameters" props) = VUndefined \/
     exists parameters,
       or_undefined (assoc "parameters" props) = VArr parameters /\
       Forall (resolves_to_object jsSpec) parameters) /\
    (or_undefined (assoc "responses" props) = VUndefined \/
     exists responses,
       or_undefined (assoc "responses" props) = VObj responses /\
       assoc "length" responses = None /\
       Forall (fun kv => well_formed_response jsSpec (snd kv)) responses).

(** A document whose [paths] is a plain object and whose operations are as
    above. *)
Definition well_formed_document (jsSpec : value) : Prop :=
  exists props paths,
    jsSpec = VObj props /\
    or_undefined (assoc "paths" props) = VObj paths /\
    assoc "length" paths = None /\
    Forall (fun kv => forall opKey op,
                In (opKey, op) (pick (snd kv) method_keys) ->
                well_formed_operation jsSpec op) paths.

(** ** Notions for the further properties *)

(** The start of the locator of every finding about the operation [opKey]
    of the path [pathKey]. *)
Definition operation_locator (pathKey opKey : string) : string :=
  "paths." ++ pathKey ++ "." ++ opKey ++ ".".

(** [f] is a finding of some rule whose configured severity is not [off]
    and converts to the name [bucket]. *)
Definition routed (config : value) (bucket : string) (f : finding) : Prop :=
  exists k s,
    message f = rule_message k /\
    member config (rule_key k) = Ok s /\ s <> VStr "off" /\ to_string s = Ok bucket.

(** [f] is located at an operation under one of the seven method keys. *)
Definition located (f : finding) : Prop :=
  exists pathKey opKey,
    In opKey method_keys /\
    String.prefix (operation_locator pathKey opKey) (path f) = true.

(** What a visit of the operation [opKey] of [pathKey] may add: findings
    routed by their severities, located at the operation. *)
Definition visit_adds (config : value) (pathKey opKey : string) (r r' : buckets) : Prop :=
  exists es ws,
    r' = add_findings r es ws /\
    Forall (fun f => routed config "error" f /\
                     String.prefix (operation_locator pathKey opKey) (path f) = true) es /\
    Forall (fun f => routed config "warning" f /\
                     String.prefix (operation_locator pathKey opKey) (path f) = true) ws.

(** What a call may add: findings routed by their severities and located
    at operations. *)
Definition call_adds (config : value) (r r' : buckets) : Prop :=
  exists es ws,
    r' = add_findings r es ws /\
    Forall (fun f => routed config "error" f /\ located f) es /\
    Forall (fun f => routed config "warning" f /\ located f) ws.

(** The outcome [o] of a run from the buckets [d], seen after the findings
    of [r]: what it added is appended to [r]; a failure stays. *)
Definition after (r : buckets) (o : outcome buckets) : outcome buckets :=
  match o with
  | Ok d => Ok (add_findings r (error d) (warning d))
  | TypeError => TypeError
  | Unmodelled => Unmodelled
  end.

(** The place of a key in a list of keys. *)
Fixpoint index_of (k : string) (keys : list string) : nat :=
  match keys with
  | [] => 0
  | k' :: rest => if String.eqb k k' then 0 else S (index_of k rest)
  end.

(** What the callback of line 56 finds for one entry of a plain [paths]
    object, from empty buckets. *)
Definition path_findings (jsSpec config : value) (entry : string * value) : outcome buckets :=
  visit_path jsSpec config (snd entry) (VStr (fst entry)) empty_buckets.

(** The key is an extension key: its first two characters are [x-]. *)
Definition is_extension (pathKey : string) : bool :=
  String.eqb (String.substring 0 2 pathKey) "x-".


(** The operation carries the exclusion marker of line 64. *)
Definition is_excluded (op : value) : Prop :=
  member op "x-sdk-exclude" = Ok (VBool true).

(** A value that is neither an array nor an object. *)
Definition is_scalar (v : value) : bool :=
  match v with
  | VArr _ | VObj _ => false
  | _ => true
  end.

(** A scalar that lines 137 and 149 take for missing text: anything but a
    string that has a character other than white space. *)
Definition is_blank (v : value) : bool :=
  match v with
  | VStr s => is_empty (trim s)
  | _ => true
  end.

(** A string with a character that is not white space. *)
Definition has_visible_text (s : string) : bool := negb (is_empty (trim s)).

(** The operations on which the callback of line 61 reaches the part of a
    rule: the tests of lines 69, 87 and 105. *)
Definition applies_to (k : rule) (opKey : string) : bool :=
  match k with
  | R1_consumes_required => includes ["put"; "post"] (toLowerCase opKey)
  | R3_produces_required => negb (String.eqb (toLowerCase opKey) "head")
  | R2_consumes_forbidden | R6_no_array_response => String.eqb (toLowerCase opKey) "get"
  | R4_operationId_required | R5_summary_required | R7_parameter_order => true
  end.

(** The finding that a rule with one place to report has for the
    operation [opKey] of [pathKey]; R6 and R7 have one place for each
    response and each parameter. *)
Definition single_finding (k : rule) (pathKey opKey : string) : option finding :=
  match k with
  | R1_consumes_required => Some (consumes_finding pathKey opKey)
  | R2_consumes_forbidden => Some (get_consumes_finding pathKey opKey)
  | R3_produces_required => Some (produces_finding pathKey opKey)
  | R4_operationId_required => Some (operationId_finding pathKey opKey)
  | R5_summary_required => Some (summary_finding pathKey opKey)
  | R6_no_array_response | R7_parameter_order => None
  end.

(** [f] is a finding that the rule [k] has for the operation [opKey] of
    [pathKey]: the message of the rule, and the locator of the field, the
    response schema or the parameter it is about. *)
Definition finding_of (k : rule) (pathKey opKey : string) (f : finding) : Prop :=
  match k with
  | R6_no_array_response => exists nameText, f = array_response_finding pathKey opKey nameText
  | R7_parameter_order => exists indx, f = parameter_order_finding pathKey opKey indx
  | _ => single_finding k pathKey opKey = Some f
  end.

(** What the part of the rule [k] may add: findings of the rule for this
    operation. *)
Definition adds_of (k : rule) (pathKey opKey : string) (r r' : buckets) : Prop :=
  exists es ws,
    r' = add_findings r es ws /\
    Forall (finding_of k pathKey opKey) es /\ Forall (finding_of k pathKey opKey) ws.

(** [f] is a finding about the operation [opKey] of [pathKey], of a rule
    that applies to this operation. *)
Definition placed_at (pathKey opKey : string) (f : finding) : Prop :=
  exists k, applies_to k opKey = true /\ finding_of k pathKey opKey f.

(** [f] is a finding of a rule about an operation under one of the seven
    method keys to which the rule applies. *)
Definition placed (f : finding) : Prop :=
  exists pathKey opKey, In opKey method_keys /\ placed_at pathKey opKey f.

(** What a call may add when every finding is placed. *)
Definition adds_placed (r r' : buckets) : Prop :=
  exists es ws, r' = add_findings r es ws /\ Forall placed es /\ Forall placed ws.

(** One of the keys is missing where the walk along [keys] arrives at it:
    so far every key was an own key of an object, and this one is neither
    an own key of the object reached nor a member of [Object.prototype]. *)
Fixpoint missing_at (v : value) (keys : list string) : bool :=
  match keys with
  | [] => false
  | key :: rest =>
      match v with
      | VObj props =>
          match assoc key props with
          | Some x => missing_at x rest
          | None => negb (includes object_prototype_names key)
          end
      | _ => false
      end
  end.

(** A node whose [$ref] is the pointer to [segments], which is one the
    resolver reads key by key: no segment has a slash, double quote or
    backslash in it, and the path of line 42 is not itself a key of the
    document. *)
Definition points_to (obj jsSpec : value) (segments : list string) : Prop :=
  member obj "$ref" = Ok (VStr (pointer_to segments)) /\
  segments <> [] /\
  Forall (fun s => clean_segment s = true) segments /\
  in_object (path_of segments) jsSpec = false.

(** A node whose [$ref] is a string that is not empty and does not start
    with [#/]. *)
Definition is_external (obj : value) : Prop :=
  exists s, member obj "$ref" = Ok (VStr s) /\ s <> EmptyString /\ String.prefix "#/" s = false.

(** Lines 123 to 125 on one response: its schema is there and resolves to
    something of type [array]. *)
Definition has_array_schema (jsSpec response : value) : outcome bool :=
  schema <- member response "schema" ;;
  if truthy schema then
    responseSchema <- resolveRef schema jsSpec ;;
    if truthy responseSchema then
      type <- member responseSchema "type" ;;
      Ok (is_string type "array")
    else Ok false
  else Ok false.

(** The names of the responses of a plain object that have such a schema,
    in the order of the object. *)
Fixpoint array_responses (jsSpec : value) (responses : list (string * value))
  : outcome (list string) :=
  match responses with
  | [] => Ok []
  | (name, response) :: rest =>
      found <- has_array_schema jsSpec response ;;
      names <- array_responses jsSpec rest ;;
      Ok (if found then name :: names else names)
  end.

(** The [required] values are in order: every truthy one comes before
    every falsy one. *)
Fixpoint required_first (requireds : list value) : bool :=
  match requireds with
  | [] => true
  | v :: rest =>
      if truthy v then required_first rest
      else forallb (fun x => negb (truthy x)) rest
  end.

(** A [paths] with nothing for [map] to walk. *)
Definition is_empty_collection (v : value) : bool :=
  match v with
  | VObj (_ :: _) | VArr (_ :: _) | VStr (String _ _) => false
  | _ => true
  end.

(** A [paths] that [map] walks by index: an array or a string with
    something in it. *)
Definition is_list_like (v : value) : bool :=
  match v with
  | VArr (_ :: _) | VStr (String _ _) => true
  | _ => false
  end.

(** What the callback of line 61 finds for one operation of the path
    [pathKey], from empty buckets. *)
Definition operation_findings (jsSpec config : value) (pathKey : string)
           (entry : string * value) : outcome buckets :=
  visit_operation jsSpec config pathKey (snd entry) (fst entry) empty_buckets.

(** [null], as a parser gives for a key with no value, or [undefined]. *)
Definition is_nullish (v : value) : Prop := v = VNull \/ v = VUndefined.

(** The operation [opKey] has a node that is [null] where the callback of
    line 61 reads a member of it: the operation itself, or, unless the
    operation is excluded, one of its responses when it is a GET operation
    and R6 is not off, or one of its parameters when R7 is not off. *)
Definition has_null_node (config op : value) (opKey : string) : Prop :=
  is_nullish op \/
  (~ is_excluded op /\
   ((opKey = "get" /\ member config "no_array_responses" <> Ok (VStr "off") /\
     exists responses response name,
       member op "responses" = Ok responses /\
       In (response, name) (entries responses) /\ is_nullish response) \/
    (member config "parameter_order" <> Ok (VStr "off") /\
     exists parameters parameter,
       member op "parameters" = Ok (VArr parameters) /\
       In parameter parameters /\ is_nullish parameter))).

(** The types that lines 71 to 74, or 89 to 92, look for are there: the
    local value is missing or an array of strings, and either one of the
    strings has text or the document has a truthy value of its own. *)
Definition has_types (of_document local : value) : Prop :=
  (local = VUndefined /\ truthy of_document = true) \/
  exists items,
    local = VArr (map VStr items) /\
    (existsb has_visible_text items = true \/ truthy of_document = true).

(** A string with text in it. *)
Definition is_text (v : value) : Prop :=
  exists s, v = VStr s /\ has_visible_text s = true.

(** An operation that gives none of the seven rules anything to report. *)
Definition clean_operation (jsSpec op : value) (opKey : string) : Prop :=
  exists props of_document_consumes of_document_produces,
    op = VObj props /\
    member jsSpec "consumes" = Ok of_document_consumes /\
    member jsSpec "produces" = Ok of_document_produces /\
    (opKey = "put" \/ opKey = "post" ->
     has_types of_document_consumes (or_undefined (assoc "consumes" props))) /\
    (opKey <> "head" ->
     has_types of_document_produces (or_undefined (assoc "produces" props))) /\
    (opKey = "get" ->
     truthy (or_undefined (assoc "consumes" props)) = false /\
     (assoc "responses" props = None \/
      exists responses,
        assoc "responses" props = Some (VObj responses) /\
        assoc "length" responses = None /\
        array_responses jsSpec responses = Ok [])) /\
    is_text (or_undefined (assoc "operationId" props)) /\
    is_text (or_undefined (assoc "summary" props)) /\
    (assoc "parameters" props = None \/
     exists parameters requireds,
       assoc "parameters" props = Some (VArr parameters) /\
       required_values jsSpec parameters = Ok requireds /\
       required_first requireds = true).

(** ** Types that an operation names *)

(** One of the entries of [local] is a string with a character that is not
    white space: what a [consumes] or [produces] that is an array of
    strings needs for line 71 or 89 to count it. *)
Definition names_a_type (local : value) : bool :=
  match local with
  | VArr items =>
      existsb (fun x => match x with VStr s => has_visible_text s | _ => false end) items
  | _ => false
  end.

(** ** Rules about a text field *)

(** The field of the operation that R4 and R5 ask text of. *)
Definition text_field (k : rule) : option string :=
  match k with
  | R4_operationId_required => Some "operationId"
  | R5_summary_required => Some "summary"
  | _ => None
  end.

(** The list that the severity [severity] names in a findings pair. *)
Definition bucket_of (severity : string) (rep : report) : list finding :=
  if String.eqb severity "error" then errors rep else warnings rep.

(** ** The objects of a call

    [validate] builds what it returns in objects of its own: [result]
    (line 50) and its two arrays (lines 51 and 52), which every [push]
    changes in place and which the returned object shares (line 187).
    Here these objects are cells of a heap, next to the document and the
    configuration, which the caller hands in by reference.  What the
    module only reads, and what lodash builds on the way, stays a value:
    no cell is needed for what nothing is written to. *)
Module Store.

Definition loc : Type := nat.

Inductive cell : Type :=
| Tree (v : value)
| Findings (items : list finding)
| Object (props : list (string * loc)).

Definition heap : Type := list cell.

(** A computation that may change the heap, or fail. *)
Definition M (A : Type) : Type := heap -> outcome (A * heap).

Definition ret {A : Type} (a : A) : M A := fun h => Ok (a, h).

Definition bindM {A B : Type} (m : M A) (k : A -> M B) : M B :=
  fun h =>
    match m h with
    | Ok (a, h') => k a h'
    | TypeError => TypeError
    | Unmodelled => Unmodelled
    end.

Notation "x <~ m ;; k" := (bindM m (fun x => k))
  (at level 61, m at next level, right associativity).

(** A computation that leaves the heap alone. *)
Definition lift {A : Type} (o : outcome A) : M A :=
  fun h =>
    match o with
    | Ok a => Ok (a, h)
    | TypeError => TypeError
    | Unmodelled => Unmodelled
    end.

(** Following a reference.  A reference to nothing is not modelled: the
    module has none. *)
Definition read (l : loc) : M cell :=
  fun h =>
    match nth_error h l with
    | Some c => Ok (c, h)
    | None => Unmodelled
    end.

Fixpoint replace (l : loc) (c : cell) (h : heap) : heap :=
  match h, l with
  | [], _ => []
  | _ :: rest, 0 => c :: rest
  | x :: rest, S l' => x :: replace l' c rest
  end.

(** Changing an object in place. *)
Definition write (l : loc) (c : cell) : M unit := fun h => Ok (tt, replace l c h).

(** A new object. *)
Definition new (c : cell) : M loc := fun h => Ok (List.length h, (h ++ [c])%list).

Fixpoint property (key : string) (props : list (string * loc)) : option loc :=
  match props with
  | [] => None
  | (key', l) :: rest => if String.eqb key key' then Some l else property key rest
  end.

Fixpoint with_property (key : string) (l : loc) (props : list (string * loc))
  : list (string * loc) :=
  match props with
  | [] => [(key, l)]
  | (key', l') :: rest =>
      if String.eqb key key' then (key, l) :: rest else (key', l') :: with_property key l rest
  end.

(** [object[key]], where it is an own property that holds a reference. *)
Definition get_property (object : loc) (key : string) : M (option loc) :=
  c <~ read object ;;
  match c with
  | Object props => ret (property key props)
  | _ => lift Unmodelled
  end.

(** [object[key] = l] *)
Definition set_property (object : loc) (key : string) (l : loc) : M unit :=
  c <~ read object ;;
  match c with
  | Object props => write object (Object (with_property key l props))
  | _ => lift Unmodelled
  end.

(** [result[checkStatus].push(f)]: the array is changed in place.  Under a
    key that is no own property of [result] the read gives [undefined] or
    a member of [Object.prototype], which has no [push]. *)
Definition push (result : loc) (checkStatus : value) (f : finding) : M unit :=
  key <~ lift (to_string checkStatus) ;;
  array <~ get_property result key ;;
  match array with
  | Some l =>
      c <~ read l ;;
      match c with
      | Findings items => write l (Findings (items ++ [f])%list)
      | _ => lift TypeError
      end
  | None => lift TypeError
  end.

Section Operation.

Variables (jsSpec config : value) (pathKey : string) (op : value) (opKey : string).

(** The reference that the variable [result] holds. *)
Variable result : loc.

(** Lines 69-84. *)
Definition check_consumes : M unit :=
  if includes ["put"; "post"] (toLowerCase opKey) then
    hasLocal <~ lift (hasLocalConsumes op) ;;
    hasGlobal <~ lift (hasGlobalConsumes jsSpec) ;;
    if negb hasLocal && negb hasGlobal then
      checkStatus <~ lift (member config "no_consumes_for_put_or_post") ;;
      if negb (is_string checkStatus "off") then
        push result checkStatus
             {| path := "paths." ++ pathKey ++ "." ++ opKey ++ ".consumes";
                message := consumes_message |}
      else ret tt
    else ret tt
  else ret tt.

(** Lines 86-102. *)
Definition check_produces : M unit :=
  let isHeadOperation := String.eqb (toLowerCase opKey) "head" in
  if negb isHeadOperation then
    hasLocal <~ lift (hasLocalProduces op) ;;
    hasGlobal <~ lift (hasGlobalProduces jsSpec) ;;
    if negb hasLocal && negb hasGlobal then
      checkStatus <~ lift (member config "no_produces") ;;
      if negb (is_string checkStatus "off") then
        push result checkStatus
             {| path := "paths." ++ pathKey ++ "." ++ opKey ++ ".produces";
                message := produces_message |}
      else ret tt
    else ret tt
  else ret tt.

(** Lines 107-117. *)
Definition check_get_consumes : M unit :=
  consumes <~ lift (member op "consumes") ;;
  if truthy consumes then
    checkStatus <~ lift (member config "get_op_has_consumes") ;;
    if negb (is_string checkStatus "off") then
      push result checkStatus
           {| path := "paths." ++ pathKey ++ "." ++ opKey ++ ".consumes";
              message := get_consumes_message |}
    else ret tt
  else ret tt.

(** The callback of line 122 on one response. *)
Definition check_response (checkStatus response name : value) : M unit :=
  schema <~ lift (member response "schema") ;;
  if truthy schema then
    responseSchema <~ lift (resolveRef schema jsSpec) ;;
    if truthy responseSchema then
      type <~ lift (member responseSchema "type") ;;
      if is_string type "array" then
        nameText <~ lift (to_string name) ;;
        push result checkStatus
             {| path := "paths." ++ pathKey ++ "." ++ opKey ++ ".responses." ++ nameText
                        ++ ".schema";
                message := array_response_message |}
      else ret tt
    else ret tt
  else ret tt.

Fixpoint each_response (checkStatus : value) (responses : list (value * value)) : M unit :=
  match responses with
  | [] => ret tt
  | (response, name) :: rest =>
      _ <~ check_response checkStatus response name ;;
      each_response checkStatus rest
  end.

(** Lines 119-133. *)
Definition check_array_responses : M unit :=
  checkStatus <~ lift (member config "no_array_responses") ;;
  if negb (is_string checkStatus "off") then
    responses <~ lift (member op "responses") ;;
    each_response checkStatus (entries responses)
  else ret tt.

(** Lines 104-134. *)
Definition check_get : M unit :=
  let isGetOperation := String.eqb (toLowerCase opKey) "get" in
  if isGetOperation then
    _ <~ check_get_consumes ;;
    check_array_responses
  else ret tt.

(** Lines 137-147. *)
Definition check_operationId : M unit :=
  has <~ lift (hasOperationId op) ;;
  if negb has then
    checkStatus <~ lift (member config "no_operation_id") ;;
    if negb (is_string checkStatus "off") then
      push result checkStatus
           {| path := "paths." ++ pathKey ++ "." ++ opKey ++ ".operationId";
              message := operationId_message |}
    else ret tt
  else ret tt.

(** Lines 149-159. *)
Definition check_summary : M unit :=
  has <~ lift (hasSummary op) ;;
  if negb has then
    checkStatus <~ lift (member config "no_summary") ;;
    if negb (is_string checkStatus "off") then
      push result checkStatus
           {| path := "paths." ++ pathKey ++ "." ++ opKey ++ ".summary";
              message := summary_message |}
    else ret tt
  else ret tt.

(** The body of the loop of line 167 at index [indx]: the new
    [firstOptional]. *)
Definition parameter_step (checkStatus parameters : value) (indx : nat) (firstOptional : Z)
  : M Z :=
  parameter <~ lift (index_value parameters indx) ;;
  param <~ lift (resolveRef parameter jsSpec) ;;
  if (firstOptional <? 0)%Z then
    required <~ lift (member param "required") ;;
    if negb (truthy required) then ret (Z.of_nat indx)
    else ret firstOptional
  else
    required <~ lift (member param "required") ;;
    if truthy required then
      _ <~ push result checkStatus
                {| path := "paths." ++ pathKey ++ "." ++ opKey ++ ".parameters["
                           ++ decimal_of_nat indx ++ "]";
                   message := parameter_order_message |} ;;
      ret firstOptional
    else ret firstOptional.

Fixpoint parameter_loop (checkStatus parameters : value) (indices : list nat)
         (firstOptional : Z) : M unit :=
  match indices with
  | [] => ret tt
  | indx :: rest =>
      next <~ parameter_step checkStatus parameters indx firstOptional ;;
      parameter_loop checkStatus parameters rest next
  end.

(** Lines 161-183. *)
Definition check_parameter_order : M unit :=
  checkStatus <~ lift (member config "parameter_order") ;;
  if negb (is_string checkStatus "off") then
    parameters <~ lift (member op "parameters") ;;
    if truthy parameters then
      len <~ lift (length_of parameters) ;;
      positive <~ lift (gt_zero len) ;;
      if positive then
        count <~ lift (iterations len) ;;
        parameter_loop checkStatus parameters (seq 0 count) (-1)%Z
      else ret tt
    else ret tt
  else ret tt.

(** The callback of line 61. *)
Definition visit_operation : M unit :=
  excluded <~ lift (member op "x-sdk-exclude") ;;
  if is_true excluded then ret tt
  else
    _ <~ check_consumes ;;
    _ <~ check_produces ;;
    _ <~ check_get ;;
    _ <~ check_operationId ;;
    _ <~ check_summary ;;
    check_parameter_order.

End Operation.

(** [each(pathOps, ...)] of line 61. *)
Fixpoint each_operation (jsSpec config : value) (pathKey : string)
         (pathOps : list (string * value)) (result : loc) : M unit :=
  match pathOps with
  | [] => ret tt
  | (opKey, op) :: rest =>
      _ <~ visit_operation jsSpec config pathKey op opKey result ;;
      each_operation jsSpec config pathKey rest result
  end.

(** The callback of line 56. *)
Definition visit_path (jsSpec config : value) (path pathKey : value) (result : loc) : M unit :=
  match pathKey with
  | VStr key =>
      if String.eqb (String.substring 0 2 key) "x-" then ret tt
      else each_operation jsSpec config key (pick path method_keys) result
  | _ => lift TypeError
  end.

(** [map(jsSpec.paths, ...)] of line 56. *)
Fixpoint map_paths (jsSpec config : value) (paths : list (value * value)) (result : loc)
  : M unit :=
  match paths with
  | [] => ret tt
  | (path, pathKey) :: rest =>
      _ <~ visit_path jsSpec config path pathKey result ;;
      map_paths jsSpec config rest result
  end.

(** [validate({ jsSpec }, config)] (lines 48-188), on references to its
    two arguments; it returns the reference to the object of line 187. *)
Definition validate (arg config : loc) : M loc :=
  argument <~ read arg ;;
  configuration <~ read config ;;
  match argument, configuration with
  | Tree argument, Tree configuration =>
      jsSpec <~ lift (member argument "jsSpec") ;;
      result <~ new (Object []) ;;
      error <~ new (Findings []) ;;
      _ <~ set_property result "error" error ;;
      warning <~ new (Findings []) ;;
      _ <~ set_property result "warning" warning ;;
      operations <~ lift (member configuration "operations") ;;
      paths <~ lift (member jsSpec "paths") ;;
      pairs <~ lift (map_entries paths) ;;
      _ <~ map_paths jsSpec operations pairs result ;;
      errors <~ get_property result "error" ;;
      warnings <~ get_property result "warning" ;;
      match errors, warnings with
      | Some e, Some w => new (Object [("errors", e); ("warnings", w)])
      | _, _ => lift Unmodelled
      end
  | _, _ => lift Unmodelled
  end.

End Store.

(** ** Heaps of the properties *)

(** The cell [l] of [h] is the argument [v], as the caller parsed it. *)
Definition holds (h : Store.heap) (l : Store.loc) (v : value) : Prop :=
  nth_error h l = Some (Store.Tree v).

(** The reference is to a cell that [h] has. *)
Definition allocated (h : Store.heap) (l : Store.loc) : Prop := l < List.length h.

(** The findings pair that the object at [rep] gives in [h]: the arrays
    that its [errors] and [warnings] refer to. *)
Definition report_at (h : Store.heap) (rep : Store.loc) : option report :=
  match nth_error h rep with
  | Some (Store.Object props) =>
      match Store.property "errors" props, Store.property "warnings" props with
      | Some e, Some w =>
          match nth_error h e, nth_error h w with
          | Some (Store.Findings es), Some (Store.Findings ws) =>
              Some {| errors := es; warnings := ws |}
          | _, _ => None
          end
      | _, _ => None
      end
  | _ => None
  end.

(** The cells of [result] and its arrays, when the first is the cell [n]
    of the heap, with the findings of [r] in the arrays. *)
Definition result_cells (n : nat) (r : buckets) : list Store.cell :=
  [Store.Object [("error", S n); ("warning", S (S n))];
   Store.Findings (error r); Store.Findings (warning r)].

(** The heap during a call that found [pre]: [result] is the next cell. *)
Definition during (pre : Store.heap) (r : buckets) : Store.heap :=
  (pre ++ result_cells (List.length pre) r)%list.

(** The outcome on the heap that goes with an outcome on buckets. *)
Definition on_heap (pre : Store.heap) (o : outcome buckets) : outcome (unit * Store.heap) :=
  match o with
  | Ok r => Ok (tt, during pre r)
  | TypeError => TypeError
  | Unmodelled => Unmodelled
  end.

(** The heap that a call leaves that found [pre] and returns [rep]. *)
Definition after_call (pre : Store.heap) (rep : report) : Store.heap :=
  (during pre {| error := errors rep; warning := warnings rep |}
   ++ [Store.Object [("errors", S (List.length pre)); ("warnings", S (S (List.length pre)))]])%list.
(** * Properties *)

(** ** Outcomes *)

Lemma bind_Ok {A B : Type} (m : outcome A) (k : A -> outcome B) (b : B) :
  bind m k = Ok b -> exists a, m = Ok a /\ k a = Ok b.
Proof.
  destruct m as [a| |]; simpl; intros H; try discriminate.
  exists a; split; [reflexivity | exact H].
Qed.

Ltac bind_inv H :=
  let a := fresh "a" in
  let E := fresh "E" in
  apply bind_Ok in H; destruct H as (a & E & H).

(** ** Buckets *)

Lemma add_findings_nil (r : buckets) : add_findings r [] [] = r.
Proof.
  destruct r as [e w]; unfold add_findings; simpl; now rewrite !app_nil_r.
Qed.

Lemma add_findings_add (r : buckets) (e1 w1 e2 w2 : list finding) :
  add_findings (add_findings r e1 w1) e2 w2 = add_findings r (e1 ++ e2)%list (w1 ++ w2)%list.
Proof.
  unfold add_findings; simpl; now rewrite !app_assoc.
Qed.

Lemma push_Ok (r r' : buckets) (s : value) (f : finding) :
  push r s f = Ok r' ->
  (to_string s = Ok "error" /\ r' = add_findings r [f] []) \/
  (to_string s = Ok "warning" /\ r' = add_findings r [] [f]).
Proof.
  unfold push; intros H; bind_inv H.
  destruct (String.eqb a "error") eqn:Ee.
  - apply String.eqb_eq in Ee; subst a; left; split; [assumption|].
    injection H as <-; unfold add_findings; simpl; now rewrite app_nil_r.
  - destruct (String.eqb a "warning") eqn:Ew; [|discriminate].
    apply String.eqb_eq in Ew; subst a; right; split; [assumption|].
    injection H as <-; unfold add_findings; simpl; now rewrite app_nil_r.
Qed.

Lemma push_error (r : buckets) (f : finding) :
  push r (VStr "error") f = Ok (add_findings r [f] []).
Proof. unfold push, add_findings; simpl; now rewrite app_nil_r. Qed.

Lemma push_warning (r : buckets) (f : finding) :
  push r (VStr "warning") f = Ok (add_findings r [] [f]).
Proof. unfold push, add_findings; simpl; now rewrite app_nil_r. Qed.

Lemma push_names_no_bucket (r r' : buckets) (s : value) (f : finding) :
  names_no_bucket s -> push r s f <> Ok r'.
Proof.
  intros (_ & He & Hw) H; apply push_Ok in H as [[H _]|[H _]]; contradiction.
Qed.

Lemma value_ind_nested (P : value -> Prop) :
  P VUndefined -> P VNull -> (forall b, P (VBool b)) -> (forall n, P (VNum n)) ->
  (forall s, P (VStr s)) ->
  (forall items, Forall P items -> P (VArr items)) ->
  (forall props, Forall (fun kv => P (snd kv)) props -> P (VObj props)) ->
  forall v, P v.
Proof.
  intros Hu Hn Hb Hz Hs Ha Ho. fix IH 1.
  intros [| |b|n|s|items|props];
    [exact Hu | exact Hn | apply Hb | apply Hz | apply Hs | | ].
  - apply Ha. induction items as [|x items IHitems]; constructor; [apply IH | exact IHitems].
  - apply Ho. induction props as [|[k x] props IHprops]; constructor;
      [apply IH | exact IHprops].
Qed.

Lemma join_with_modelled (element : value -> outcome string) (sep : string)
      (items : list value) :
  Forall (fun x => element x <> Unmodelled) items ->
  forall first, join_with element sep first items <> Unmodelled.
Proof.
  induction 1 as [|x items Hx _ IH]; intros first; [discriminate|].
  cbn [join_with]. fold (join_with element sep). specialize (IH false).
  assert (Hs : forall s : string,
             (t <- join_with element sep false items ;;
              Ok ((if first then EmptyString else sep) ++ s ++ t)) <> Unmodelled).
  { intros s. destruct (join_with element sep false items) as [t| |];
      [discriminate | discriminate | contradiction]. }
  destruct x; cbn [bind]; try apply Hs;
    (destruct (element _) as [u| |]; cbn [bind]; [apply Hs | discriminate | contradiction]).
Qed.

(** [ToString] is modelled on every value. *)
Lemma to_string_modelled (v : value) : to_string v <> Unmodelled.
Proof.
  induction v as [| |b|n|s|items IH|props _] using value_ind_nested;
    cbn [to_string]; try discriminate.
  - destruct b; discriminate.
  - apply join_with_modelled; exact IH.
  - destruct (has_key _ _); discriminate.
Qed.

(** The push under a severity that names no bucket raises. *)
Lemma push_names_no_bucket_raises (r : buckets) (s : value) (f : finding) :
  names_no_bucket s -> push r s f = TypeError.
Proof.
  intros (_ & He & Hw); unfold push.
  pose proof (to_string_modelled s) as Hm.
  destruct (to_string s) as [key| |]; cbn [bind]; [|reflexivity|contradiction].
  destruct (String.eqb key "error") eqn:Ee;
    [apply String.eqb_eq in Ee; subst; contradiction|].
  destruct (String.eqb key "warning") eqn:Ew;
    [apply String.eqb_eq in Ew; subst; contradiction|].
  reflexivity.
Qed.

Lemma is_string_true (v : value) (s : string) : is_string v s = true <-> v = VStr s.
Proof.
  destruct v; simpl; split; intros H; try discriminate.
  - apply String.eqb_eq in H; now subst.
  - injection H as ->; apply String.eqb_refl.
Qed.

Lemma is_string_false (v : value) (s : string) : is_string v s = false <-> v <> VStr s.
Proof.
  rewrite <- is_string_true; destruct (is_string v s); split; congruence.
Qed.

(** ** The checks that push at most one finding *)

Section Checks.

Variables (jsSpec config : value) (pathKey : string) (op : value) (opKey : string).

Lemma guarded_push_intro (key : string) (f : finding) (r r' : buckets) :
  (checkStatus <- member config key ;;
   if negb (is_string checkStatus "off") then push r checkStatus f else Ok r) = Ok r' ->
  guarded_push config key f r r'.
Proof.
  intros H; bind_inv H; exists a; split; [assumption|].
  destruct (is_string a "off") eqn:Eo; simpl in H.
  - left; split; [now apply is_string_true | congruence].
  - right; split; [now apply is_string_false | assumption].
Qed.

Lemma guarded_push_emits (key : string) (f : finding) (r r' : buckets) :
  guarded_push config key f r r' -> emits_only (message f) r r'.
Proof.
  intros (s & _ & [[_ ->]|[_ H]]).
  - exists [], []; rewrite add_findings_nil; repeat split; constructor.
  - apply push_Ok in H as [[_ ->]|[_ ->]].
    + exists [f], []; repeat split; repeat constructor.
    + exists [], [f]; repeat split; repeat constructor.
Qed.

Lemma emits_only_refl (m : string) (r : buckets) : emits_only m r r.
Proof. exists [], []; rewrite add_findings_nil; repeat split; constructor. Qed.

Lemma check_consumes_Ok (r r' : buckets) :
  check_consumes jsSpec config pathKey op opKey r = Ok r' ->
  (r' = r /\
   (includes ["put"; "post"] (toLowerCase opKey) = false \/
    hasLocalConsumes op = Ok true \/ hasGlobalConsumes jsSpec = Ok true)) \/
  (includes ["put"; "post"] (toLowerCase opKey) = true /\
   hasLocalConsumes op = Ok false /\ hasGlobalConsumes jsSpec = Ok false /\
   guarded_push config "no_consumes_for_put_or_post" (consumes_finding pathKey opKey) r r').
Proof.
  unfold check_consumes; intros H.
  destruct (includes _ _); [|left; split; [congruence | now left]].
  bind_inv H; bind_inv H.
  destruct a; simpl in H; [left; split; [congruence | right; now left]|].
  destruct a0; simpl in H; [left; split; [congruence | right; now right]|].
  right; repeat split; try assumption.
  now apply guarded_push_intro.
Qed.

Lemma check_produces_Ok (r r' : buckets) :
  check_produces jsSpec config pathKey op opKey r = Ok r' ->
  (r' = r /\
   (String.eqb (toLowerCase opKey) "head" = true \/
    hasLocalProduces op = Ok true \/ hasGlobalProduces jsSpec = Ok true)) \/
  (String.eqb (toLowerCase opKey) "head" = false /\
   hasLocalProduces op = Ok false /\ hasGlobalProduces jsSpec = Ok false /\
   guarded_push config "no_produces" (produces_finding pathKey opKey) r r').
Proof.
  unfold check_produces; intros H.
  destruct (String.eqb _ _); simpl in H; [left; split; [congruence | now left]|].
  bind_inv H; bind_inv H.
  destruct a; simpl in H; [left; split; [congruence | right; now left]|].
  destruct a0; simpl in H; [left; split; [congruence | right; now right]|].
  right; repeat split; try assumption.
  now apply guarded_push_intro.
Qed.

Lemma check_get_consumes_Ok (r r' : buckets) :
  check_get_consumes config pathKey op opKey r = Ok r' ->
  exists consumes, member op "consumes" = Ok consumes /\
    ((truthy consumes = false /\ r' = r) \/
     (truthy consumes = true /\
      guarded_push config "get_op_has_consumes" (get_consumes_finding pathKey opKey) r r')).
Proof.
  unfold check_get_consumes; intros H; bind_inv H.
  exists a; split; [assumption|].
  destruct (truthy a); [right | left; split; congruence].
  split; [reflexivity | now apply guarded_push_intro].
Qed.

Lemma check_operationId_Ok (r r' : buckets) :
  check_operationId config pathKey op opKey r = Ok r' ->
  (hasOperationId op = Ok true /\ r' = r) \/
  (hasOperationId op = Ok false /\
   guarded_push config "no_operation_id" (operationId_finding pathKey opKey) r r').
Proof.
  unfold check_operationId; intros H; bind_inv H.
  destruct a; simpl in H; [left; split; congruence | right].
  split; [assumption | now apply guarded_push_intro].
Qed.

Lemma check_summary_Ok (r r' : buckets) :
  check_summary config pathKey op opKey r = Ok r' ->
  (hasSummary op = Ok true /\ r' = r) \/
  (hasSummary op = Ok false /\ guarded_push config "no_summary" (summary_finding pathKey opKey) r r').
Proof.
  unfold check_summary; intros H; bind_inv H.
  destruct a; simpl in H; [left; split; congruence | right].
  split; [assumption | now apply guarded_push_intro].
Qed.

End Checks.

(** ** The two checks that loop *)

Lemma emits_only_trans (m : string) (r1 r2 r3 : buckets) :
  emits_only m r1 r2 -> emits_only m r2 r3 -> emits_only m r1 r3.
Proof.
  intros (e1 & w1 & -> & He1 & Hw1) (e2 & w2 & -> & He2 & Hw2).
  exists (e1 ++ e2)%list, (w1 ++ w2)%list; rewrite add_findings_add.
  repeat split; apply Forall_app; split; assumption.
Qed.

Lemma push_emits (r r' : buckets) (s : value) (f : finding) :
  push r s f = Ok r' -> emits_only (message f) r r'.
Proof.
  intros H; apply push_Ok in H as [[_ ->]|[_ ->]].
  - exists [f], []; repeat split; repeat constructor.
  - exists [], [f]; repeat split; repeat constructor.
Qed.

Section Loops.

Variables (jsSpec : value) (pathKey opKey : string).

Lemma check_response_Ok (checkStatus response name : value) (r r' : buckets) :
  check_response jsSpec pathKey opKey checkStatus response name r = Ok r' ->
  r' = r \/
  exists nameText, to_string name = Ok nameText /\
    push r checkStatus (array_response_finding pathKey opKey nameText) = Ok r'.
Proof.
  unfold check_response; intros H; bind_inv H.
  destruct (truthy a); [|left; congruence].
  bind_inv H. destruct (truthy a0); [|left; congruence].
  bind_inv H. destruct (is_string a1 "array"); [|left; congruence].
  bind_inv H. right; exists a2; split; assumption.
Qed.

Lemma each_response_emits (checkStatus : value) (responses : list (value * value))
      (r r' : buckets) :
  each_response jsSpec pathKey opKey checkStatus responses r = Ok r' ->
  emits_only array_response_message r r'.
Proof.
  revert r; induction responses as [|[response name] rest IH]; simpl; intros r H.
  - injection H as <-; apply emits_only_refl.
  - bind_inv H. eapply emits_only_trans; [|apply IH; exact H].
    apply check_response_Ok in E as [->|(nameText & _ & E)].
    + apply emits_only_refl.
    + apply push_emits in E; exact E.
Qed.

(** Under a severity that names no bucket the loop returns only when it
    never pushes, and it then returns the same under any severity. *)
Lemma each_response_no_bucket (checkStatus : value) (responses : list (value * value))
      (r r' : buckets) :
  names_no_bucket checkStatus ->
  each_response jsSpec pathKey opKey checkStatus responses r = Ok r' ->
  r' = r /\
  forall s, each_response jsSpec pathKey opKey s responses r = Ok r.
Proof.
  intros Hbad; induction responses as [|[response name] rest IH]; simpl; intros H.
  - injection H as <-; split; reflexivity.
  - bind_inv H.
    assert (a = r /\ forall s, check_response jsSpec pathKey opKey s response name r = Ok r)
      as [-> Hs].
    { unfold check_response in *. bind_inv E. rewrite E0; simpl.
      destruct (truthy a0); [|split; congruence].
      bind_inv E. rewrite E1; simpl.
      destruct (truthy a1); [|split; congruence].
      bind_inv E. rewrite E2; simpl.
      destruct (is_string a2 "array"); [|split; congruence].
      bind_inv E. exfalso; eapply push_names_no_bucket; eassumption. }
    destruct (IH H) as [-> IH']; split; [reflexivity|].
    intros s; rewrite Hs; simpl; apply IH'.
Qed.

Lemma parameter_step_Ok (checkStatus parameters : value) (indx : nat) (firstOptional : Z)
      (r : buckets) (next : Z * buckets) :
  parameter_step jsSpec pathKey opKey checkStatus parameters indx firstOptional r = Ok next ->
  snd next = r \/
  push r checkStatus (parameter_order_finding pathKey opKey indx) = Ok (snd next).
Proof.
  unfold parameter_step; intros H; bind_inv H; bind_inv H.
  destruct (firstOptional <? 0)%Z; bind_inv H.
  - destruct (truthy a1); simpl in H; injection H as <-; now left.
  - destruct (truthy a1); simpl in H.
    + bind_inv H; injection H as <-; now right.
    + injection H as <-; now left.
Qed.

Lemma parameter_loop_emits (checkStatus parameters : value) (indices : list nat)
      (firstOptional : Z) (r r' : buckets) :
  parameter_loop jsSpec pathKey opKey checkStatus parameters indices firstOptional r = Ok r' ->
  emits_only parameter_order_message r r'.
Proof.
  revert firstOptional r; induction indices as [|indx rest IH]; simpl; intros fo r H.
  - injection H as <-; apply emits_only_refl.
  - bind_inv H. eapply emits_only_trans; [|eapply IH; exact H].
    apply parameter_step_Ok in E as [->|E].
    + apply emits_only_refl.
    + apply push_emits in E; exact E.
Qed.

Lemma parameter_loop_no_bucket (checkStatus parameters : value) (indices : list nat)
      (firstOptional : Z) (r r' : buckets) :
  names_no_bucket checkStatus ->
  parameter_loop jsSpec pathKey opKey checkStatus parameters indices firstOptional r = Ok r' ->
  r' = r /\
  forall s, parameter_loop jsSpec pathKey opKey s parameters indices firstOptional r = Ok r.
Proof.
  intros Hbad; revert firstOptional; induction indices as [|indx rest IH]; simpl; intros fo H.
  - injection H as <-; split; reflexivity.
  - bind_inv H.
    assert (exists fo', a = (fo', r) /\
            forall s, parameter_step jsSpec pathKey opKey s parameters indx fo r = Ok (fo', r))
      as (fo' & -> & Hs).
    { unfold parameter_step in *. bind_inv E; rewrite E0; simpl.
      bind_inv E; rewrite E1; simpl.
      destruct (fo <? 0)%Z; bind_inv E; rewrite E2; simpl.
      - destruct (truthy a2); simpl in *; injection E as <-; eexists; split; reflexivity.
      - destruct (truthy a2); simpl in *.
        + bind_inv E. exfalso; eapply push_names_no_bucket; eassumption.
        + injection E as <-; eexists; split; reflexivity. }
    simpl in H. destruct (IH _ H) as [-> IH']; split; [reflexivity|].
    intros s; rewrite Hs; simpl; apply IH'.
Qed.

End Loops.

(** ** One operation: the checks in sequence *)

Section Visit.

Variables (jsSpec config : value) (pathKey : string) (op : value) (opKey : string).

Lemma check_get_Ok (r r' : buckets) :
  check_get jsSpec config pathKey op opKey r = Ok r' ->
  (String.eqb (toLowerCase opKey) "get" = false /\ r' = r) \/
  (String.eqb (toLowerCase opKey) "get" = true /\
   exists ra, check_get_consumes config pathKey op opKey r = Ok ra /\
              check_array_responses jsSpec config pathKey op opKey ra = Ok r').
Proof.
  unfold check_get; intros H.
  destruct (String.eqb _ _); simpl in H; [right | left; split; congruence].
  bind_inv H; split; [reflexivity|]; exists a; split; assumption.
Qed.

Lemma visit_operation_Ok (r r' : buckets) :
  visit_operation jsSpec config pathKey op opKey r = Ok r' ->
  (member op "x-sdk-exclude" = Ok (VBool true) /\ r' = r) \/
  (exists excluded, member op "x-sdk-exclude" = Ok excluded /\ is_true excluded = false) /\
  exists r1 r2 r3 r4 r5,
    check_consumes jsSpec config pathKey op opKey r = Ok r1 /\
    check_produces jsSpec config pathKey op opKey r1 = Ok r2 /\
    check_get jsSpec config pathKey op opKey r2 = Ok r3 /\
    check_operationId config pathKey op opKey r3 = Ok r4 /\
    check_summary config pathKey op opKey r4 = Ok r5 /\
    check_parameter_order jsSpec config pathKey op opKey r5 = Ok r'.
Proof.
  unfold visit_operation; intros H; bind_inv H.
  destruct (is_true a) eqn:Ex.
  - left; split; [|congruence].
    destruct a as [| |[|]| | | |]; try discriminate; assumption.
  - right; split; [exists a; split; assumption|].
    bind_inv H; bind_inv H; bind_inv H; bind_inv H; bind_inv H.
    exists a0, a1, a2, a3, a4; repeat split; assumption.
Qed.

Lemma check_consumes_emits (r r' : buckets) :
  check_consumes jsSpec config pathKey op opKey r = Ok r' ->
  emits_only consumes_message r r'.
Proof.
  intros H; apply check_consumes_Ok in H as [[-> _]|(_ & _ & _ & H)].
  - apply emits_only_refl.
  - apply guarded_push_emits in H; exact H.
Qed.

Lemma check_produces_emits (r r' : buckets) :
  check_produces jsSpec config pathKey op opKey r = Ok r' ->
  emits_only produces_message r r'.
Proof.
  intros H; apply check_produces_Ok in H as [[-> _]|(_ & _ & _ & H)].
  - apply emits_only_refl.
  - apply guarded_push_emits in H; exact H.
Qed.

Lemma check_get_consumes_emits (r r' : buckets) :
  check_get_consumes config pathKey op opKey r = Ok r' ->
  emits_only get_consumes_message r r'.
Proof.
  intros H; apply check_get_consumes_Ok in H as (c & _ & [[_ ->]|[_ H]]).
  - apply emits_only_refl.
  - apply guarded_push_emits in H; exact H.
Qed.

Lemma check_array_responses_emits (r r' : buckets) :
  check_array_responses jsSpec config pathKey op opKey r = Ok r' ->
  emits_only array_response_message r r'.
Proof.
  unfold check_array_responses; intros H; bind_inv H.
  destruct (is_string a "off"); simpl in H.
  - injection H as <-; apply emits_only_refl.
  - bind_inv H; eapply each_response_emits; exact H.
Qed.

Lemma check_operationId_emits (r r' : buckets) :
  check_operationId config pathKey op opKey r = Ok r' ->
  emits_only operationId_message r r'.
Proof.
  intros H; apply check_operationId_Ok in H as [[_ ->]|[_ H]].
  - apply emits_only_refl.
  - apply guarded_push_emits in H; exact H.
Qed.

Lemma check_summary_emits (r r' : buckets) :
  check_summary config pathKey op opKey r = Ok r' ->
  emits_only summary_message r r'.
Proof.
  intros H; apply check_summary_Ok in H as [[_ ->]|[_ H]].
  - apply emits_only_refl.
  - apply guarded_push_emits in H; exact H.
Qed.

Lemma check_parameter_order_emits (r r' : buckets) :
  check_parameter_order jsSpec config pathKey op opKey r = Ok r' ->
  emits_only parameter_order_message r r'.
Proof.
  unfold check_parameter_order; intros H; bind_inv H.
  destruct (is_string a "off"); simpl in H; [injection H as <-; apply emits_only_refl|].
  bind_inv H. destruct (truthy a0); [|injection H as <-; apply emits_only_refl].
  bind_inv H; bind_inv H.
  destruct a2; [|injection H as <-; apply emits_only_refl].
  bind_inv H; eapply parameter_loop_emits; exact H.
Qed.

(** What one visit adds, check by check, in the order of the code. *)
Lemma visit_operation_blocks (r r' : buckets) :
  visit_operation jsSpec config pathKey op opKey r = Ok r' ->
  exists e1 w1 e3 w3 e2 w2 e6 w6 e4 w4 e5 w5 e7 w7,
    r' = add_findings r (e1 ++ e3 ++ e2 ++ e6 ++ e4 ++ e5 ++ e7)%list
                        (w1 ++ w3 ++ w2 ++ w6 ++ w4 ++ w5 ++ w7)%list /\
    Forall (fun f => message f = consumes_message) (e1 ++ w1)%list /\
    Forall (fun f => message f = produces_message) (e3 ++ w3)%list /\
    Forall (fun f => message f = get_consumes_message) (e2 ++ w2)%list /\
    Forall (fun f => message f = array_response_message) (e6 ++ w6)%list /\
    Forall (fun f => message f = operationId_message) (e4 ++ w4)%list /\
    Forall (fun f => message f = summary_message) (e5 ++ w5)%list /\
    Forall (fun f => message f = parameter_order_message) (e7 ++ w7)%list.
Proof.
  intros H; apply visit_operation_Ok in H as [[_ ->]|[_ H]].
  - exists [], [], [], [], [], [], [], [], [], [], [], [], [], []; simpl.
    rewrite add_findings_nil; repeat split; constructor.
  - destruct H as (r1 & r2 & r3 & r4 & r5 & H1 & H2 & H3 & H4 & H5 & H7).
    apply check_consumes_emits in H1 as (e1 & w1 & -> & He1 & Hw1).
    apply check_produces_emits in H2 as (e3 & w3 & -> & He3 & Hw3).
    apply check_operationId_emits in H4 as (e4 & w4 & -> & He4 & Hw4).
    apply check_summary_emits in H5 as (e5 & w5 & -> & He5 & Hw5).
    apply check_parameter_order_emits in H7 as (e7 & w7 & -> & He7 & Hw7).
    assert (exists e2 w2 e6 w6,
               r3 = add_findings (add_findings r (e1 ++ e3)%list (w1 ++ w3)%list)
                                 (e2 ++ e6)%list (w2 ++ w6)%list /\
               Forall (fun f => message f = get_consumes_message) (e2 ++ w2)%list /\
               Forall (fun f => message f = array_response_message) (e6 ++ w6)%list)
      as (e2 & w2 & e6 & w6 & -> & H2' & H6').
    { rewrite add_findings_add in H3.
      apply check_get_Ok in H3 as [[_ ->]|(_ & ra & Ha & Hb)].
      - exists [], [], [], []; simpl; rewrite add_findings_nil; repeat split; constructor.
      - apply check_get_consumes_emits in Ha as (e2 & w2 & -> & He2 & Hw2).
        apply check_array_responses_emits in Hb as (e6 & w6 & -> & He6 & Hw6).
        exists e2, w2, e6, w6; rewrite add_findings_add.
        repeat split; apply Forall_app; split; assumption. }
    exists e1, w1, e3, w3, e2, w2, e6, w6, e4, w4, e5, w5, e7, w7.
    rewrite !add_findings_add, <- !app_assoc.
    repeat split; try assumption; apply Forall_app; split; assumption.
Qed.

End Visit.

(** ** The sequence of the findings of one operation *)

Lemma rule_of_message (f : finding) (k : rule) :
  message f = rule_message k -> rule_of f = Some k.
Proof.
  intros H; unfold rule_of; rewrite H; destruct k; reflexivity.
Qed.

Section Sequence.

Variable position : rule -> nat.

(** A block of findings of the rule [k] in front of findings of rules
    that are not before [k]. *)
Lemma sequence_block (k : rule) (n : nat) (block rest : list finding) :
  position k <= n ->
  Forall (fun f => message f = rule_message k) block ->
  keeps_sequence position rest ->
  Forall (fun f => exists a, rule_of f = Some a /\ n <= position a) rest ->
  keeps_sequence position (block ++ rest)%list /\
  Forall (fun f => exists a, rule_of f = Some a /\ position k <= position a)
         (block ++ rest)%list.
Proof.
  intros Hn Hblock Hrest Hafter.
  induction Hblock as [|f block Hf _ [IHs IHb]]; simpl.
  - split; [exact Hrest|].
    eapply Forall_impl; [|exact Hafter].
    intros f (a & Ha & Hle); exists a; split; [assumption | lia].
  - apply rule_of_message in Hf. split.
    + constructor; [exact IHs|].
      eapply Forall_impl; [|exact IHb].
      intros g (b & Hb & Hle); exists k, b; repeat split; assumption.
    + constructor; [exists k; split; [assumption | lia] | exact IHb].
Qed.

End Sequence.

(** C2, as the code has it: the findings that one operation adds to a
    bucket stand in the order in which the callback runs the checks, which
    is R1, R3, R2, R6, R4, R5, R7. *)
Theorem findings_follow_emission_order :
  forall (jsSpec config : value) (pathKey : string) (op : value) (opKey : string)
         (r r' : buckets),
    visit_operation jsSpec config pathKey op opKey r = Ok r' ->
    exists es ws,
      r' = add_findings r es ws /\
      keeps_sequence emission_position es /\ keeps_sequence emission_position ws.
Proof.
  intros jsSpec config pathKey op opKey r r' H.
  apply visit_operation_blocks in H
    as (e1 & w1 & e3 & w3 & e2 & w2 & e6 & w6 & e4 & w4 & e5 & w5 & e7 & w7 & -> &
        H1 & H3 & H2 & H6 & H4 & H5 & H7).
  apply Forall_app in H1 as [He1 Hw1]. apply Forall_app in H2 as [He2 Hw2].
  apply Forall_app in H3 as [He3 Hw3]. apply Forall_app in H4 as [He4 Hw4].
  apply Forall_app in H5 as [He5 Hw5]. apply Forall_app in H6 as [He6 Hw6].
  apply Forall_app in H7 as [He7 Hw7].
  assert (Hchain : forall b1 b3 b2 b6 b4 b5 b7,
             Forall (fun f => message f = rule_message R1_consumes_required) b1 ->
             Forall (fun f => message f = rule_message R3_produces_required) b3 ->
             Forall (fun f => message f = rule_message R2_consumes_forbidden) b2 ->
             Forall (fun f => message f = rule_message R6_no_array_response) b6 ->
             Forall (fun f => message f = rule_message R4_operationId_required) b4 ->
             Forall (fun f => message f = rule_message R5_summary_required) b5 ->
             Forall (fun f => message f = rule_message R7_parameter_order) b7 ->
             keeps_sequence emission_position (b1 ++ b3 ++ b2 ++ b6 ++ b4 ++ b5 ++ b7)%list).
  { intros b1 b3 b2 b6 b4 b5 b7 B1 B3 B2 B6 B4 B5 B7.
    destruct (sequence_block emission_position R7_parameter_order 7 b7 []
                             ltac:(simpl; lia) B7 ltac:(constructor) ltac:(constructor))
      as [S7 A7].
    rewrite app_nil_r in S7, A7.
    destruct (sequence_block emission_position R5_summary_required (emission_position R7_parameter_order) b5 _
                             ltac:(simpl; lia) B5 S7 A7) as [S5 A5].
    destruct (sequence_block emission_position R4_operationId_required (emission_position R5_summary_required) b4 _
                             ltac:(simpl; lia) B4 S5 A5) as [S4 A4].
    destruct (sequence_block emission_position R6_no_array_response (emission_position R4_operationId_required) b6 _
                             ltac:(simpl; lia) B6 S4 A4) as [S6 A6].
    destruct (sequence_block emission_position R2_consumes_forbidden (emission_position R6_no_array_response) b2 _
                             ltac:(simpl; lia) B2 S6 A6) as [S2 A2].
    destruct (sequence_block emission_position R3_produces_required (emission_position R2_consumes_forbidden) b3 _
                             ltac:(simpl; lia) B3 S2 A2) as [S3 A3].
    destruct (sequence_block emission_position R1_consumes_required (emission_position R3_produces_required) b1 _
                             ltac:(simpl; lia) B1 S3 A3) as [S1 _].
    exact S1. }
  eexists _, _; split; [reflexivity|]; split; apply Hchain; assumption.
Qed.

(** The order R1, R2, ..., R7 fails: a GET operation with a [consumes] and
    no [produces] gets its R3 finding in front of its R2 finding. *)
Lemma numbered_order_counterexample :
  let op := VObj [("consumes", VArr [VStr "text/plain"]); ("operationId", VStr "list");
                  ("summary", VStr "List")] in
  validate (document_with [("/pets", VObj [("get", op)])]) (config_with all_errors)
  = Ok {| errors := [produces_finding "/pets" "get"; get_consumes_finding "/pets" "get"];
          warnings := [] |} /\
  ~ keeps_sequence numbered_position
      [produces_finding "/pets" "get"; get_consumes_finding "/pets" "get"].
Proof.
  split; [vm_compute; reflexivity|].
  intros H; inversion H as [|f l _ Hall]; subst.
  inversion Hall as [|g l' (a & b & Ha & Hb & Hle) _]; subst.
  vm_compute in Ha, Hb. injection Ha as <-; injection Hb as <-.
  simpl in Hle; lia.
Qed.

Lemma findings_follow_emission_order_witness :
  let op := VObj [("consumes", VArr [VStr "text/plain"])] in
  exists es ws,
    {| error := [produces_finding "/pets" "get"; get_consumes_finding "/pets" "get"];
       warning := [summary_finding "/pets" "get"] |}
    = add_findings empty_buckets es ws /\
    keeps_sequence emission_position es /\ keeps_sequence emission_position ws.
Proof.
  intros op.
  apply (findings_follow_emission_order
           (VObj [("paths", VObj [("/pets", VObj [("get", op)])])])
           (severities (VStr "off") (VStr "error") (VStr "error") (VStr "off")
                       (VStr "warning") (VStr "error") (VStr "error"))
           "/pets" op "get" empty_buckets).
  vm_compute; reflexivity.
Defined.

(** ** The callback as the rules in sequence *)

Lemma rule_message_inj (a b : rule) : rule_message a = rule_message b -> a = b.
Proof.
  intros H.
  pose proof (rule_of_message {| path := EmptyString; message := rule_message a |} a eq_refl) as Ha.
  pose proof (rule_of_message {| path := EmptyString; message := rule_message a |} b H) as Hb.
  congruence.
Qed.

Lemma with_message_app (m : string) (l1 l2 : list finding) :
  with_message m (l1 ++ l2)%list = (with_message m l1 ++ with_message m l2)%list.
Proof. apply filter_app. Qed.

Lemma with_message_same (m : string) (l : list finding) :
  Forall (fun f => message f = m) l -> with_message m l = l.
Proof.
  induction 1 as [|f l Hf _ IH]; simpl; [reflexivity|].
  rewrite Hf, String.eqb_refl, IH; reflexivity.
Qed.

Lemma with_message_other (m m' : string) (l : list finding) :
  m' <> m -> Forall (fun f => message f = m') l -> with_message m l = [].
Proof.
  intros Hne; induction 1 as [|f l Hf _ IH]; simpl; [reflexivity|].
  rewrite Hf. destruct (String.eqb m' m) eqn:E; [apply String.eqb_eq in E; contradiction|].
  exact IH.
Qed.

Lemma adds_refl (m : string) (r : buckets) : adds m [] [] r r.
Proof. exists [], []; rewrite add_findings_nil; repeat split. Qed.

Lemma adds_trans (m : string) (e1 w1 e2 w2 : list finding) (r1 r2 r3 : buckets) :
  adds m e1 w1 r1 r2 -> adds m e2 w2 r2 r3 -> adds m (e1 ++ e2)%list (w1 ++ w2)%list r1 r3.
Proof.
  intros (es1 & ws1 & -> & <- & <-) (es2 & ws2 & -> & <- & <-).
  exists (es1 ++ es2)%list, (ws1 ++ ws2)%list.
  rewrite add_findings_add, !with_message_app; repeat split.
Qed.

Lemma emits_only_adds_nothing (m m' : string) (r r' : buckets) :
  m' <> m -> emits_only m' r r' -> adds m [] [] r r'.
Proof.
  intros Hne (es & ws & -> & He & Hw); exists es, ws.
  repeat split; eapply with_message_other; eassumption.
Qed.

Lemma emits_only_adds (m : string) (es ws : list finding) (r : buckets) :
  Forall (fun f => message f = m) es -> Forall (fun f => message f = m) ws ->
  adds m es ws r (add_findings r es ws).
Proof.
  intros He Hw; exists es, ws; repeat split; now apply with_message_same.
Qed.

Section Rules_in_sequence.

Variables (jsSpec config : value) (pathKey : string) (op : value) (opKey : string).

Lemma visit_operation_run_rules (r : buckets) :
  visit_operation jsSpec config pathKey op opKey r
  = (excluded <- member op "x-sdk-exclude" ;;
     if is_true excluded then Ok r
     else run_rules jsSpec config pathKey op opKey emission_order r).
Proof.
  unfold visit_operation, emission_order; simpl.
  destruct (member op "x-sdk-exclude") as [excluded| |]; simpl; try reflexivity.
  destruct (is_true excluded); [reflexivity|].
  destruct (check_consumes _ _ _ _ _ r) as [r1| |]; simpl; try reflexivity.
  destruct (check_produces _ _ _ _ _ r1) as [r2| |]; simpl; try reflexivity.
  unfold check_get. destruct (String.eqb (toLowerCase opKey) "get"); simpl.
  - destruct (check_get_consumes _ _ _ _ r2) as [ra| |]; simpl; try reflexivity.
    destruct (check_array_responses _ _ _ _ _ ra) as [r3| |]; simpl; try reflexivity.
    destruct (check_operationId _ _ _ _ r3) as [r4| |]; simpl; try reflexivity.
    destruct (check_summary _ _ _ _ r4) as [r5| |]; simpl; try reflexivity.
    destruct (check_parameter_order _ _ _ _ _ r5); reflexivity.
  - destruct (check_operationId _ _ _ _ r2) as [r4| |]; simpl; try reflexivity.
    destruct (check_summary _ _ _ _ r4) as [r5| |]; simpl; try reflexivity.
    destruct (check_parameter_order _ _ _ _ _ r5); reflexivity.
Qed.

Lemma run_rule_emits (k : rule) (r r' : buckets) :
  run_rule jsSpec config pathKey op opKey k r = Ok r' ->
  emits_only (rule_message k) r r'.
Proof.
  destruct k; simpl; intros H.
  - eapply check_consumes_emits; exact H.
  - destruct (String.eqb _ _); [|injection H as <-; apply emits_only_refl].
    eapply check_get_consumes_emits; exact H.
  - eapply check_produces_emits; exact H.
  - eapply check_operationId_emits; exact H.
  - eapply check_summary_emits; exact H.
  - destruct (String.eqb _ _); [|injection H as <-; apply emits_only_refl].
    eapply check_array_responses_emits; exact H.
  - eapply check_parameter_order_emits; exact H.
Qed.

Lemma run_rules_app (ks1 ks2 : list rule) (r r' : buckets) :
  run_rules jsSpec config pathKey op opKey (ks1 ++ ks2) r = Ok r' ->
  exists rm, run_rules jsSpec config pathKey op opKey ks1 r = Ok rm /\
             run_rules jsSpec config pathKey op opKey ks2 rm = Ok r'.
Proof.
  revert r; induction ks1 as [|k ks1 IH]; simpl; intros r H.
  - exists r; split; [reflexivity | exact H].
  - bind_inv H. destruct (IH _ H) as (rm & H1 & H2).
    exists rm; split; [rewrite E; simpl; exact H1 | exact H2].
Qed.

(** Rules other than [k] add nothing that carries the message of [k]. *)
Lemma run_rules_others (k : rule) (ks : list rule) (r r' : buckets) :
  ~ In k ks ->
  run_rules jsSpec config pathKey op opKey ks r = Ok r' ->
  adds (rule_message k) [] [] r r'.
Proof.
  revert r; induction ks as [|k' ks IH]; simpl; intros r Hnot H.
  - injection H as <-; apply adds_refl.
  - bind_inv H.
    apply (adds_trans _ [] [] [] [] r a r').
    + eapply emits_only_adds_nothing; [|eapply run_rule_emits; exact E].
      intros Hm; apply rule_message_inj in Hm; subst k'; apply Hnot; now left.
    + apply IH; [|exact H]. intros Hin; apply Hnot; now right.
Qed.

(** A visit that is not skipped runs the part of each rule once, and
    what the visit adds under the message of the rule is what that part
    adds. *)
Lemma visit_operation_rule (k : rule) (r r' : buckets) :
  visit_operation jsSpec config pathKey op opKey r = Ok r' ->
  member op "x-sdk-exclude" <> Ok (VBool true) ->
  exists ra rb,
    run_rule jsSpec config pathKey op opKey k ra = Ok rb /\
    forall es ws, adds (rule_message k) es ws ra rb -> adds (rule_message k) es ws r r'.
Proof.
  rewrite visit_operation_run_rules; intros H Hex; bind_inv H.
  destruct (is_true a) eqn:Et.
  { destruct a as [| |[|]| | | |]; try discriminate; contradiction. }
  assert (exists before after,
             emission_order = (before ++ k :: after)%list /\
             ~ In k before /\ ~ In k after) as (before & after & Hsplit & Hb & Ha).
  { destruct k;
      [exists [], (tl emission_order)
      |exists (firstn 2 emission_order), (skipn 3 emission_order)
      |exists (firstn 1 emission_order), (skipn 2 emission_order)
      |exists (firstn 4 emission_order), (skipn 5 emission_order)
      |exists (firstn 5 emission_order), (skipn 6 emission_order)
      |exists (firstn 3 emission_order), (skipn 4 emission_order)
      |exists (firstn 6 emission_order), (skipn 7 emission_order)];
      (split; [reflexivity|]); simpl; split; intros Hin;
      repeat (destruct Hin as [Hin|Hin]; [discriminate|]); exact Hin. }
  rewrite Hsplit in H. apply run_rules_app in H as (ra & H1 & H2).
  simpl in H2; bind_inv H2. exists ra, a0; split; [exact E0|].
  intros es ws Hk.
  apply (run_rules_others k) in H1; [|exact Hb].
  apply (run_rules_others k) in H2; [|exact Ha].
  pose proof (adds_trans _ _ _ _ _ _ _ _ (adds_trans _ _ _ _ _ _ _ _ H1 Hk) H2) as Hall.
  simpl in Hall; rewrite !app_nil_r in Hall; exact Hall.
Qed.

End Rules_in_sequence.

(** ** The visits within a call *)

Lemma map_entries_Ok (collection : value) (pairs : list (value * value)) :
  map_entries collection = Ok pairs -> pairs = entries collection.
Proof.
  unfold map_entries; destruct collection as [| | | | | |props]; try congruence.
  destruct (assoc "length" props) as [[| | |n| | |]|]; try congruence.
  destruct (_ && _); [discriminate | congruence].
Qed.

Lemma extends_refl (r : buckets) : extends r r.
Proof. exists [], []; now rewrite add_findings_nil. Qed.

Lemma extends_trans (r1 r2 r3 : buckets) : extends r1 r2 -> extends r2 r3 -> extends r1 r3.
Proof.
  intros (e1 & w1 & ->) (e2 & w2 & ->); rewrite add_findings_add; eexists _, _; reflexivity.
Qed.

Lemma visit_operation_extends (jsSpec config : value) (pathKey : string) (op : value)
      (opKey : string) (r r' : buckets) :
  visit_operation jsSpec config pathKey op opKey r = Ok r' -> extends r r'.
Proof.
  intros H; apply visit_operation_blocks in H.
  destruct H as (e1 & w1 & e3 & w3 & e2 & w2 & e6 & w6 & e4 & w4 & e5 & w5 & e7 & w7 & -> & _).
  eexists _, _; reflexivity.
Qed.

Lemma each_operation_extends (jsSpec config : value) (pathKey : string)
      (pathOps : list (string * value)) (r r' : buckets) :
  each_operation jsSpec config pathKey pathOps r = Ok r' -> extends r r'.
Proof.
  revert r; induction pathOps as [|[opKey op] rest IH]; simpl; intros r H.
  - injection H as <-; apply extends_refl.
  - bind_inv H. eapply extends_trans; [eapply visit_operation_extends; exact E | now apply IH].
Qed.

Lemma visit_path_extends (jsSpec config path pathKey : value) (r r' : buckets) :
  visit_path jsSpec config path pathKey r = Ok r' -> extends r r'.
Proof.
  unfold visit_path; destruct pathKey; try discriminate.
  destruct (String.eqb _ _); intros H.
  - injection H as <-; apply extends_refl.
  - eapply each_operation_extends; exact H.
Qed.

Lemma map_paths_extends (jsSpec config : value) (paths : list (value * value))
      (r r' : buckets) :
  map_paths jsSpec config paths r = Ok r' -> extends r r'.
Proof.
  revert r; induction paths as [|[path pathKey] rest IH]; simpl; intros r H.
  - injection H as <-; apply extends_refl.
  - bind_inv H. eapply extends_trans; [eapply visit_path_extends; exact E | now apply IH].
Qed.

Lemma each_operation_visits (jsSpec config : value) (pathKey : string)
      (pathOps : list (string * value)) (opKey : string) (op : value) (r0 r1 : buckets) :
  each_operation jsSpec config pathKey pathOps r0 = Ok r1 ->
  In (opKey, op) pathOps ->
  exists r r',
    visit_operation jsSpec config pathKey op opKey r = Ok r' /\
    extends r0 r /\ extends r' r1.
Proof.
  revert r0; induction pathOps as [|[opKey' op'] rest IH]; simpl; intros r0 H Hin;
    [contradiction|].
  bind_inv H. destruct Hin as [Heq|Hin].
  - injection Heq as -> ->. exists r0, a; repeat split; try assumption.
    + apply extends_refl.
    + eapply each_operation_extends; exact H.
  - destruct (IH _ H Hin) as (r & r' & Hv & H0 & H1).
    exists r, r'; repeat split; try assumption.
    eapply extends_trans; [eapply visit_operation_extends; exact E | exact H0].
Qed.

Lemma map_paths_visits (jsSpec config : value) (paths : list (value * value))
      (path : value) (pathKey opKey : string) (op : value) (r0 r1 : buckets) :
  map_paths jsSpec config paths r0 = Ok r1 ->
  In (path, VStr pathKey) paths ->
  String.substring 0 2 pathKey <> "x-" ->
  In (opKey, op) (pick path method_keys) ->
  exists r r',
    visit_operation jsSpec config pathKey op opKey r = Ok r' /\
    extends r0 r /\ extends r' r1.
Proof.
  intros H Hin Hx Hop; revert r0 H.
  induction paths as [|[path' key'] rest IH]; simpl; intros r0 H; [contradiction|].
  bind_inv H. destruct Hin as [Heq|Hin].
  - injection Heq as -> ->. unfold visit_path in E.
    destruct (String.eqb _ _) eqn:Ex; [apply String.eqb_eq in Ex; contradiction|].
    destruct (each_operation_visits _ _ _ _ _ _ _ _ E Hop) as (r & r' & Hv & H0 & H1).
    exists r, r'; repeat split; try assumption.
    eapply extends_trans; [exact H1 | eapply map_paths_extends; exact H].
  - destruct (IH Hin _ H) as (r & r' & Hv & H0 & H1).
    exists r, r'; repeat split; try assumption.
    eapply extends_trans; [eapply visit_path_extends; exact E | exact H0].
Qed.

(** A call that returns has visited every operation of every path that is
    not an extension, each visit starting from what the visits before it
    left and adding to it; what the call returns is what the last visit
    left. *)
Lemma validate_visits (arg config jsSpec operations paths path : value)
      (pathKey opKey : string) (op : value) (rep : report) :
  validate arg config = Ok rep ->
  member arg "jsSpec" = Ok jsSpec ->
  member config "operations" = Ok operations ->
  member jsSpec "paths" = Ok paths ->
  In (path, VStr pathKey) (entries paths) ->
  String.substring 0 2 pathKey <> "x-" ->
  In (opKey, op) (pick path method_keys) ->
  exists r r',
    visit_operation jsSpec operations pathKey op opKey r = Ok r' /\
    extends empty_buckets r /\
    extends r' {| error := errors rep; warning := warnings rep |}.
Proof.
  intros H Hj Hc Hp Hin Hx Hop. unfold validate in H.
  rewrite Hj in H; cbn [bind] in H. rewrite Hc in H; cbn [bind] in H.
  rewrite Hp in H; cbn [bind] in H. bind_inv H. bind_inv H. injection H as <-.
  apply map_entries_Ok in E; subst a.
  destruct (map_paths_visits _ _ _ _ _ _ _ _ _ E0 Hin Hx Hop) as (r & r' & Hv & H0 & H1).
  exists r, r'; repeat split; try assumption.
  destruct a0; exact H1.
Qed.

(** ** R3, R1 and R2 on one operation *)

Lemma visit_operation_skipped_or_not (jsSpec config : value) (pathKey : string) (op : value)
      (opKey : string) (r r' : buckets) :
  visit_operation jsSpec config pathKey op opKey r = Ok r' ->
  r' = r \/ member op "x-sdk-exclude" <> Ok (VBool true).
Proof.
  intros H; apply visit_operation_Ok in H as [[_ ->]|[(excluded & E & Ht) _]].
  - now left.
  - right; rewrite E; intros Heq; injection Heq as ->; discriminate.
Qed.

Lemma add_to_nil (severity : string) (r : buckets) : add_to severity r [] = r.
Proof. unfold add_to; destruct (String.eqb _ _); apply add_findings_nil. Qed.

Lemma add_to_app (severity : string) (r : buckets) (fs gs : list finding) :
  add_to severity (add_to severity r fs) gs = add_to severity r (fs ++ gs)%list.
Proof.
  unfold add_to; destruct (String.eqb _ _); rewrite add_findings_add; reflexivity.
Qed.

Lemma push_severity (severity : string) (r : buckets) (f : finding) :
  severity = "error" \/ severity = "warning" ->
  push r (VStr severity) f = Ok (add_to severity r [f]).
Proof. intros [-> | ->]; [apply push_error | apply push_warning]. Qed.

Lemma toLowerCase_method (opKey : string) : In opKey method_keys -> toLowerCase opKey = opKey.
Proof.
  intros H; simpl in H.
  repeat (destruct H as [<-|H]; [reflexivity|]); contradiction.
Qed.

(** C9: on a HEAD operation the R3 check returns without a finding,
    whatever [produces] the operation or the document has, and no R3
    finding is among those that the visit of the operation adds. *)
Theorem head_operation_has_no_produces_finding :
  forall (jsSpec config : value) (pathKey : string) (op : value) (r : buckets),
    check_produces jsSpec config pathKey op "head" r = Ok r /\
    forall r', visit_operation jsSpec config pathKey op "head" r = Ok r' ->
               adds produces_message [] [] r r'.
Proof.
  intros jsSpec config pathKey op r; split; [reflexivity|].
  intros r' H.
  destruct (visit_operation_skipped_or_not _ _ _ _ _ _ _ H) as [->|Hex];
    [apply adds_refl|].
  destruct (visit_operation_rule _ _ _ _ _ R3_produces_required _ _ H Hex)
    as (ra & rb & Hk & Hadds).
  apply Hadds. simpl in Hk. unfold check_produces in Hk; simpl in Hk.
  injection Hk as <-; apply adds_refl.
Qed.

Lemma head_operation_has_no_produces_finding_witness :
  adds produces_message [] []
       empty_buckets
       {| error := [operationId_finding "/pets" "head"; summary_finding "/pets" "head"];
          warning := [] |}.
Proof.
  apply (proj2 (head_operation_has_no_produces_finding
                  (VObj [("paths", VObj [("/pets", VObj [("head", VObj [])])])])
                  all_errors "/pets" (VObj []) empty_buckets)).
  vm_compute; reflexivity.
Defined.

(** What lines 71 and 72 compute on the shapes a document has. *)
Lemma hasLocalConsumes_absent (props : list (string * value)) :
  assoc "consumes" props = None -> hasLocalConsumes (VObj props) = Ok false.
Proof. unfold hasLocalConsumes; simpl; intros ->; reflexivity. Qed.

Lemma hasLocalConsumes_array (props : list (string * value)) (items : list value)
      (text : string) :
  assoc "consumes" props = Some (VArr items) ->
  join EmptyString items = Ok text ->
  hasLocalConsumes (VObj props) = Ok (negb (is_empty (trim text))).
Proof.
  unfold hasLocalConsumes; simpl; intros -> Hj; simpl.
  unfold has_joined_text, gt_zero; simpl.
  destruct items as [|x items]; simpl.
  - injection Hj as <-; reflexivity.
  - rewrite Hj; reflexivity.
Qed.

Lemma hasGlobalConsumes_absent (props : list (string * value)) :
  assoc "consumes" props = None -> hasGlobalConsumes (VObj props) = Ok false.
Proof. unfold hasGlobalConsumes; simpl; intros ->; reflexivity. Qed.

Lemma add_to_adds (severity : string) (f : finding) (r : buckets) :
  adds (message f) (errors_of severity [f]) (warnings_of severity [f]) r (add_to severity r [f]).
Proof.
  unfold add_to, errors_of, warnings_of; destruct (String.eqb severity "error");
    apply emits_only_adds; repeat constructor.
Qed.

(** C6, as the code has it: on a GET operation whose [consumes] is truthy,
    as every array is, the empty one included, the R2 check returns with
    exactly one finding, at [paths.<pathKey>.get.consumes], appended to the
    bucket of the severity of [get_op_has_consumes], and that is the one R2
    finding that the visit of the operation adds; on one whose [consumes]
    is missing or falsy ([null], [false], [0], the empty string) it
    returns without one, and the visit adds none. *)
Theorem get_operation_truthy_consumes_one_finding :
  forall (jsSpec config : value) (pathKey : string) (op consumes : value) (severity : string)
         (r : buckets),
    member config "get_op_has_consumes" = Ok (VStr severity) ->
    severity = "error" \/ severity = "warning" ->
    member op "consumes" = Ok consumes ->
    (truthy consumes = true ->
     check_get_consumes config pathKey op "get" r
     = Ok (add_to severity r [get_consumes_finding pathKey "get"])) /\
    (truthy consumes = false -> check_get_consumes config pathKey op "get" r = Ok r) /\
    (forall r',
        visit_operation jsSpec config pathKey op "get" r = Ok r' ->
        member op "x-sdk-exclude" <> Ok (VBool true) ->
        (truthy consumes = true ->
         adds get_consumes_message
              (errors_of severity [get_consumes_finding pathKey "get"])
              (warnings_of severity [get_consumes_finding pathKey "get"]) r r') /\
        (truthy consumes = false -> adds get_consumes_message [] [] r r')) /\
    (forall items, truthy (VArr items) = true) /\
    Forall (fun v => truthy v = false) [VUndefined; VNull; VBool false; VNum 0; VStr EmptyString].
Proof.
  intros jsSpec config pathKey op consumes severity r Hs Hsev Hc.
  assert (Hyes : forall x, truthy consumes = true ->
             check_get_consumes config pathKey op "get" x
             = Ok (add_to severity x [get_consumes_finding pathKey "get"])).
  { intros x Ht; unfold check_get_consumes.
    rewrite Hc; cbn [bind]; rewrite Ht, Hs; cbn [bind].
    assert (is_string (VStr severity) "off" = false) as ->
        by (destruct Hsev as [-> | ->]; reflexivity).
    apply push_severity; exact Hsev. }
  assert (Hno : forall x, truthy consumes = false ->
             check_get_consumes config pathKey op "get" x = Ok x).
  { intros x Hf; unfold check_get_consumes; rewrite Hc; simpl; rewrite Hf; reflexivity. }
  split; [apply Hyes|]. split; [apply Hno|]. split; [|split; repeat constructor].
  intros r' H Hex.
  destruct (visit_operation_rule _ _ _ _ _ R2_consumes_forbidden _ _ H Hex)
    as (ra & rb & Hk & Hadds).
  simpl in Hk. split; intros Ht; apply Hadds.
  - rewrite (Hyes ra Ht) in Hk; injection Hk as <-.
    apply (add_to_adds severity (get_consumes_finding pathKey "get")).
  - rewrite (Hno ra Ht) in Hk; injection Hk as <-. apply adds_refl.
Qed.

Lemma get_operation_truthy_consumes_one_finding_witness :
  let op := VObj [("consumes", VArr []); ("summary", VStr "List")] in
  let config :=
    severities (VStr "off") (VStr "error") (VStr "off") (VStr "error") (VStr "off")
               (VStr "off") (VStr "off") in
  check_get_consumes config "/pets" op "get" empty_buckets
  = Ok (add_to "error" empty_buckets [get_consumes_finding "/pets" "get"]) /\
  adds get_consumes_message [get_consumes_finding "/pets" "get"] []
       empty_buckets
       {| error := [get_consumes_finding "/pets" "get"; operationId_finding "/pets" "get"];
          warning := [] |}.
Proof.
  intros op config.
  destruct (get_operation_truthy_consumes_one_finding
              (VObj []) config "/pets" op (VArr []) "error" empty_buckets
              eq_refl (or_introl eq_refl) eq_refl) as (Hyes & _ & Hvisit & _).
  split; [exact (Hyes eq_refl)|].
  refine (proj1 (Hvisit _ _ _) eq_refl).
  - vm_compute; reflexivity.
  - vm_compute; discriminate.
Defined.

(** A GET operation that declares [consumes: null] gets no R2 finding. *)
Lemma get_operation_null_consumes_counterexample :
  let op := VObj [("consumes", VNull)] in
  has_key "consumes" [("consumes", VNull)] = true /\
  validate (document_with [("/pets", VObj [("get", op)])])
           (config_with (severities (VStr "off") (VStr "error") (VStr "off") (VStr "off")
                                    (VStr "off") (VStr "off") (VStr "off")))
  = Ok {| errors := []; warnings := [] |}.
Proof. split; vm_compute; reflexivity. Qed.

(** ** A severity that names no bucket *)

Lemma rule_eq_dec (a b : rule) : {a = b} + {a <> b}.
Proof. decide equality. Qed.

Section Two_configurations.

Variables (jsSpec config config2 : value) (pathKey : string).

(** The part of a rule reads no severity but its own. *)
Lemma run_rule_same_severity (op : value) (opKey : string) (k : rule) (r : buckets) :
  member config (rule_key k) = member config2 (rule_key k) ->
  run_rule jsSpec config pathKey op opKey k r = run_rule jsSpec config2 pathKey op opKey k r.
Proof.
  intros H; destruct k; simpl in *;
    unfold check_consumes, check_produces, check_get_consumes, check_array_responses,
           check_operationId, check_summary, check_parameter_order;
    rewrite H; reflexivity.
Qed.

(** Under a severity that names no bucket, the part of the rule returns
    only when it pushes nothing, and it then returns the same under every
    severity. *)
Lemma run_rule_no_bucket (op : value) (opKey : string) (k : rule) (s s2 : value)
      (r r' : buckets) :
  member config (rule_key k) = Ok s ->
  names_no_bucket s ->
  member config2 (rule_key k) = Ok s2 ->
  run_rule jsSpec config pathKey op opKey k r = Ok r' ->
  r' = r /\ run_rule jsSpec config2 pathKey op opKey k r = Ok r.
Proof.
  intros Hs Hbad Hs2 H.
  assert (Hoff : is_string s "off" = false) by (apply is_string_false, Hbad).
  assert (Hpush : forall f x, push r s f <> Ok x)
    by (intros f x; now apply push_names_no_bucket).
  destruct k; simpl in *.
  - unfold check_consumes in *. destruct (includes _ _); [|split; congruence].
    bind_inv H; rewrite E; simpl. bind_inv H; rewrite E0; simpl.
    destruct (negb a && negb a0); [|split; congruence].
    rewrite Hs in H; simpl in H; rewrite Hoff in H; simpl in H. now apply Hpush in H.
  - destruct (String.eqb _ _); [|split; congruence].
    unfold check_get_consumes in *. bind_inv H; rewrite E; simpl.
    destruct (truthy a); [|split; congruence].
    rewrite Hs in H; simpl in H; rewrite Hoff in H; simpl in H. now apply Hpush in H.
  - unfold check_produces in *. destruct (negb _); [|split; congruence].
    bind_inv H; rewrite E; simpl. bind_inv H; rewrite E0; simpl.
    destruct (negb a && negb a0); [|split; congruence].
    rewrite Hs in H; simpl in H; rewrite Hoff in H; simpl in H. now apply Hpush in H.
  - unfold check_operationId in *. bind_inv H; rewrite E; simpl.
    destruct (negb a); [|split; congruence].
    rewrite Hs in H; simpl in H; rewrite Hoff in H; simpl in H. now apply Hpush in H.
  - unfold check_summary in *. bind_inv H; rewrite E; simpl.
    destruct (negb a); [|split; congruence].
    rewrite Hs in H; simpl in H; rewrite Hoff in H; simpl in H. now apply Hpush in H.
  - destruct (String.eqb _ _); [|split; congruence].
    unfold check_array_responses in *. rewrite Hs in H; rewrite Hs2; simpl in *.
    rewrite Hoff in H; simpl in H. bind_inv H.
    destruct (each_response_no_bucket _ _ _ _ _ _ _ Hbad H) as [-> Hall].
    split; [reflexivity|].
    destruct (is_string s2 "off"); simpl; [reflexivity|].
    rewrite E; simpl; apply Hall.
  - unfold check_parameter_order in *. rewrite Hs in H; rewrite Hs2; simpl in *.
    rewrite Hoff in H; simpl in H.
    destruct (is_string s2 "off"); simpl.
    + split; [|reflexivity].
      bind_inv H. destruct (truthy a); [|congruence].
      bind_inv H. bind_inv H. destruct a1; [|congruence]. bind_inv H.
      now destruct (parameter_loop_no_bucket _ _ _ _ _ _ _ _ _ Hbad H).
    + bind_inv H; rewrite E; simpl. destruct (truthy a); [|split; congruence].
      bind_inv H; rewrite E0; simpl. bind_inv H; rewrite E1; simpl.
      destruct a1; [|split; congruence]. bind_inv H; rewrite E2; simpl.
      destruct (parameter_loop_no_bucket _ _ _ _ _ _ _ _ _ Hbad H) as [-> Hall].
      split; [reflexivity | apply Hall].
Qed.

Variables (k : rule) (s s2 : value).
Hypothesis severity_of_k : member config (rule_key k) = Ok s.
Hypothesis names_none : names_no_bucket s.
Hypothesis severity2_of_k : member config2 (rule_key k) = Ok s2.
Hypothesis others_agree :
  forall k', k' <> k -> member config (rule_key k') = member config2 (rule_key k').

Lemma run_rules_no_bucket (op : value) (opKey : string) (ks : list rule) (r r' : buckets) :
  run_rules jsSpec config pathKey op opKey ks r = Ok r' ->
  run_rules jsSpec config2 pathKey op opKey ks r = Ok r'.
Proof.
  revert r; induction ks as [|k' ks IH]; simpl; intros r H; [exact H|].
  bind_inv H. destruct (rule_eq_dec k' k) as [->|Hne].
  - destruct (run_rule_no_bucket _ _ _ _ _ _ _ severity_of_k names_none severity2_of_k E)
      as [-> E2].
    rewrite E2; simpl; apply IH; exact H.
  - rewrite <- (run_rule_same_severity _ _ _ _ (others_agree _ Hne)), E; simpl.
    apply IH; exact H.
Qed.

Lemma each_operation_no_bucket (pathOps : list (string * value)) (r r' : buckets) :
  each_operation jsSpec config pathKey pathOps r = Ok r' ->
  each_operation jsSpec config2 pathKey pathOps r = Ok r'.
Proof.
  revert r; induction pathOps as [|[opKey op] rest IH]; simpl; intros r H; [exact H|].
  bind_inv H.
  assert (visit_operation jsSpec config2 pathKey op opKey r = Ok a) as ->.
  { rewrite visit_operation_run_rules in *. bind_inv E; rewrite E0; cbn [bind].
    destruct (is_true a0); [exact E|]. now apply run_rules_no_bucket. }
  simpl; apply IH; exact H.
Qed.

End Two_configurations.

Lemma map_paths_no_bucket (jsSpec config config2 : value) (k : rule) (s s2 : value)
      (paths : list (value * value)) (r r' : buckets) :
  member config (rule_key k) = Ok s ->
  names_no_bucket s ->
  member config2 (rule_key k) = Ok s2 ->
  (forall k', k' <> k -> member config (rule_key k') = member config2 (rule_key k')) ->
  map_paths jsSpec config paths r = Ok r' ->
  map_paths jsSpec config2 paths r = Ok r'.
Proof.
  intros Hs Hbad Hs2 Hothers.
  revert r; induction paths as [|[path pathKey] rest IH]; simpl; intros r H; [exact H|].
  bind_inv H.
  assert (visit_path jsSpec config2 path pathKey r = Ok a) as ->.
  { unfold visit_path in *. destruct pathKey; try discriminate.
    destruct (String.eqb _ _); [exact E|].
    exact (each_operation_no_bucket _ _ _ _ k s s2 Hs Hbad Hs2 Hothers _ _ _ E). }
  simpl; apply IH; exact H.
Qed.

(** C4, as the code has it: under a severity of a rule that is not [off]
    and names no bucket, every push of the rule raises a [TypeError], so
    the value is not taken for [off]; the validator returns a findings pair
    only when that rule has nothing to push, and the pair is then the one
    that every other severity of the rule gives, [off] included. *)
Theorem severity_without_bucket_returns_only_silently :
  forall (arg config config2 : value) (operations operations2 : list (string * value))
         (k : rule) (rep : report),
    member config "operations" = Ok (VObj operations) ->
    member config2 "operations" = Ok (VObj operations2) ->
    names_no_bucket (or_undefined (assoc (rule_key k) operations)) ->
    (forall k', k' <> k -> assoc (rule_key k') operations2 = assoc (rule_key k') operations) ->
    (forall r f, push r (or_undefined (assoc (rule_key k) operations)) f = TypeError) /\
    (validate arg config = Ok rep -> validate arg config2 = Ok rep).
Proof.
  intros arg config config2 operations operations2 k rep Hc Hc2 Hbad Hothers.
  split; [intros r f; now apply push_names_no_bucket_raises|].
  intros H.
  unfold validate in *. bind_inv H; rewrite E; simpl.
  rewrite Hc in H; rewrite Hc2; simpl in *.
  bind_inv H; rewrite E0; simpl. bind_inv H; rewrite E1; simpl. bind_inv H.
  erewrite (map_paths_no_bucket a (VObj operations) (VObj operations2) k); try eassumption.
  - simpl; reflexivity.
  - reflexivity.
  - intros k' Hne; simpl; now rewrite Hothers.
Qed.

Lemma severity_without_bucket_returns_only_silently_witness :
  let op := VObj [("operationId", VStr "list"); ("summary", VStr "List")] in
  validate (document_with [("/pets", VObj [("get", op)])])
           (config_with (severities (VStr "off") (VStr "off") (VStr "error") (VStr "off")
                                    (VStr "error") (VStr "off") (VStr "off")))
  = Ok {| errors := [produces_finding "/pets" "get"]; warnings := [] |}.
Proof.
  intros op.
  apply (proj2 (severity_without_bucket_returns_only_silently
           (document_with [("/pets", VObj [("get", op)])])
           (config_with (severities (VStr "off") (VStr "off") (VStr "error") (VStr "off")
                                    (VStr "info") (VStr "off") (VStr "off")))
           (config_with (severities (VStr "off") (VStr "off") (VStr "error") (VStr "off")
                                    (VStr "error") (VStr "off") (VStr "off")))
           _ _ R5_summary_required _ eq_refl eq_refl
           ltac:(repeat split; simpl; discriminate)
           ltac:(intros k' Hne; destruct k'; try reflexivity; contradiction))).
  vm_compute; reflexivity.
Defined.

(** The severity [info] for R5: the operation without a summary makes the
    call raise, where [off] returns the empty pair. *)
Lemma unknown_severity_counterexample :
  let doc := document_with [("/pets", VObj [("get", VObj [("operationId", VStr "list")])])] in
  validate doc (config_with (severities (VStr "off") (VStr "off") (VStr "off") (VStr "off")
                                        (VStr "info") (VStr "off") (VStr "off")))
  = TypeError /\
  validate doc (config_with all_off) = Ok {| errors := []; warnings := [] |}.
Proof. split; vm_compute; reflexivity. Qed.

(** ** Where the severities are read *)

Lemma visit_operation_without_severities (jsSpec : value) (pathKey : string) (op : value)
      (opKey : string) (r r' : buckets) :
  member op "x-sdk-exclude" <> Ok (VBool true) ->
  visit_operation jsSpec VUndefined pathKey op opKey r <> Ok r'.
Proof.
  intros Hex H; apply visit_operation_Ok in H as [[H _]|[_ H]]; [contradiction|].
  destruct H as (r1 & r2 & r3 & r4 & r5 & _ & _ & _ & _ & _ & H).
  unfold check_parameter_order in H; simpl in H; discriminate.
Qed.

Lemma each_operation_without_severities (jsSpec : value) (pathKey : string)
      (pathOps : list (string * value)) (opKey : string) (op : value) (r r' : buckets) :
  In (opKey, op) pathOps ->
  member op "x-sdk-exclude" <> Ok (VBool true) ->
  each_operation jsSpec VUndefined pathKey pathOps r <> Ok r'.
Proof.
  intros Hin Hex; revert r; induction pathOps as [|[opKey' op'] rest IH]; simpl; intros r H;
    [contradiction|].
  bind_inv H. destruct Hin as [Heq|Hin].
  - injection Heq as -> ->. now apply visit_operation_without_severities in E.
  - now apply (IH Hin a).
Qed.

Lemma map_paths_without_severities (jsSpec : value) (paths : list (value * value))
      (path : value) (pathKey opKey : string) (op : value) (r r' : buckets) :
  In (path, VStr pathKey) paths ->
  String.substring 0 2 pathKey <> "x-" ->
  In (opKey, op) (pick path method_keys) ->
  member op "x-sdk-exclude" <> Ok (VBool true) ->
  map_paths jsSpec VUndefined paths r <> Ok r'.
Proof.
  intros Hin Hx Hop Hex; revert r; induction paths as [|[path' key'] rest IH]; simpl;
    intros r H; [contradiction|].
  bind_inv H. destruct Hin as [Heq|Hin].
  - injection Heq as -> ->. unfold visit_path in E.
    destruct (String.eqb _ _) eqn:Ex; [apply String.eqb_eq in Ex; contradiction|].
    now apply (each_operation_without_severities _ _ _ _ _ _ _ Hop Hex) in E.
  - now apply (IH Hin a).
Qed.

(** ** References that do not resolve *)

(** R6 skips a schema whose reference resolves to nothing. *)
Lemma unresolved_schema_is_skipped (jsSpec : value) (pathKey opKey : string)
      (checkStatus response name schema : value) (r : buckets) :
  member response "schema" = Ok schema ->
  resolveRef schema jsSpec = Ok VUndefined ->
  check_response jsSpec pathKey opKey checkStatus response name r = Ok r.
Proof.
  intros Hs Hr; unfold check_response; rewrite Hs; simpl.
  destruct (truthy schema); [|reflexivity]. rewrite Hr; reflexivity.
Qed.

(** R7 reads [required] of what the reference resolved to, whatever it is:
    on [undefined] the read raises. *)
Lemma unresolved_parameter_raises (jsSpec : value) (pathKey opKey : string)
      (checkStatus parameters parameter : value) (indx : nat) (firstOptional : Z)
      (r : buckets) :
  index_value parameters indx = Ok parameter ->
  resolveRef parameter jsSpec = Ok VUndefined ->
  parameter_step jsSpec pathKey opKey checkStatus parameters indx firstOptional r = TypeError.
Proof.
  intros Hi Hr; unfold parameter_step; rewrite Hi; simpl; rewrite Hr; simpl.
  destruct (firstOptional <? 0)%Z; reflexivity.
Qed.

Lemma parameter_loop_unresolved (jsSpec : value) (pathKey opKey : string)
      (checkStatus parameters parameter : value) (indices : list nat) (indx : nat)
      (firstOptional : Z) (r r' : buckets) :
  In indx indices ->
  index_value parameters indx = Ok parameter ->
  resolveRef parameter jsSpec = Ok VUndefined ->
  parameter_loop jsSpec pathKey opKey checkStatus parameters indices firstOptional r <> Ok r'.
Proof.
  intros Hin Hi Hr; revert firstOptional r.
  induction indices as [|i rest IH]; intros fo r H; [contradiction|].
  cbn [parameter_loop] in H. bind_inv H. destruct Hin as [->|Hin].
  - rewrite (unresolved_parameter_raises _ _ _ _ _ _ _ _ _ Hi Hr) in E; discriminate.
  - now apply (IH Hin (fst a) (snd a)).
Qed.

(** Whatever else the operation has, R7 does not return when one of the
    parameters is a reference that resolves to nothing. *)
Lemma unresolved_parameter_never_returns (jsSpec config : value) (pathKey : string)
      (op : value) (opKey : string) (severity parameter : value) (parameters : list value)
      (indx : nat) (r r' : buckets) :
  member config "parameter_order" = Ok severity ->
  severity <> VStr "off" ->
  member op "parameters" = Ok (VArr parameters) ->
  nth_error parameters indx = Some parameter ->
  resolveRef parameter jsSpec = Ok VUndefined ->
  check_parameter_order jsSpec config pathKey op opKey r <> Ok r'.
Proof.
  intros Hs Hoff Hp Hn Hr H. unfold check_parameter_order in H.
  rewrite Hs in H; cbn [bind] in H.
  apply is_string_false in Hoff; rewrite Hoff in H; cbn [negb] in H.
  rewrite Hp in H; cbn [bind truthy length_of] in H.
  unfold gt_zero, iterations in H; cbn [to_number bind] in H.
  assert (Hlt : indx < List.length parameters) by (apply nth_error_Some; congruence).
  assert ((0 <? Z.of_nat (List.length parameters))%Z = true) as Hpos
      by (apply Z.ltb_lt; lia).
  rewrite Hpos, Nat2Z.id in H.
  apply (parameter_loop_unresolved _ _ _ _ _ parameter _ indx) in H; try assumption.
  - apply in_seq; lia.
  - cbn [index_value]. f_equal. now apply nth_error_nth.
Qed.

(** C1 fails on parameters: a parameter that is a reference to a place the
    document does not have makes [validate] raise, where the same
    reference as a response schema is skipped. *)
Theorem unresolved_parameter_reference_fails :
  let reference := VObj [("$ref", VStr "#/parameters/missing")] in
  let with_parameter := VObj [("parameters", VArr [reference])] in
  let with_response := VObj [("responses", VObj [("200", VObj [("schema", reference)])])] in
  let config :=
    config_with (severities (VStr "off") (VStr "off") (VStr "off") (VStr "off") (VStr "off")
                            (VStr "error") (VStr "error")) in
  resolveRef reference (VObj [("paths", VObj [("/pets", VObj [("get", with_parameter)])])])
  = Ok VUndefined /\
  validate (document_with [("/pets", VObj [("get", with_parameter)])]) config = TypeError /\
  validate (document_with [("/pets", VObj [("get", with_response)])]) config
  = Ok {| errors := []; warnings := [] |}.
Proof. repeat split; vm_compute; reflexivity. Qed.

(** ** A key with a quote in it *)

(** C8 fails on a key that has a double quote in it: the brackets and
    quotes of line 42 do not make one key of it, and the reference resolves
    to [undefined] although the document has a value under exactly these
    keys. *)
Theorem reference_to_quoted_key_is_not_resolved :
  let key := String "a" (String dquote "b") in
  let schema := VObj [("type", VStr "array")] in
  let jsSpec := VObj [("definitions", VObj [(key, schema)])] in
  stored_at jsSpec ["definitions"; key] = Some schema /\
  stringToPath (join_strings "." (map bracket_quote ["definitions"; key]))
  = ["definitions"; String dquote (key ++ String dquote EmptyString)] /\
  resolveRef (VObj [("$ref", VStr ("#/definitions/" ++ key))]) jsSpec = Ok VUndefined.
Proof. repeat split; vm_compute; reflexivity. Qed.

(** ** R7: what the loop reports *)

Lemma filter_map_swap {A B : Type} (f : A -> B) (p : B -> bool) (l : list A) :
  filter p (map f l) = map f (filter (fun x => p (f x)) l).
Proof.
  induction l as [|x l IH]; simpl; [reflexivity|].
  destruct (p (f x)); simpl; now rewrite IH.
Qed.

Lemma reported_from_seen (k : nat) (rs : list value) :
  reported_from true k rs
  = map (fun j => k + j) (filter (fun j => truthy (nth j rs VUndefined)) (seq 0 (List.length rs))).
Proof.
  revert k; induction rs as [|v rest IH]; intros k; [reflexivity|].
  cbn [reported_from List.length seq filter nth].
  rewrite IH, <- seq_shift, filter_map_swap.
  destruct (truthy v); cbn [map app]; rewrite map_map.
  - f_equal; [lia|]. apply map_ext; intros j; lia.
  - apply map_ext; intros j; lia.
Qed.

Lemma reported_from_unseen (k : nat) (rs : list value) :
  reported_from false k rs
  = match first_falsy rs with
    | Some firstOptional =>
        map (fun j => k + j)
            (filter (fun j => (firstOptional <? j)%nat && truthy (nth j rs VUndefined))
                    (seq 0 (List.length rs)))
    | None => []
    end.
Proof.
  revert k; induction rs as [|v rest IH]; intros k; [reflexivity|].
  cbn [reported_from first_falsy List.length seq].
  destruct (truthy v) eqn:Ev; cbn [negb].
  - rewrite IH. destruct (first_falsy rest) as [fo|]; cbn [option_map]; [|reflexivity].
    cbn [filter]. replace (S fo <? 0)%nat with false by reflexivity. cbn [andb].
    rewrite <- seq_shift, filter_map_swap, map_map.
    apply eq_trans with
      (map (fun j => k + S j)
           (filter (fun j => (fo <? j)%nat && truthy (nth j rest VUndefined))
                   (seq 0 (List.length rest)))).
    + apply map_ext; intros j; lia.
    + reflexivity.
  - rewrite reported_from_seen. cbn [filter]. replace (0 <? 0)%nat with false by reflexivity.
    cbn [andb]. rewrite <- seq_shift, filter_map_swap, map_map.
    apply eq_trans with
      (map (fun j => k + S j)
           (filter (fun j => truthy (nth j rest VUndefined)) (seq 0 (List.length rest)))).
    + apply map_ext; intros j; lia.
    + reflexivity.
Qed.

Lemma reported_from_start (rs : list value) : reported_from false 0 rs = reported_indices rs.
Proof.
  rewrite reported_from_unseen; unfold reported_indices.
  destruct (first_falsy rs); [|reflexivity].
  rewrite <- (map_id (filter _ _)) at 2. apply map_ext; intros j; reflexivity.
Qed.

Section Parameter_loop.

Variables (jsSpec : value) (pathKey opKey severity : string).
Hypothesis names_bucket : severity = "error" \/ severity = "warning".

Lemma parameter_loop_reports (suffix : list value) :
  forall (pre : list value) (requireds : list value) (firstOptional : Z) (r : buckets),
    required_values jsSpec suffix = Ok requireds ->
    parameter_loop jsSpec pathKey opKey (VStr severity) (VArr (pre ++ suffix))
                   (seq (List.length pre) (List.length suffix)) firstOptional r
    = Ok (add_to severity r
                 (map (parameter_order_finding pathKey opKey)
                      (reported_from (negb (firstOptional <? 0)%Z) (List.length pre) requireds))).
Proof.
  induction suffix as [|p rest IH]; intros pre requireds fo r Hreq.
  - injection Hreq as <-; simpl; now rewrite add_to_nil.
  - cbn [required_values] in Hreq.
    bind_inv Hreq; bind_inv Hreq; bind_inv Hreq; injection Hreq as <-.
    cbn [List.length seq parameter_loop].
    assert (Hnext : forall fo' r',
               parameter_loop jsSpec pathKey opKey (VStr severity) (VArr (pre ++ p :: rest))
                              (seq (S (List.length pre)) (List.length rest)) fo' r'
               = Ok (add_to severity r'
                            (map (parameter_order_finding pathKey opKey)
                                 (reported_from (negb (fo' <? 0)%Z) (S (List.length pre)) a1)))).
    { intros fo' r'. specialize (IH (pre ++ [p])%list a1 fo' r' E1).
      rewrite <- app_assoc, length_app in IH; cbn [app List.length] in IH.
      rewrite Nat.add_1_r in IH; exact IH. }
    unfold parameter_step. cbn [index_value]. rewrite nth_middle. cbn [bind].
    rewrite E; cbn [bind]. rewrite E0.
    destruct (fo <? 0)%Z eqn:Efo; cbn [bind negb reported_from].
    + destruct (truthy a0); cbn [negb fst snd bind].
      * rewrite Hnext, Efo; reflexivity.
      * rewrite Hnext.
        replace (Z.of_nat (List.length pre) <? 0)%Z with false
          by (symmetry; apply Z.ltb_ge; lia).
        reflexivity.
    + destruct (truthy a0); cbn [bind fst snd].
      * rewrite (push_severity _ _ _ names_bucket); cbn [bind fst snd].
        rewrite Hnext, Efo, add_to_app; reflexivity.
      * rewrite Hnext, Efo; reflexivity.
Qed.

End Parameter_loop.

(** C3, as the code has it: on an operation with a non-empty [parameters]
    array, R7 takes [firstOptional] to be the index of the first parameter
    whose resolved [required] is falsy and pushes one finding for each
    later parameter whose resolved [required] is truthy, in the order of
    the parameters.  Truthy values that are not [true], such as the
    string [yes], count as required in both places. *)
Theorem parameter_order_reports_truthy_after_first_falsy :
  forall (jsSpec config : value) (pathKey : string) (op : value) (opKey severity : string)
         (parameters requireds : list value) (r : buckets),
    member op "parameters" = Ok (VArr parameters) ->
    parameters <> [] ->
    required_values jsSpec parameters = Ok requireds ->
    member config "parameter_order" = Ok (VStr severity) ->
    severity = "error" \/ severity = "warning" ->
    check_parameter_order jsSpec config pathKey op opKey r
    = Ok (add_to severity r
                 (map (parameter_order_finding pathKey opKey) (reported_indices requireds))).
Proof.
  intros jsSpec config pathKey op opKey severity parameters requireds r Hp Hne Hreq Hs Hsev.
  unfold check_parameter_order. rewrite Hs; cbn [bind].
  assert (is_string (VStr severity) "off" = false) as ->
    by (destruct Hsev as [-> | ->]; reflexivity).
  cbn [negb]. rewrite Hp; cbn [bind truthy length_of].
  unfold gt_zero, iterations; cbn [to_number bind].
  assert ((0 <? Z.of_nat (List.length parameters))%Z = true) as ->
    by (apply Z.ltb_lt; destruct parameters; [contradiction | simpl; lia]).
  rewrite Nat2Z.id.
  pose proof (parameter_loop_reports jsSpec pathKey opKey severity Hsev parameters []
                                     requireds (-1)%Z r Hreq) as Hloop.
  cbn [app List.length] in Hloop. rewrite Hloop.
  replace (-1 <? 0)%Z with true by reflexivity.
  cbn [negb]. now rewrite reported_from_start.
Qed.

Lemma parameter_order_reports_truthy_after_first_falsy_witness :
  let parameters :=
    [VObj [("required", VStr "yes")]; VObj []; VObj [("required", VNum 1)];
     VObj [("$ref", VStr "#/parameters/limit")]] in
  let jsSpec := VObj [("parameters", VObj [("limit", VObj [("required", VBool true)])])] in
  check_parameter_order jsSpec all_errors "/pets" (VObj [("parameters", VArr parameters)]) "get"
                        empty_buckets
  = Ok {| error := [parameter_order_finding "/pets" "get" 2;
                    parameter_order_finding "/pets" "get" 3];
          warning := [] |}.
Proof.
  intros parameters jsSpec.
  apply (parameter_order_reports_truthy_after_first_falsy
           jsSpec all_errors "/pets" (VObj [("parameters", VArr parameters)]) "get" "error"
           parameters [VStr "yes"; VUndefined; VNum 1; VBool true] empty_buckets).
  - reflexivity.
  - discriminate.
  - vm_compute; reflexivity.
  - reflexivity.
  - now left.
Defined.

(** A later parameter whose [required] is the string [yes] is reported. *)
Lemma truthy_required_counterexample :
  let parameters := [VObj [("required", VBool false)]; VObj [("required", VStr "yes")]] in
  validate (document_with [("/pets", VObj [("get", VObj [("parameters", VArr parameters)])])])
           (config_with (severities (VStr "off") (VStr "off") (VStr "off") (VStr "off")
                                    (VStr "off") (VStr "off") (VStr "error")))
  = Ok {| errors := [parameter_order_finding "/pets" "get" 1]; warnings := [] |}.
Proof. vm_compute; reflexivity. Qed.

(** ** References with clean segments *)

Lemma append_assoc (a b c : string) : ((a ++ b) ++ c = a ++ (b ++ c))%string.
Proof. induction a as [|x a IH]; simpl; [reflexivity | now rewrite IH]. Qed.

Lemma append_empty (a : string) : (a ++ EmptyString = a)%string.
Proof. induction a as [|x a IH]; simpl; [reflexivity | now rewrite IH]. Qed.

Lemma length_append (a b : string) :
  String.length (a ++ b) = String.length a + String.length b.
Proof. induction a as [|x a IH]; simpl; [reflexivity | now rewrite IH]. Qed.

Lemma clean_segment_cons (c : ascii) (s : string) :
  clean_segment (String c s) = true ->
  Ascii.eqb c "/"%char = false /\ Ascii.eqb c dquote = false /\
  Ascii.eqb c backslash = false /\ clean_segment s = true.
Proof.
  unfold clean_segment; simpl; intros H.
  apply andb_true_iff in H as [H Hs]. apply negb_true_iff in H.
  apply orb_false_iff in H as [H Hb]. apply orb_false_iff in H as [Hsl Hq].
  repeat split; assumption.
Qed.

Lemma quoted_body_clean (s rest : string) :
  clean_segment s = true ->
  quoted_body dquote (s ++ String dquote (String "]" rest)) = Some (s, rest).
Proof.
  induction s as [|c s IH]; intros H.
  - reflexivity.
  - apply clean_segment_cons in H as (_ & Hq & Hb & Hs).
    cbn [append quoted_body]. rewrite Hq, Hb, (IH Hs); reflexivity.
Qed.

Lemma unescape_clean (s : string) : clean_segment s = true -> unescape s = s.
Proof.
  induction s as [|c s IH]; intros H; [reflexivity|].
  apply clean_segment_cons in H as (_ & _ & Hb & Hs).
  cbn [unescape]. rewrite Hb, (IH Hs); reflexivity.
Qed.

Lemma scan_keys_skip (a rest : string) :
  scan_keys (String.length a) (a ++ rest) = scan_keys 0 rest.
Proof. induction a as [|c a IH]; [reflexivity | exact IH]. Qed.

Lemma bracket_quote_append (s rest : string) :
  (bracket_quote s ++ rest
   = String "[" (String dquote (s ++ String dquote (String "]" rest))))%string.
Proof.
  unfold bracket_quote; cbn [append]. now rewrite append_assoc.
Qed.

Lemma prop_name_at_bracket_quote (s rest : string) :
  clean_segment s = true ->
  prop_name_at (bracket_quote s ++ rest) = Some (s, String.length s + 4).
Proof.
  intros H; rewrite bracket_quote_append.
  unfold prop_name_at. cbn [is_path_special is_bracket negb].
  replace (Ascii.eqb "[" "." || (Ascii.eqb "[" "[" || Ascii.eqb "[" "]"))%char with true
    by reflexivity.
  cbn [negb]. replace (Ascii.eqb "[" "[")%char with true by reflexivity.
  replace (bracket_number (String dquote (s ++ String dquote (String "]" rest))))
    with (@None string) by reflexivity.
  replace (is_quote dquote) with true by reflexivity.
  rewrite (quoted_body_clean _ _ H), (unescape_clean _ H); reflexivity.
Qed.

Lemma scan_keys_bracket_quote (s rest : string) :
  clean_segment s = true ->
  scan_keys 0 (bracket_quote s ++ rest) = s :: scan_keys 0 rest.
Proof.
  intros H. pose proof (prop_name_at_bracket_quote s rest H) as Hp.
  rewrite bracket_quote_append in *. cbn [scan_keys]. rewrite Hp. f_equal.
  replace (pred (String.length s + 4))
    with (String.length (String dquote (s ++ String dquote (String "]" EmptyString))))
    by (cbn [String.length]; rewrite length_append; cbn [String.length]; lia).
  rewrite <- (scan_keys_skip (String dquote (s ++ String dquote (String "]" EmptyString))) rest).
  cbn [append]. now rewrite append_assoc.
Qed.

Lemma scan_keys_dot (s rest : string) :
  scan_keys 0 (String "." (bracket_quote s ++ rest)) = scan_keys 0 (bracket_quote s ++ rest).
Proof. rewrite bracket_quote_append; reflexivity. Qed.

Lemma path_of_head (s : string) (segments : list string) :
  exists rest, path_of (s :: segments) = (bracket_quote s ++ rest)%string.
Proof.
  destruct segments as [|s2 more].
  - exists EmptyString; unfold path_of; simpl; now rewrite append_empty.
  - exists ("." ++ path_of (s2 :: more))%string; reflexivity.
Qed.

Lemma scan_keys_path_of (segments : list string) :
  Forall (fun s => clean_segment s = true) segments ->
  scan_keys 0 (path_of segments) = segments.
Proof.
  induction 1 as [|s more Hs Hmore IH]; [reflexivity|].
  destruct more as [|s2 more'].
  - change (path_of [s]) with (bracket_quote s).
    rewrite <- (append_empty (bracket_quote s)), (scan_keys_bracket_quote _ _ Hs); reflexivity.
  - change (path_of (s :: s2 :: more'))
      with (bracket_quote s ++ String "." (path_of (s2 :: more')))%string.
    rewrite (scan_keys_bracket_quote _ _ Hs). f_equal.
    destruct (path_of_head s2 more') as (rest & Hrest).
    rewrite Hrest, scan_keys_dot, <- Hrest. exact IH.
Qed.

Lemma stringToPath_path_of (segments : list string) :
  Forall (fun s => clean_segment s = true) segments ->
  stringToPath (path_of segments) = segments.
Proof.
  intros H; unfold stringToPath. rewrite (scan_keys_path_of _ H).
  destruct segments as [|s more]; [reflexivity|].
  destruct (path_of_head s more) as (rest & ->). rewrite bracket_quote_append; reflexivity.
Qed.

(** The path of line 42 is never taken for one key, unless the document
    has that very key at its root. *)
Lemma isKey_path_of (segments : list string) (jsSpec : value) :
  segments <> [] ->
  Forall (fun s => clean_segment s = true) segments ->
  isKey (path_of segments) jsSpec = in_object (path_of segments) jsSpec.
Proof.
  intros Hne H; destruct segments as [|s more]; [contradiction|].
  apply Forall_inv in H.
  destruct (path_of_head s more) as (rest & ->). unfold isKey.
  rewrite bracket_quote_append.
  cbn [reIsPlainProp all_chars reIsDeepProp deep_prop_at].
  replace (is_word_char "[") with false by reflexivity.
  replace (Ascii.eqb "[" ".")%char with false by reflexivity.
  replace (Ascii.eqb "[" "[")%char with true by reflexivity.
  replace (is_quote dquote) with true by reflexivity.
  rewrite (quoted_body_clean _ _ H). cbn [andb]. rewrite !orb_true_r. reflexivity.
Qed.

Lemma split_on_clean (s : string) : clean_segment s = true -> split_on "/" s = [s].
Proof.
  induction s as [|c s IH]; intros H; [reflexivity|].
  apply clean_segment_cons in H as (Hsl & _ & _ & Hs).
  cbn [split_on]. rewrite Hsl, (IH Hs); reflexivity.
Qed.

Lemma split_on_append (s rest : string) :
  clean_segment s = true ->
  split_on "/" (s ++ String "/" rest) = s :: split_on "/" rest.
Proof.
  induction s as [|c s IH]; intros H; [reflexivity|].
  apply clean_segment_cons in H as (Hsl & _ & _ & Hs).
  cbn [append split_on]. rewrite Hsl, (IH Hs); reflexivity.
Qed.

Lemma split_on_join (segments : list string) :
  segments <> [] ->
  Forall (fun s => clean_segment s = true) segments ->
  split_on "/" (join_strings "/" segments) = segments.
Proof.
  intros Hne H; induction H as [|s more Hs Hmore IH]; [contradiction|].
  destruct more as [|s2 more'].
  - simpl; now apply split_on_clean.
  - change (join_strings "/" (s :: s2 :: more'))
      with (s ++ String "/" (join_strings "/" (s2 :: more')))%string.
    rewrite (split_on_append _ _ Hs), IH; [reflexivity | discriminate].
Qed.

(** With segments that have no slash, double quote or backslash in them,
    [resolveRef] reads the keys that the pointer names, one after the
    other, as [baseGet] does. *)
Lemma resolveRef_clean_pointer (obj jsSpec : value) (segments : list string) :
  member obj "$ref" = Ok (VStr (pointer_to segments)) ->
  segments <> [] ->
  Forall (fun s => clean_segment s = true) segments ->
  in_object (path_of segments) jsSpec = false ->
  resolveRef obj jsSpec = baseGet_loop jsSpec segments.
Proof.
  intros Href Hne Hclean Hroot. unfold resolveRef. rewrite Href; cbn [bind].
  change (truthy (VStr (pointer_to segments))) with true. cbn [negb call_startsWith bind].
  assert (String.prefix "#/" (pointer_to segments) = true) as ->
    by (unfold pointer_to; simpl; destruct (join_strings "/" segments); reflexivity).
  cbn [negb call_split bind].
  change (split_on "/" (pointer_to segments))
    with (String "#" EmptyString :: split_on "/" (join_strings "/" segments)).
  rewrite (split_on_join _ Hne Hclean). cbn [tl].
  fold (path_of segments).
  unfold at_first, baseGet, castPath.
  rewrite (isKey_path_of _ _ Hne Hclean), Hroot, (stringToPath_path_of _ Hclean).
  destruct segments as [|s more]; [contradiction|].
  destruct jsSpec; reflexivity.
Qed.

Lemma baseGet_loop_stored (jsSpec v : value) (keys : list string) :
  stored_at jsSpec keys = Some v -> baseGet_loop jsSpec keys = Ok v.
Proof.
  revert jsSpec; induction keys as [|key rest IH]; intros jsSpec H.
  - injection H as <-; reflexivity.
  - cbn [stored_at] in H. destruct jsSpec as [| | | | | |props]; try discriminate.
    cbn [baseGet_loop read_property].
    destruct (assoc key props) as [x|]; [|discriminate].
    cbn [bind]; apply IH; exact H.
Qed.

(** What holds of C8: a pointer whose segments have no slash, double quote
    or backslash in them, dots and brackets allowed, resolves to the value
    that the document stores under these keys. *)
Lemma resolveRef_resolves_stored_value (obj jsSpec v : value) (segments : list string) :
  member obj "$ref" = Ok (VStr (pointer_to segments)) ->
  segments <> [] ->
  Forall (fun s => clean_segment s = true) segments ->
  in_object (path_of segments) jsSpec = false ->
  stored_at jsSpec segments = Some v ->
  resolveRef obj jsSpec = Ok v.
Proof.
  intros Href Hne Hclean Hroot Hv.
  rewrite (resolveRef_clean_pointer _ _ _ Href Hne Hclean Hroot).
  now apply baseGet_loop_stored.
Qed.

(** ** Documents as the data model has them: every visit returns *)

Lemma join_with_strings (sep : string) (items : list value) :
  Forall (fun x => exists s, x = VStr s) items ->
  forall first, exists text, join_with to_string sep first items = Ok text.
Proof.
  induction 1 as [|x items (s & ->) _ IH]; intros first; [eexists; reflexivity|].
  cbn [join_with]. fold (join_with to_string sep).
  destruct (IH false) as (t & ->). eexists; reflexivity.
Qed.

Lemma has_joined_text_returns (v : value) :
  strings_or_absent v -> exists b, has_joined_text v = Ok b.
Proof.
  intros [->|(items & -> & H)]; [eexists; reflexivity|].
  unfold has_joined_text, gt_zero; cbn [truthy length_of to_number bind call_join].
  destruct (0 <? _)%Z; [|eexists; reflexivity].
  destruct (join_with_strings EmptyString items H true) as (t & Ht).
  unfold join; rewrite Ht; eexists; reflexivity.
Qed.

Lemma has_text_returns (v : value) : string_or_absent v -> exists b, has_text v = Ok b.
Proof.
  intros [->|(s & ->)]; [eexists; reflexivity|].
  unfold has_text, gt_zero; cbn [truthy length_of to_number bind call_toString to_string].
  destruct (negb (is_empty s)); [|eexists; reflexivity].
  destruct (0 <? _)%Z; eexists; reflexivity.
Qed.

Lemma push_severity_returns (s : value) (r : buckets) (f : finding) :
  is_severity s ->
  exists r', (if negb (is_string s "off") then push r s f else Ok r) = Ok r'.
Proof.
  intros [-> | [-> | ->]]; cbn [is_string negb].
  - rewrite push_error; eexists; reflexivity.
  - rewrite push_warning; eexists; reflexivity.
  - eexists; reflexivity.
Qed.

Section Returns.

Variables (jsSpec config : value) (pathKey : string) (op : value) (opKey : string).
Hypothesis document_is_object : exists props, jsSpec = VObj props.
Hypothesis severities : well_formed_severities config.
Hypothesis operation : well_formed_operation jsSpec op.

Lemma guarded_push_returns (k : rule) (r : buckets) (f : finding) :
  exists r',
    (checkStatus <- member config (rule_key k) ;;
     if negb (is_string checkStatus "off") then push r checkStatus f else Ok r) = Ok r'.
Proof.
  destruct (severities k) as (s & -> & Hs); cbn [bind]. now apply push_severity_returns.
Qed.

Lemma check_consumes_returns (r : buckets) :
  exists r', check_consumes jsSpec config pathKey op opKey r = Ok r'.
Proof.
  destruct operation as (props & -> & Hc & _). destruct document_is_object as (d & ->).
  unfold check_consumes, hasLocalConsumes, hasGlobalConsumes; cbn [member bind].
  destruct (includes _ _); [|eexists; reflexivity].
  destruct (has_joined_text_returns _ Hc) as (b & ->); cbn [bind].
  destruct (negb b && _); [|eexists; reflexivity].
  apply (guarded_push_returns R1_consumes_required).
Qed.

Lemma check_produces_returns (r : buckets) :
  exists r', check_produces jsSpec config pathKey op opKey r = Ok r'.
Proof.
  destruct operation as (props & -> & _ & Hp & _). destruct document_is_object as (d & ->).
  unfold check_produces, hasLocalProduces, hasGlobalProduces; cbn [member bind].
  destruct (negb _); [|eexists; reflexivity].
  destruct (has_joined_text_returns _ Hp) as (b & ->); cbn [bind].
  destruct (negb b && _); [|eexists; reflexivity].
  apply (guarded_push_returns R3_produces_required).
Qed.

Lemma check_get_consumes_returns (r : buckets) :
  exists r', check_get_consumes config pathKey op opKey r = Ok r'.
Proof.
  destruct operation as (props & -> & _).
  unfold check_get_consumes; cbn [member bind].
  destruct (truthy _); [|eexists; reflexivity].
  apply (guarded_push_returns R2_consumes_forbidden).
Qed.

Lemma check_response_returns (s response name : value) (r : buckets) :
  is_severity s -> s <> VStr "off" ->
  well_formed_response jsSpec response ->
  (exists key, name = VStr key) ->
  exists r', check_response jsSpec pathKey opKey s response name r = Ok r'.
Proof.
  intros Hs Hoff (props & -> & Hschema) (key & ->).
  unfold check_response; cbn [member bind].
  destruct Hschema as [->|(schema & v & -> & Hv)]; cbn [or_undefined truthy];
    [eexists; reflexivity|].
  destruct (truthy schema); [|eexists; reflexivity].
  rewrite Hv; cbn [bind].
  destruct (truthy v) eqn:Ev; [|eexists; reflexivity].
  assert (exists t, member v "type" = Ok t) as (t & ->)
      by (destruct v; try discriminate; eexists; reflexivity).
  cbn [bind]. destruct (is_string t "array"); [|eexists; reflexivity].
  cbn [to_string bind].
  destruct (push_severity_returns s r
              (array_response_finding pathKey opKey key) Hs) as (r' & Hr').
  apply is_string_false in Hoff; rewrite Hoff in Hr'; cbn [negb] in Hr'.
  exists r'; exact Hr'.
Qed.

Lemma each_response_returns (s : value) (responses : list (string * value)) (r : buckets) :
  is_severity s -> s <> VStr "off" ->
  Forall (fun kv => well_formed_response jsSpec (snd kv)) responses ->
  exists r',
    each_response jsSpec pathKey opKey s (map (fun kv => (snd kv, VStr (fst kv))) responses) r
    = Ok r'.
Proof.
  intros Hs Hoff H; revert r.
  induction H as [|[key response] rest Hr _ IH]; intros r; [eexists; reflexivity|].
  cbn [map each_response fst snd].
  destruct (check_response_returns s response (VStr key) r Hs Hoff Hr
                                   (ex_intro _ key eq_refl)) as (r1 & ->).
  cbn [bind]; apply IH.
Qed.

Lemma check_array_responses_returns (r : buckets) :
  exists r', check_array_responses jsSpec config pathKey op opKey r = Ok r'.
Proof.
  destruct operation as (props & -> & _ & _ & _ & _ & _ & Hr).
  unfold check_array_responses.
  destruct (severities R6_no_array_response) as (s & Hs & Hsev).
  cbn [rule_key] in Hs; rewrite Hs; cbn [bind].
  destruct (is_string s "off") eqn:Eoff; cbn [negb]; [eexists; reflexivity|].
  cbn [member bind].
  destruct Hr as [->|(responses & -> & Hlen & Hall)]; [eexists; reflexivity|].
  cbn [entries]; rewrite Hlen.
  apply each_response_returns; try assumption. now apply is_string_false.
Qed.

Lemma check_operationId_returns (r : buckets) :
  exists r', check_operationId config pathKey op opKey r = Ok r'.
Proof.
  destruct operation as (props & -> & _ & _ & Hi & _).
  unfold check_operationId, hasOperationId; cbn [member bind].
  destruct (has_text_returns _ Hi) as (b & ->); cbn [bind].
  destruct (negb b); [|eexists; reflexivity].
  apply (guarded_push_returns R4_operationId_required).
Qed.

Lemma check_summary_returns (r : buckets) :
  exists r', check_summary config pathKey op opKey r = Ok r'.
Proof.
  destruct operation as (props & -> & _ & _ & _ & Hs & _).
  unfold check_summary, hasSummary; cbn [member bind].
  destruct (has_text_returns _ Hs) as (b & ->); cbn [bind].
  destruct (negb b); [|eexists; reflexivity].
  apply (guarded_push_returns R5_summary_required).
Qed.

Lemma parameter_loop_returns (s : value) (suffix : list value) :
  is_severity s -> s <> VStr "off" ->
  Forall (resolves_to_object jsSpec) suffix ->
  forall (pre : list value) (firstOptional : Z) (r : buckets),
  exists r',
    parameter_loop jsSpec pathKey opKey s (VArr (pre ++ suffix))
                   (seq (List.length pre) (List.length suffix)) firstOptional r
    = Ok r'.
Proof.
  intros Hs Hoff H; induction H as [|p rest (props & Hp) _ IH]; intros pre fo r;
    [eexists; reflexivity|].
  cbn [List.length seq parameter_loop].
  assert (exists next,
             parameter_step jsSpec pathKey opKey s (VArr (pre ++ p :: rest))
                            (List.length pre) fo r = Ok next) as (next & ->).
  { unfold parameter_step; cbn [index_value]. rewrite nth_middle; cbn [bind].
    rewrite Hp; cbn [bind member].
    destruct (fo <? 0)%Z; cbn [bind].
    - destruct (negb _); eexists; reflexivity.
    - destruct (truthy _); [|eexists; reflexivity].
      destruct (push_severity_returns s r
                  (parameter_order_finding pathKey opKey (List.length pre)) Hs) as (r' & Hr').
      apply is_string_false in Hoff; rewrite Hoff in Hr'; cbn [negb] in Hr'.
      unfold parameter_order_finding in Hr'; rewrite Hr'; eexists; reflexivity. }
  cbn [bind]. specialize (IH (pre ++ [p])%list (fst next) (snd next)).
  rewrite <- app_assoc, length_app in IH; cbn [app List.length] in IH.
  rewrite Nat.add_1_r in IH; exact IH.
Qed.

Lemma check_parameter_order_returns (r : buckets) :
  exists r', check_parameter_order jsSpec config pathKey op opKey r = Ok r'.
Proof.
  destruct operation as (props & -> & _ & _ & _ & _ & Hp & _).
  unfold check_parameter_order.
  destruct (severities R7_parameter_order) as (s & Hs & Hsev).
  cbn [rule_key] in Hs; rewrite Hs; cbn [bind].
  destruct (is_string s "off") eqn:Eoff; cbn [negb]; [eexists; reflexivity|].
  cbn [member bind].
  destruct Hp as [->|(parameters & -> & Hall)]; [eexists; reflexivity|].
  cbn [truthy length_of bind]. unfold gt_zero, iterations; cbn [to_number bind].
  destruct (0 <? _)%Z; [|eexists; reflexivity].
  rewrite Nat2Z.id.
  apply (parameter_loop_returns s parameters Hsev (proj1 (is_string_false _ _) Eoff) Hall []).
Qed.

(** The visit of an operation that is as the data model has it, under
    severities that are all among the three, returns. *)
Lemma visit_operation_returns (r : buckets) :
  exists r', visit_operation jsSpec config pathKey op opKey r = Ok r'.
Proof.
  unfold visit_operation.
  assert (exists excluded, member op "x-sdk-exclude" = Ok excluded) as (excluded & ->)
      by (destruct operation as (props & -> & _); eexists; reflexivity).
  cbn [bind]. destruct (is_true excluded); [eexists; reflexivity|].
  destruct (check_consumes_returns r) as (r1 & ->); cbn [bind].
  destruct (check_produces_returns r1) as (r2 & ->); cbn [bind].
  assert (exists r3, check_get jsSpec config pathKey op opKey r2 = Ok r3) as (r3 & ->).
  { unfold check_get. destruct (String.eqb _ _); [|eexists; reflexivity].
    destruct (check_get_consumes_returns r2) as (ra & ->); cbn [bind].
    apply check_array_responses_returns. }
  cbn [bind].
  destruct (check_operationId_returns r3) as (r4 & ->); cbn [bind].
  destruct (check_summary_returns r4) as (r5 & ->); cbn [bind].
  apply check_parameter_order_returns.
Qed.

End Returns.

Lemma each_operation_returns (jsSpec config : value) (pathKey : string)
      (pathOps : list (string * value)) (r : buckets) :
  (exists props, jsSpec = VObj props) ->
  well_formed_severities config ->
  (forall opKey op, In (opKey, op) pathOps -> well_formed_operation jsSpec op) ->
  exists r', each_operation jsSpec config pathKey pathOps r = Ok r'.
Proof.
  intros Hd Hc; revert r; induction pathOps as [|[opKey op] rest IH]; intros r Hall;
    [eexists; reflexivity|].
  cbn [each_operation].
  destruct (visit_operation_returns jsSpec config pathKey op opKey Hd Hc
                                    (Hall opKey op (or_introl eq_refl)) r) as (r1 & ->).
  cbn [bind]. apply IH. intros k o Hin; apply (Hall k o); now right.
Qed.

Lemma map_paths_returns (jsSpec config : value) (paths : list (string * value))
      (r : buckets) :
  (exists props, jsSpec = VObj props) ->
  well_formed_severities config ->
  Forall (fun kv => forall opKey op,
              In (opKey, op) (pick (snd kv) method_keys) ->
              well_formed_operation jsSpec op) paths ->
  exists r',
    map_paths jsSpec config (map (fun kv => (snd kv, VStr (fst kv))) paths) r = Ok r'.
Proof.
  intros Hd Hc H; revert r.
  induction H as [|[pathKey path] rest Hp _ IH]; intros r; [eexists; reflexivity|].
  cbn [map map_paths fst snd visit_path].
  destruct (String.eqb _ _); cbn [bind]; [apply IH|].
  destruct (each_operation_returns jsSpec config pathKey (pick path method_keys) r Hd Hc Hp)
    as (r1 & ->).
  cbn [bind]; apply IH.
Qed.

(** On a document that is as the data model has it, under severities that
    are all among the three, [validate] returns a findings pair. *)
Lemma validate_returns (arg config jsSpec operations : value) :
  member arg "jsSpec" = Ok jsSpec ->
  member config "operations" = Ok operations ->
  well_formed_severities operations ->
  well_formed_document jsSpec ->
  exists rep, validate arg config = Ok rep.
Proof.
  intros Hj Hc Hs (props & paths & -> & Hp & Hlen & Hall).
  unfold validate. rewrite Hj; cbn [bind]. rewrite Hc; cbn [bind member].
  rewrite Hp; cbn [map_entries entries]. rewrite Hlen; cbn [bind].
  destruct (map_paths_returns (VObj props) operations paths
                              {| error := []; warning := [] |}
                              (ex_intro _ props eq_refl) Hs Hall) as (r' & ->).
  cbn [bind]; eexists; reflexivity.
Qed.

Lemma well_formed_severities_all_errors : well_formed_severities all_errors.
Proof. intros k; exists (VStr "error"); split; [destruct k; reflexivity | now left]. Qed.

Example validate_returns_on_pets :
  let op :=
    VObj [("summary", VStr "List"); ("produces", VArr [VStr "application/json"]);
          ("parameters", VArr [VObj [("required", VBool true)]]);
          ("responses", VObj [("200", VObj [("schema", VObj [("type", VStr "array")])])])] in
  let jsSpec := VObj [("paths", VObj [("/pets", VObj [("get", op)])])] in
  well_formed_document jsSpec /\
  exists rep, validate (VObj [("jsSpec", jsSpec)]) (config_with all_errors) = Ok rep.
Proof.
  intros op jsSpec.
  assert (Hd : well_formed_document jsSpec).
  { eexists _, _; repeat split; try reflexivity.
    constructor; [|constructor]. intros opKey o [Heq|[]]; injection Heq as <- <-.
    eexists; repeat split; cbn [assoc String.eqb Ascii.eqb Bool.eqb or_undefined].
    - now left.
    - right; eexists; split; [reflexivity|]. repeat constructor. eexists; reflexivity.
    - now left.
    - right; eexists; reflexivity.
    - right; eexists; split; [reflexivity|]. repeat constructor. eexists; reflexivity.
    - right; eexists; repeat split; try reflexivity.
      repeat constructor. eexists; split; [reflexivity|].
      right; eexists _, _; split; reflexivity. }
  split; [exact Hd|].
  apply (validate_returns (VObj [("jsSpec", jsSpec)]) (config_with all_errors)
                          jsSpec all_errors eq_refl eq_refl
                          well_formed_severities_all_errors Hd).
Qed.

(** * Further properties *)

(** ** Every visit of a call *)

(** A relation between buckets that holds across every visit holds across
    the whole traversal. *)
Lemma map_paths_across (jsSpec config : value) (P : buckets -> buckets -> Prop) :
  (forall r, P r r) ->
  (forall r1 r2 r3, P r1 r2 -> P r2 r3 -> P r1 r3) ->
  (forall pathKey path opKey op r r',
      In (opKey, op) (pick path method_keys) ->
      visit_operation jsSpec config pathKey op opKey r = Ok r' -> P r r') ->
  forall paths r r', map_paths jsSpec config paths r = Ok r' -> P r r'.
Proof.
  intros Hrefl Htrans Hvisit.
  assert (Hops : forall pathKey path pathOps r r',
             (forall opKey op, In (opKey, op) pathOps ->
                               In (opKey, op) (pick path method_keys)) ->
             each_operation jsSpec config pathKey pathOps r = Ok r' -> P r r').
  { intros pathKey path pathOps; induction pathOps as [|[opKey op] rest IH];
      simpl; intros r r' Hsub H.
    - injection H as <-; apply Hrefl.
    - bind_inv H. apply (Htrans r a r').
      + apply (Hvisit pathKey path opKey op); [apply Hsub; now left | exact E].
      + apply IH; [intros k o Hin; apply Hsub; now right | exact H]. }
  induction paths as [|[path pathKey] rest IH]; simpl; intros r r' H.
  - injection H as <-; apply Hrefl.
  - bind_inv H. apply (Htrans r a r'); [|now apply IH].
    unfold visit_path in E. destruct pathKey; try discriminate.
    destruct (String.eqb _ _); [injection E as <-; apply Hrefl|].
    apply (Hops s path _ _ _ (fun _ _ Hin => Hin) E).
Qed.

Lemma validate_across (arg config jsSpec operations : value) (rep : report)
      (P : buckets -> buckets -> Prop) :
  (forall r, P r r) ->
  (forall r1 r2 r3, P r1 r2 -> P r2 r3 -> P r1 r3) ->
  (forall pathKey path opKey op r r',
      In (opKey, op) (pick path method_keys) ->
      visit_operation jsSpec operations pathKey op opKey r = Ok r' -> P r r') ->
  member arg "jsSpec" = Ok jsSpec ->
  member config "operations" = Ok operations ->
  validate arg config = Ok rep ->
  P empty_buckets {| error := errors rep; warning := warnings rep |}.
Proof.
  intros Hrefl Htrans Hvisit Hj Hc H. unfold validate in H.
  rewrite Hj in H; cbn [bind] in H. rewrite Hc in H; cbn [bind] in H.
  bind_inv H. bind_inv H. bind_inv H. injection H as <-.
  cbn [errors warnings]. destruct a1 as [e w].
  exact (map_paths_across jsSpec operations P Hrefl Htrans Hvisit _ _ _ E1).
Qed.

Lemma pick_props_method (keys : list string) (props : list (string * value))
      (k : string) (v : value) :
  In (k, v) (pick_props keys props) <-> In k keys /\ assoc k props = Some v.
Proof.
  induction keys as [|k' rest IH]; simpl; [tauto|].
  destruct (assoc k' props) as [v'|] eqn:E; simpl; rewrite IH.
  - split.
    + intros [Heq|[Hin Ha]]; [injection Heq as <- <-; auto | auto].
    + intros [[->|Hin] Ha]; [left; congruence | right; auto].
  - split.
    + intros [Hin Ha]; auto.
    + intros [[->|Hin] Ha]; [congruence | auto].
Qed.

Lemma pick_method (path : value) (opKey : string) (op : value) :
  In (opKey, op) (pick path method_keys) -> In opKey method_keys.
Proof.
  destruct path; cbn [pick In]; try tauto. intros H; now apply pick_props_method in H.
Qed.

(** ** Where findings go and what they look like *)

Lemma prefix_empty (s : string) : String.prefix EmptyString s = true.
Proof. destruct s; reflexivity. Qed.

Lemma prefix_append (a b c : string) :
  String.prefix (a ++ b) (a ++ c) = String.prefix b c.
Proof.
  induction a as [|x a IH]; [reflexivity|].
  cbn [append String.prefix]. destruct (ascii_dec x x); [exact IH | contradiction].
Qed.

Ltac locator :=
  unfold operation_locator, consumes_finding, produces_finding, get_consumes_finding,
    array_response_finding, operationId_finding, summary_finding, parameter_order_finding;
  cbn [path]; rewrite !prefix_append; cbn [append String.prefix];
  repeat (destruct (ascii_dec _ _); [|contradiction]);
  first [reflexivity | apply prefix_empty].

Section Routing.

Variables (jsSpec config : value) (pathKey : string) (op : value) (opKey : string).

Lemma visit_adds_refl (r : buckets) : visit_adds config pathKey opKey r r.
Proof. exists [], []; rewrite add_findings_nil; repeat split; constructor. Qed.

Lemma visit_adds_trans (r1 r2 r3 : buckets) :
  visit_adds config pathKey opKey r1 r2 -> visit_adds config pathKey opKey r2 r3 ->
  visit_adds config pathKey opKey r1 r3.
Proof.
  intros (e1 & w1 & -> & He1 & Hw1) (e2 & w2 & -> & He2 & Hw2).
  exists (e1 ++ e2)%list, (w1 ++ w2)%list; rewrite add_findings_add.
  repeat split; apply Forall_app; split; assumption.
Qed.

Lemma push_visit_adds (k : rule) (s : value) (f : finding) (r r' : buckets) :
  member config (rule_key k) = Ok s ->
  s <> VStr "off" ->
  message f = rule_message k ->
  String.prefix (operation_locator pathKey opKey) (path f) = true ->
  push r s f = Ok r' ->
  visit_adds config pathKey opKey r r'.
Proof.
  intros Hs Hoff Hm Hp H. apply push_Ok in H as [[Ht ->]|[Ht ->]].
  - exists [f], []; repeat split; repeat constructor; try assumption.
    exists k, s; repeat split; assumption.
  - exists [], [f]; repeat split; repeat constructor; try assumption.
    exists k, s; repeat split; assumption.
Qed.

Lemma guarded_push_visit_adds (k : rule) (f : finding) (r r' : buckets) :
  message f = rule_message k ->
  String.prefix (operation_locator pathKey opKey) (path f) = true ->
  guarded_push config (rule_key k) f r r' ->
  visit_adds config pathKey opKey r r'.
Proof.
  intros Hm Hp (s & Hs & [[_ ->]|[Hoff H]]); [apply visit_adds_refl|].
  eapply push_visit_adds; eassumption.
Qed.

Lemma each_response_visit_adds (s : value) (responses : list (value * value))
      (r r' : buckets) :
  member config "no_array_responses" = Ok s ->
  s <> VStr "off" ->
  each_response jsSpec pathKey opKey s responses r = Ok r' ->
  visit_adds config pathKey opKey r r'.
Proof.
  intros Hs Hoff; revert r.
  induction responses as [|[response name] rest IH]; simpl; intros r H.
  - injection H as <-; apply visit_adds_refl.
  - bind_inv H. eapply visit_adds_trans; [|apply IH; exact H].
    apply check_response_Ok in E as [->|(nameText & _ & E)]; [apply visit_adds_refl|].
    apply (push_visit_adds R6_no_array_response s
                           (array_response_finding pathKey opKey nameText) _ _
                           Hs Hoff eq_refl) in E; [exact E | locator].
Qed.

Lemma parameter_loop_visit_adds (s parameters : value) (indices : list nat)
      (firstOptional : Z) (r r' : buckets) :
  member config "parameter_order" = Ok s ->
  s <> VStr "off" ->
  parameter_loop jsSpec pathKey opKey s parameters indices firstOptional r = Ok r' ->
  visit_adds config pathKey opKey r r'.
Proof.
  intros Hs Hoff; revert firstOptional r.
  induction indices as [|indx rest IH]; simpl; intros fo r H.
  - injection H as <-; apply visit_adds_refl.
  - bind_inv H. eapply visit_adds_trans; [|eapply IH; exact H].
    apply parameter_step_Ok in E as [->|E]; [apply visit_adds_refl|].
    apply (push_visit_adds R7_parameter_order s
                           (parameter_order_finding pathKey opKey indx) _ _
                           Hs Hoff eq_refl) in E; [exact E | locator].
Qed.

Lemma run_rule_visit_adds (k : rule) (r r' : buckets) :
  run_rule jsSpec config pathKey op opKey k r = Ok r' ->
  visit_adds config pathKey opKey r r'.
Proof.
  destruct k; cbn [run_rule]; intros H.
  - apply check_consumes_Ok in H as [[-> _]|(_ & _ & _ & H)]; [apply visit_adds_refl|].
    apply (guarded_push_visit_adds R1_consumes_required) in H; [exact H | reflexivity | locator].
  - destruct (String.eqb _ _); [|injection H as <-; apply visit_adds_refl].
    apply check_get_consumes_Ok in H as (c & _ & [[_ ->]|[_ H]]); [apply visit_adds_refl|].
    apply (guarded_push_visit_adds R2_consumes_forbidden) in H;
      [exact H | reflexivity | locator].
  - apply check_produces_Ok in H as [[-> _]|(_ & _ & _ & H)]; [apply visit_adds_refl|].
    apply (guarded_push_visit_adds R3_produces_required) in H; [exact H | reflexivity | locator].
  - apply check_operationId_Ok in H as [[_ ->]|[_ H]]; [apply visit_adds_refl|].
    apply (guarded_push_visit_adds R4_operationId_required) in H;
      [exact H | reflexivity | locator].
  - apply check_summary_Ok in H as [[_ ->]|[_ H]]; [apply visit_adds_refl|].
    apply (guarded_push_visit_adds R5_summary_required) in H; [exact H | reflexivity | locator].
  - destruct (String.eqb _ _); [|injection H as <-; apply visit_adds_refl].
    unfold check_array_responses in H. bind_inv H.
    destruct (is_string a "off") eqn:Eoff; cbn [negb] in H;
      [injection H as <-; apply visit_adds_refl|].
    bind_inv H. apply is_string_false in Eoff.
    eapply each_response_visit_adds; eassumption.
  - unfold check_parameter_order in H. bind_inv H.
    destruct (is_string a "off") eqn:Eoff; cbn [negb] in H;
      [injection H as <-; apply visit_adds_refl|].
    bind_inv H. destruct (truthy a0); [|injection H as <-; apply visit_adds_refl].
    bind_inv H. bind_inv H. destruct a2; [|injection H as <-; apply visit_adds_refl].
    bind_inv H. apply is_string_false in Eoff.
    eapply parameter_loop_visit_adds; eassumption.
Qed.

Lemma visit_operation_visit_adds (r r' : buckets) :
  visit_operation jsSpec config pathKey op opKey r = Ok r' ->
  visit_adds config pathKey opKey r r'.
Proof.
  rewrite visit_operation_run_rules; intros H; bind_inv H.
  destruct (is_true a); [injection H as <-; apply visit_adds_refl|].
  revert r H; generalize emission_order as ks.
  induction ks as [|k ks IH]; cbn [run_rules]; intros r H.
  - injection H as <-; apply visit_adds_refl.
  - bind_inv H. eapply visit_adds_trans; [eapply run_rule_visit_adds; exact E0|].
    apply IH; exact H.
Qed.

End Routing.

Lemma call_adds_refl (config : value) (r : buckets) : call_adds config r r.
Proof. exists [], []; rewrite add_findings_nil; repeat split; constructor. Qed.

Lemma call_adds_trans (config : value) (r1 r2 r3 : buckets) :
  call_adds config r1 r2 -> call_adds config r2 r3 -> call_adds config r1 r3.
Proof.
  intros (e1 & w1 & -> & He1 & Hw1) (e2 & w2 & -> & He2 & Hw2).
  exists (e1 ++ e2)%list, (w1 ++ w2)%list; rewrite add_findings_add.
  repeat split; apply Forall_app; split; assumption.
Qed.

Lemma validate_Ok (arg config : value) (rep : report) :
  validate arg config = Ok rep ->
  exists jsSpec operations,
    member arg "jsSpec" = Ok jsSpec /\ member config "operations" = Ok operations.
Proof.
  unfold validate; intros H. bind_inv H. bind_inv H. eexists _, _; split; eassumption.
Qed.

Lemma validate_call_adds (arg config operations : value) (rep : report) :
  validate arg config = Ok rep ->
  member config "operations" = Ok operations ->
  Forall (fun f => routed operations "error" f /\ located f) (errors rep) /\
  Forall (fun f => routed operations "warning" f /\ located f) (warnings rep).
Proof.
  intros H Hc. destruct (validate_Ok _ _ _ H) as (jsSpec & ops & Hj & Hc').
  rewrite Hc in Hc'; injection Hc' as <-.
  destruct (validate_across arg config jsSpec operations rep (call_adds operations)
              (call_adds_refl _) (call_adds_trans _)) as (es & ws & Heq & He & Hw);
    try assumption.
  - intros pathKey path opKey op r r' Hin Hv.
    apply visit_operation_visit_adds in Hv as (es & ws & -> & He & Hw).
    apply pick_method in Hin.
    exists es, ws; repeat split; (eapply Forall_impl; [|eassumption]);
      intros f [Hr Hp]; (split; [exact Hr | exists pathKey, opKey; split; assumption]).
  - unfold add_findings, empty_buckets in Heq; cbn [error warning app] in Heq.
    injection Heq as -> ->; split; assumption.
Qed.

(** X1: A finding is among the errors only when the severity of its rule
    converts to [error], and among the warnings only when it converts to
    [warning]; every finding carries the message of one of the seven
    rules. *)
Theorem findings_are_routed_by_severity :
  forall (arg config operations : value) (rep : report),
    validate arg config = Ok rep ->
    member config "operations" = Ok operations ->
    Forall (routed operations "error") (errors rep) /\
    Forall (routed operations "warning") (warnings rep).
Proof.
  intros arg config operations rep H Hc.
  destruct (validate_call_adds _ _ _ _ H Hc) as [He Hw].
  split; (eapply Forall_impl; [|eassumption]); intros f [Hr _]; exact Hr.
Qed.

Lemma findings_are_routed_by_severity_witness :
  let operations :=
    severities (VStr "warning") (VStr "off") (VStr "error") (VStr "error") (VStr "warning")
               (VStr "off") (VStr "off") in
  Forall (routed operations "error")
         [produces_finding "/pets" "post"; operationId_finding "/pets" "post"] /\
  Forall (routed operations "warning")
         [consumes_finding "/pets" "post"; summary_finding "/pets" "post"].
Proof.
  intros operations.
  apply (findings_are_routed_by_severity
           (document_with [("/pets", VObj [("post", VObj [])])]) (config_with operations)
           operations
           {| errors := [produces_finding "/pets" "post"; operationId_finding "/pets" "post"];
              warnings := [consumes_finding "/pets" "post"; summary_finding "/pets" "post"] |});
    vm_compute; reflexivity.
Defined.

(** X2: A rule whose severity is [off] has no finding in what [validate]
    returns, whatever the document and the other severities are. *)
Theorem rule_that_is_off_has_no_finding :
  forall (arg config operations : value) (k : rule) (rep : report),
    validate arg config = Ok rep ->
    member config "operations" = Ok operations ->
    member operations (rule_key k) = Ok (VStr "off") ->
    with_message (rule_message k) (errors rep) = [] /\
    with_message (rule_message k) (warnings rep) = [].
Proof.
  intros arg config operations k rep H Hc Hoff.
  destruct (validate_call_adds _ _ _ _ H Hc) as [He Hw].
  assert (Hnone : forall bucket fs,
             Forall (fun f => routed operations bucket f /\ located f) fs ->
             with_message (rule_message k) fs = []).
  { intros bucket fs Hfs; induction Hfs as [|f fs [(k' & s & Hm & Hs & Hne & _) _] _ IH];
      [reflexivity|].
    cbn [with_message filter]. fold (with_message (rule_message k) fs). rewrite IH.
    destruct (String.eqb (message f) (rule_message k)) eqn:E; [|reflexivity].
    apply String.eqb_eq in E. rewrite Hm in E. apply rule_message_inj in E; subst k'.
    rewrite Hoff in Hs; injection Hs as <-. contradiction. }
  split; eapply Hnone; eassumption.
Qed.

Lemma rule_that_is_off_has_no_finding_witness :
  with_message summary_message [produces_finding "/pets" "get"; operationId_finding "/pets" "get"]
  = [] /\
  with_message summary_message [] = [].
Proof.
  apply (rule_that_is_off_has_no_finding
           (document_with [("/pets", VObj [("get", VObj [])])])
           (config_with (severities (VStr "error") (VStr "error") (VStr "error") (VStr "error")
                                    (VStr "off") (VStr "error") (VStr "error")))
           (severities (VStr "error") (VStr "error") (VStr "error") (VStr "error")
                       (VStr "off") (VStr "error") (VStr "error"))
           R5_summary_required
           {| errors := [produces_finding "/pets" "get"; operationId_finding "/pets" "get"];
              warnings := [] |});
    vm_compute; reflexivity.
Defined.

(** ** Findings collected before do not matter *)

Lemma append_add_findings (r d : buckets) (es ws : list finding) :
  add_findings r (error (add_findings d es ws)) (warning (add_findings d es ws))
  = add_findings (add_findings r (error d) (warning d)) es ws.
Proof. unfold add_findings; cbn [error warning]; now rewrite !app_assoc. Qed.

Lemma after_empty (o : outcome buckets) : after empty_buckets o = o.
Proof. destruct o as [[e w]| |]; reflexivity. Qed.

Lemma push_after (r d : buckets) (s : value) (f : finding) :
  push (add_findings r (error d) (warning d)) s f = after r (push d s f).
Proof.
  unfold push. destruct (to_string s) as [key| |]; cbn [bind after]; try reflexivity.
  destruct (String.eqb key "error"); [|destruct (String.eqb key "warning")];
    cbn [after error warning add_findings]; try reflexivity;
    unfold add_findings; cbn [error warning]; now rewrite !app_assoc.
Qed.

Lemma bind_after (r : buckets) (o : outcome buckets) (k k' : buckets -> outcome buckets) :
  (forall d, k (add_findings r (error d) (warning d)) = after r (k' d)) ->
  bind (after r o) k = after r (bind o k').
Proof. intros H; destruct o; cbn [after bind]; [apply H | reflexivity | reflexivity]. Qed.

Ltac frame :=
  repeat match goal with
         | |- context [bind ?e _] =>
             lazymatch e with
             | push _ _ _ => fail
             | _ => destruct e; cbn [bind after]
             end
         | |- context [if ?b then _ else _] => destruct b; cbn [bind after]
         end;
  first [reflexivity | apply push_after].

Section Frame.

Variables (jsSpec config : value) (pathKey : string) (op : value) (opKey : string).
Variable r : buckets.

Notation "r '+++' d" := (add_findings r (error d) (warning d)) (at level 40).

Lemma check_consumes_after (d : buckets) :
  check_consumes jsSpec config pathKey op opKey (r +++ d)
  = after r (check_consumes jsSpec config pathKey op opKey d).
Proof. unfold check_consumes; frame. Qed.

Lemma check_produces_after (d : buckets) :
  check_produces jsSpec config pathKey op opKey (r +++ d)
  = after r (check_produces jsSpec config pathKey op opKey d).
Proof. unfold check_produces; frame. Qed.

Lemma check_get_consumes_after (d : buckets) :
  check_get_consumes config pathKey op opKey (r +++ d)
  = after r (check_get_consumes config pathKey op opKey d).
Proof. unfold check_get_consumes; frame. Qed.

Lemma check_operationId_after (d : buckets) :
  check_operationId config pathKey op opKey (r +++ d)
  = after r (check_operationId config pathKey op opKey d).
Proof. unfold check_operationId; frame. Qed.

Lemma check_summary_after (d : buckets) :
  check_summary config pathKey op opKey (r +++ d)
  = after r (check_summary config pathKey op opKey d).
Proof. unfold check_summary; frame. Qed.

Lemma check_response_after (s response name : value) (d : buckets) :
  check_response jsSpec pathKey opKey s response name (r +++ d)
  = after r (check_response jsSpec pathKey opKey s response name d).
Proof. unfold check_response; frame. Qed.

Lemma each_response_after (s : value) (responses : list (value * value)) (d : buckets) :
  each_response jsSpec pathKey opKey s responses (r +++ d)
  = after r (each_response jsSpec pathKey opKey s responses d).
Proof.
  revert d; induction responses as [|[response name] rest IH]; intros d; [reflexivity|].
  cbn [each_response]. rewrite check_response_after. apply bind_after, IH.
Qed.

Lemma check_array_responses_after (d : buckets) :
  check_array_responses jsSpec config pathKey op opKey (r +++ d)
  = after r (check_array_responses jsSpec config pathKey op opKey d).
Proof.
  unfold check_array_responses.
  destruct (member config _); cbn [bind after]; try reflexivity.
  destruct (negb _); [|reflexivity].
  destruct (member op _); cbn [bind after]; try reflexivity. apply each_response_after.
Qed.

Lemma parameter_loop_after (s parameters : value) (indices : list nat) (firstOptional : Z)
      (d : buckets) :
  parameter_loop jsSpec pathKey opKey s parameters indices firstOptional (r +++ d)
  = after r (parameter_loop jsSpec pathKey opKey s parameters indices firstOptional d).
Proof.
  revert firstOptional d; induction indices as [|indx rest IH]; intros fo d; [reflexivity|].
  cbn [parameter_loop]. unfold parameter_step.
  destruct (index_value _ _); cbn [bind after]; try reflexivity.
  destruct (resolveRef _ _); cbn [bind after]; try reflexivity.
  destruct (fo <? 0)%Z.
  - destruct (member _ _); cbn [bind after]; try reflexivity.
    destruct (negb _); cbn [bind fst snd]; apply IH.
  - destruct (member _ _); cbn [bind after]; try reflexivity.
    destruct (truthy _); cbn [bind fst snd]; [|apply IH].
    rewrite push_after. destruct (push d s _); cbn [bind after fst snd]; try reflexivity.
    apply IH.
Qed.

Lemma check_parameter_order_after (d : buckets) :
  check_parameter_order jsSpec config pathKey op opKey (r +++ d)
  = after r (check_parameter_order jsSpec config pathKey op opKey d).
Proof.
  unfold check_parameter_order.
  destruct (member config _); cbn [bind after]; try reflexivity.
  destruct (negb _); [|reflexivity].
  destruct (member op _); cbn [bind after]; try reflexivity.
  destruct (truthy _); [|reflexivity].
  destruct (length_of _); cbn [bind after]; try reflexivity.
  destruct (gt_zero _) as [[|]| |]; cbn [bind after]; try reflexivity.
  destruct (iterations _); cbn [bind after]; try reflexivity.
  apply parameter_loop_after.
Qed.

Lemma visit_operation_after (d : buckets) :
  visit_operation jsSpec config pathKey op opKey (r +++ d)
  = after r (visit_operation jsSpec config pathKey op opKey d).
Proof.
  unfold visit_operation.
  destruct (member op _); cbn [bind after]; try reflexivity.
  destruct (is_true _); [reflexivity|].
  rewrite check_consumes_after. apply bind_after; intros d1.
  rewrite check_produces_after. apply bind_after; intros d2.
  assert (check_get jsSpec config pathKey op opKey (r +++ d2)
          = after r (check_get jsSpec config pathKey op opKey d2)) as ->.
  { unfold check_get. destruct (String.eqb _ _); [|reflexivity].
    rewrite check_get_consumes_after. apply bind_after, check_array_responses_after. }
  apply bind_after; intros d3.
  rewrite check_operationId_after. apply bind_after; intros d4.
  rewrite check_summary_after. apply bind_after, check_parameter_order_after.
Qed.

End Frame.

Lemma each_operation_after (jsSpec config : value) (pathKey : string)
      (pathOps : list (string * value)) (r d : buckets) :
  each_operation jsSpec config pathKey pathOps (add_findings r (error d) (warning d))
  = after r (each_operation jsSpec config pathKey pathOps d).
Proof.
  revert d; induction pathOps as [|[opKey op] rest IH]; intros d; [reflexivity|].
  cbn [each_operation]. rewrite visit_operation_after. apply bind_after, IH.
Qed.

Lemma map_paths_after (jsSpec config : value) (paths : list (value * value)) (r d : buckets) :
  map_paths jsSpec config paths (add_findings r (error d) (warning d))
  = after r (map_paths jsSpec config paths d).
Proof.
  revert d; induction paths as [|[path pathKey] rest IH]; intros d; [reflexivity|].
  cbn [map_paths].
  assert (visit_path jsSpec config path pathKey (add_findings r (error d) (warning d))
          = after r (visit_path jsSpec config path pathKey d)) as ->.
  { unfold visit_path. destruct pathKey; try reflexivity.
    destruct (String.eqb _ _); [reflexivity | apply each_operation_after]. }
  apply bind_after, IH.
Qed.

Lemma add_findings_empty (r : buckets) :
  add_findings r (error empty_buckets) (warning empty_buckets) = r.
Proof. apply add_findings_nil. Qed.

(** X3: What the visit of an operation does is the same whatever was found
    before it: it fails or not as it does from empty buckets, and it
    appends to the findings collected so far what it adds to empty ones. *)
Theorem visit_appends_its_own_findings :
  forall (jsSpec config : value) (pathKey : string) (op : value) (opKey : string)
         (r : buckets),
    visit_operation jsSpec config pathKey op opKey r
    = after r (visit_operation jsSpec config pathKey op opKey empty_buckets).
Proof.
  intros. rewrite <- visit_operation_after, add_findings_empty. reflexivity.
Qed.

(** X4: The findings of paths walked one after the other are the findings of
    the first ones followed by the findings of the later ones, as each part
    gives them alone. *)
Theorem findings_of_paths_concatenate :
  forall (jsSpec config : value) (paths1 paths2 : list (value * value)),
    map_paths jsSpec config (paths1 ++ paths2)%list empty_buckets
    = (d <- map_paths jsSpec config paths1 empty_buckets ;;
       after d (map_paths jsSpec config paths2 empty_buckets)).
Proof.
  intros jsSpec config paths1 paths2.
  assert (H : forall r,
             map_paths jsSpec config (paths1 ++ paths2)%list r
             = (d <- map_paths jsSpec config paths1 r ;;
                map_paths jsSpec config paths2 d)).
  { induction paths1 as [|[path pathKey] rest IH]; intros r; [reflexivity|].
    cbn [app map_paths]. destruct (visit_path _ _ _ _ r); cbn [bind]; try reflexivity.
    apply IH. }
  rewrite H. destruct (map_paths jsSpec config paths1 empty_buckets) as [d| |];
    cbn [bind]; try reflexivity.
  rewrite <- map_paths_after, add_findings_empty. reflexivity.
Qed.

Lemma map_paths_groups (jsSpec config : value) (paths : list (string * value)) :
  forall d,
    map_paths jsSpec config (map (fun kv => (snd kv, VStr (fst kv))) paths) empty_buckets
    = Ok d ->
    exists groups,
      Forall2 (fun entry g => path_findings jsSpec config entry = Ok g) paths groups /\
      error d = concat (map error groups) /\ warning d = concat (map warning groups).
Proof.
  induction paths as [|[pathKey path] rest IH]; intros d H.
  - injection H as <-; exists []; repeat split; constructor.
  - cbn [map map_paths fst snd] in H. bind_inv H.
    rewrite <- (add_findings_empty a), map_paths_after in H.
    destruct (map_paths jsSpec config _ empty_buckets) as [d2| |] eqn:E2;
      cbn [after] in H; try discriminate.
    injection H as <-. destruct (IH d2 eq_refl) as (groups & Hg & He & Hw).
    exists (a :: groups); repeat split.
    + constructor; [exact E | exact Hg].
    + cbn [add_findings error map concat]; now rewrite He.
    + cbn [add_findings warning map concat]; now rewrite Hw.
Qed.

(** X5: What [validate] returns for a document whose [paths] is a plain object
    is grouped by path, in the order of the paths: the errors are the
    errors that each path gives from empty buckets, one group after the
    other, and so are the warnings. *)
Theorem findings_are_grouped_by_path :
  forall (arg config jsSpec operations : value) (paths : list (string * value))
         (rep : report),
    validate arg config = Ok rep ->
    member arg "jsSpec" = Ok jsSpec ->
    member config "operations" = Ok operations ->
    member jsSpec "paths" = Ok (VObj paths) ->
    assoc "length" paths = None ->
    exists groups,
      Forall2 (fun entry g => path_findings jsSpec operations entry = Ok g) paths groups /\
      errors rep = concat (map error groups) /\
      warnings rep = concat (map warning groups).
Proof.
  intros arg config jsSpec operations paths rep H Hj Hc Hp Hlen.
  unfold validate in H. rewrite Hj in H; cbn [bind] in H. rewrite Hc in H; cbn [bind] in H.
  rewrite Hp in H; cbn [bind map_entries entries] in H. rewrite Hlen in H; cbn [bind] in H.
  bind_inv H. injection H as <-. cbn [errors warnings].
  exact (map_paths_groups jsSpec operations paths a E).
Qed.

Lemma findings_are_grouped_by_path_witness :
  let paths := [("/pets", VObj [("get", VObj [("summary", VStr "List")])]);
                ("/toys", VObj [("head", VObj [("operationId", VStr "peek")])])] in
  exists groups,
    Forall2 (fun entry g => path_findings (VObj [("paths", VObj paths)]) all_errors entry = Ok g)
            paths groups /\
    [produces_finding "/pets" "get"; operationId_finding "/pets" "get";
     summary_finding "/toys" "head"] = concat (map error groups) /\
    [] = concat (map warning groups).
Proof.
  intros paths.
  apply (findings_are_grouped_by_path
           (document_with paths) (config_with all_errors) (VObj [("paths", VObj paths)])
           all_errors paths
           {| errors := [produces_finding "/pets" "get"; operationId_finding "/pets" "get";
                         summary_finding "/toys" "head"];
              warnings := [] |});
    vm_compute; reflexivity.
Defined.

(** ** Which operations are visited *)

(** X6: The operations of a path item are those under the seven method keys,
    taken in the order get, head, post, put, patch, delete, options
    whatever their order in the document, each once; any other key is
    left out, and a path item that is not an object has none. *)
Theorem operations_are_picked_in_method_order :
  forall path : value,
    StronglySorted (fun a b => index_of (fst a) method_keys < index_of (fst b) method_keys)
                   (pick path method_keys) /\
    forall opKey op,
      In (opKey, op) (pick path method_keys) <->
      In opKey method_keys /\ exists props, path = VObj props /\ assoc opKey props = Some op.
Proof.
  intros path; split.
  - destruct path as [| | | | | |props]; try constructor.
    cbn [pick method_keys pick_props].
    destruct (assoc "get" props), (assoc "head" props), (assoc "post" props),
      (assoc "put" props), (assoc "patch" props), (assoc "delete" props),
      (assoc "options" props);
      repeat (constructor; [|repeat constructor; cbn; lia]); constructor.
  - intros opKey op; destruct path as [| | | | | |props]; cbn [pick];
      try (split; [intros [] | intros (_ & props & Heq & _); discriminate]).
    rewrite pick_props_method; split.
    + intros [Hin Ha]; split; [exact Hin | exists props; split; [reflexivity | exact Ha]].
    + intros (Hin & props' & Heq & Ha); injection Heq as <-; split; assumption.
Qed.

(** ** What is skipped *)

Lemma each_operation_excluded (jsSpec config : value) (pathKey : string)
      (pathOps : list (string * value)) (r : buckets) :
  (forall opKey op, In (opKey, op) pathOps -> is_excluded op) ->
  each_operation jsSpec config pathKey pathOps r = Ok r.
Proof.
  induction pathOps as [|[opKey op] rest IH]; intros Hall; [reflexivity|].
  cbn [each_operation]. unfold visit_operation.
  rewrite (Hall opKey op (or_introl eq_refl)); cbn [bind is_true].
  apply IH; intros k o Hin; apply (Hall k o); now right.
Qed.

Lemma map_paths_skipped (jsSpec config : value) (paths : list (string * value)) (r : buckets) :
  Forall (fun entry =>
            is_extension (fst entry) = true \/
            forall opKey op, In (opKey, op) (pick (snd entry) method_keys) -> is_excluded op)
         paths ->
  map_paths jsSpec config (map (fun kv => (snd kv, VStr (fst kv))) paths) r = Ok r.
Proof.
  induction 1 as [|[pathKey path] rest Hone _ IH]; [reflexivity|].
  cbn [map map_paths fst snd visit_path] in *.
  destruct Hone as [Hx|Hops].
  - unfold is_extension in Hx; rewrite Hx; cbn [bind]; exact IH.
  - destruct (String.eqb _ _); cbn [bind]; [exact IH|].
    rewrite (each_operation_excluded _ _ _ _ _ Hops); cbn [bind]; exact IH.
Qed.

(** X7: Nothing is read of a path whose key starts with [x-], and nothing but
    the marker of an operation that carries [x-sdk-exclude: true]: a
    document in which every path is the one or has only operations of the
    other gives the empty findings pair, whatever these paths and
    operations hold and whatever [config.operations] is, missing
    included. *)
Theorem skipped_paths_and_operations_give_nothing :
  forall (arg config jsSpec operations : value) (paths : list (string * value)),
    member arg "jsSpec" = Ok jsSpec ->
    member config "operations" = Ok operations ->
    member jsSpec "paths" = Ok (VObj paths) ->
    assoc "length" paths = None ->
    Forall (fun entry =>
              is_extension (fst entry) = true \/
              forall opKey op, In (opKey, op) (pick (snd entry) method_keys) -> is_excluded op)
           paths ->
    validate arg config = Ok {| errors := []; warnings := [] |}.
Proof.
  intros arg config jsSpec operations paths Hj Hc Hp Hlen Hall.
  unfold validate. rewrite Hj; cbn [bind]. rewrite Hc; cbn [bind].
  rewrite Hp; cbn [bind map_entries entries]. rewrite Hlen; cbn [bind].
  rewrite (map_paths_skipped _ _ _ _ Hall); reflexivity.
Qed.

Lemma skipped_paths_and_operations_give_nothing_witness :
  let broken := VObj [("parameters", VArr [VNull]); ("operationId", VNull)] in
  let paths :=
    [("x-internal", VObj [("get", broken)]);
     ("/pets", VObj [("get", VObj [("x-sdk-exclude", VBool true); ("parameters", VArr [VNull])]);
                     ("GET", broken); ("parameters", VArr [VNull])])] in
  validate (document_with paths) (VObj []) = Ok {| errors := []; warnings := [] |}.
Proof.
  intros broken paths.
  apply (skipped_paths_and_operations_give_nothing
           (document_with paths) (VObj []) (VObj [("paths", VObj paths)]) VUndefined paths);
    try reflexivity.
  constructor; [left; reflexivity|]. constructor; [|constructor].
  right; intros opKey op [Heq|[]]; injection Heq as <- <-; reflexivity.
Defined.

(** ** R4 and R5: text that is missing *)

Lemma has_text_scalar (v : value) : is_scalar v = true -> has_text v = Ok (negb (is_blank v)).
Proof.
  destruct v as [| |[|]|n|s| |]; try discriminate; intros _; try reflexivity.
  - unfold has_text; cbn [truthy]. destruct (n =? 0)%Z; reflexivity.
  - destruct s as [|c s]; [reflexivity|].
    unfold has_text, gt_zero. cbn [truthy is_empty negb length_of bind to_number String.length].
    replace (0 <? Z.of_nat (S (String.length s)))%Z with true
      by (symmetry; apply Z.ltb_lt; lia).
    reflexivity.
Qed.

Section Text.

Variables (jsSpec config : value) (pathKey : string) (op : value) (opKey severity : string).
Hypothesis names_bucket : severity = "error" \/ severity = "warning".

Lemma severity_is_not_off : is_string (VStr severity) "off" = false.
Proof. destruct names_bucket as [-> | ->]; reflexivity. Qed.

Lemma check_operationId_scalar (v : value) (r : buckets) :
  member op "operationId" = Ok v ->
  is_scalar v = true ->
  member config "no_operation_id" = Ok (VStr severity) ->
  check_operationId config pathKey op opKey r
  = Ok (if is_blank v then add_to severity r [operationId_finding pathKey opKey] else r).
Proof.
  intros Hv Hsc Hs. unfold check_operationId, hasOperationId.
  rewrite Hv; cbn [bind]. rewrite (has_text_scalar _ Hsc); cbn [bind].
  destruct (is_blank v); cbn [negb]; [|reflexivity].
  rewrite Hs; cbn [bind]. rewrite severity_is_not_off; cbn [negb].
  apply push_severity; exact names_bucket.
Qed.

Lemma check_summary_scalar (v : value) (r : buckets) :
  member op "summary" = Ok v ->
  is_scalar v = true ->
  member config "no_summary" = Ok (VStr severity) ->
  check_summary config pathKey op opKey r
  = Ok (if is_blank v then add_to severity r [summary_finding pathKey opKey] else r).
Proof.
  intros Hv Hsc Hs. unfold check_summary, hasSummary.
  rewrite Hv; cbn [bind]. rewrite (has_text_scalar _ Hsc); cbn [bind].
  destruct (is_blank v); cbn [negb]; [|reflexivity].
  rewrite Hs; cbn [bind]. rewrite severity_is_not_off; cbn [negb].
  apply push_severity; exact names_bucket.
Qed.

End Text.

(** X8: R4 on an [operationId] that is no array and no object: the check
    returns, with one finding at [paths.<pathKey>.<opKey>.operationId] in
    the bucket of the severity when the value is anything but a string
    with a character that is not white space (missing, [null], a number
    and a boolean included), and with none otherwise; this is the one R4
    finding that the visit of the operation adds. *)
Theorem operationId_is_reported_when_blank :
  forall (jsSpec config : value) (pathKey : string) (op : value) (opKey severity : string)
         (v : value) (r : buckets),
    member op "operationId" = Ok v ->
    is_scalar v = true ->
    member config "no_operation_id" = Ok (VStr severity) ->
    severity = "error" \/ severity = "warning" ->
    let found := if is_blank v then [operationId_finding pathKey opKey] else [] in
    check_operationId config pathKey op opKey r = Ok (add_to severity r found) /\
    forall r',
      visit_operation jsSpec config pathKey op opKey r = Ok r' ->
      ~ is_excluded op ->
      adds operationId_message (errors_of severity found) (warnings_of severity found) r r'.
Proof.
  intros jsSpec config pathKey op opKey severity v r Hv Hsc Hs Hsev found.
  assert (Hcheck : forall x,
             check_operationId config pathKey op opKey x = Ok (add_to severity x found)).
  { intros x. rewrite (check_operationId_scalar config pathKey op opKey severity Hsev v x Hv Hsc Hs).
    subst found; destruct (is_blank v); [reflexivity | now rewrite add_to_nil]. }
  split; [apply Hcheck|]. intros r' H Hex.
  destruct (visit_operation_rule _ _ _ _ _ R4_operationId_required _ _ H Hex)
    as (ra & rb & Hk & Hadds).
  apply Hadds. cbn [run_rule] in Hk. rewrite Hcheck in Hk; injection Hk as <-.
  subst found; destruct (is_blank v).
  - apply (add_to_adds severity (operationId_finding pathKey opKey)).
  - rewrite add_to_nil. unfold errors_of, warnings_of. destruct (String.eqb _ _); apply adds_refl.
Qed.

Lemma operationId_is_reported_when_blank_witness :
  let config := severities (VStr "off") (VStr "off") (VStr "off") (VStr "warning") (VStr "off")
                           (VStr "off") (VStr "off") in
  check_operationId config "/pets" (VObj [("operationId", VStr "   ")]) "get" empty_buckets
  = Ok {| error := []; warning := [operationId_finding "/pets" "get"] |} /\
  check_operationId config "/pets" (VObj [("operationId", VNum 42)]) "get" empty_buckets
  = Ok {| error := []; warning := [operationId_finding "/pets" "get"] |} /\
  check_operationId config "/pets" (VObj [("operationId", VStr " x ")]) "get" empty_buckets
  = Ok empty_buckets.
Proof.
  intros config. split; [|split].
  - apply (proj1 (operationId_is_reported_when_blank
                    (VObj []) config "/pets" (VObj [("operationId", VStr "   ")]) "get" "warning"
                    (VStr "   ") empty_buckets eq_refl eq_refl eq_refl (or_intror eq_refl))).
  - apply (proj1 (operationId_is_reported_when_blank
                    (VObj []) config "/pets" (VObj [("operationId", VNum 42)]) "get" "warning"
                    (VNum 42) empty_buckets eq_refl eq_refl eq_refl (or_intror eq_refl))).
  - apply (proj1 (operationId_is_reported_when_blank
                    (VObj []) config "/pets" (VObj [("operationId", VStr " x ")]) "get" "warning"
                    (VStr " x ") empty_buckets eq_refl eq_refl eq_refl (or_intror eq_refl))).
Defined.

(** X9: R5 on a [summary] that is no array and no object, likewise: one
    finding at [paths.<pathKey>.<opKey>.summary] when the value is
    anything but a string with a character that is not white space, none
    otherwise. *)
Theorem summary_is_reported_when_blank :
  forall (jsSpec config : value) (pathKey : string) (op : value) (opKey severity : string)
         (v : value) (r : buckets),
    member op "summary" = Ok v ->
    is_scalar v = true ->
    member config "no_summary" = Ok (VStr severity) ->
    severity = "error" \/ severity = "warning" ->
    let found := if is_blank v then [summary_finding pathKey opKey] else [] in
    check_summary config pathKey op opKey r = Ok (add_to severity r found) /\
    forall r',
      visit_operation jsSpec config pathKey op opKey r = Ok r' ->
      ~ is_excluded op ->
      adds summary_message (errors_of severity found) (warnings_of severity found) r r'.
Proof.
  intros jsSpec config pathKey op opKey severity v r Hv Hsc Hs Hsev found.
  assert (Hcheck : forall x,
             check_summary config pathKey op opKey x = Ok (add_to severity x found)).
  { intros x. rewrite (check_summary_scalar config pathKey op opKey severity Hsev v x Hv Hsc Hs).
    subst found; destruct (is_blank v); [reflexivity | now rewrite add_to_nil]. }
  split; [apply Hcheck|]. intros r' H Hex.
  destruct (visit_operation_rule _ _ _ _ _ R5_summary_required _ _ H Hex)
    as (ra & rb & Hk & Hadds).
  apply Hadds. cbn [run_rule] in Hk. rewrite Hcheck in Hk; injection Hk as <-.
  subst found; destruct (is_blank v).
  - apply (add_to_adds severity (summary_finding pathKey opKey)).
  - rewrite add_to_nil. unfold errors_of, warnings_of. destruct (String.eqb _ _); apply adds_refl.
Qed.

Lemma summary_is_reported_when_blank_witness :
  let config := all_errors in
  check_summary config "/pets" (VObj []) "get" empty_buckets
  = Ok {| error := [summary_finding "/pets" "get"]; warning := [] |} /\
  check_summary config "/pets" (VObj [("summary", VBool true)]) "get" empty_buckets
  = Ok {| error := [summary_finding "/pets" "get"]; warning := [] |} /\
  check_summary config "/pets" (VObj [("summary", VStr "List pets")]) "get" empty_buckets
  = Ok empty_buckets.
Proof.
  intros config. split; [|split].
  - apply (proj1 (summary_is_reported_when_blank
                    (VObj []) config "/pets" (VObj []) "get" "error"
                    VUndefined empty_buckets eq_refl eq_refl eq_refl (or_introl eq_refl))).
  - apply (proj1 (summary_is_reported_when_blank
                    (VObj []) config "/pets" (VObj [("summary", VBool true)]) "get" "error"
                    (VBool true) empty_buckets eq_refl eq_refl eq_refl (or_introl eq_refl))).
  - apply (proj1 (summary_is_reported_when_blank
                    (VObj []) config "/pets" (VObj [("summary", VStr "List pets")]) "get" "error"
                    (VStr "List pets") empty_buckets eq_refl eq_refl eq_refl
                    (or_introl eq_refl))).
Defined.

(** ** R1 and R3: the types an operation declares *)

Lemma is_empty_trim (s : string) : is_empty (trim s) = all_chars is_whitespace s.
Proof.
  induction s as [|c r IH]; [reflexivity|].
  unfold trim in *. cbn [trim_start all_chars].
  destruct (is_whitespace c) eqn:E; [exact IH|].
  cbn [trim_end]. rewrite E. destruct (trim_end r); reflexivity.
Qed.

Lemma all_chars_append (p : ascii -> bool) (a b : string) :
  all_chars p (a ++ b) = all_chars p a && all_chars p b.
Proof.
  induction a as [|c a IH]; [reflexivity|].
  cbn [append all_chars]. rewrite IH. apply andb_assoc.
Qed.

Lemma join_strings_cons (s : string) (items : list string) :
  join_strings EmptyString (s :: items) = (s ++ join_strings EmptyString items)%string.
Proof.
  destruct items as [|s2 rest]; [cbn [join_strings]; now rewrite append_empty | reflexivity].
Qed.

Lemma join_of_strings (items : list string) (first : bool) :
  join_with to_string EmptyString first (map VStr items)
  = Ok (join_strings EmptyString items).
Proof.
  revert first; induction items as [|s rest IH]; intros first; [reflexivity|].
  cbn [map join_with]. fold (join_with to_string EmptyString).
  cbn [to_string bind]. rewrite IH; cbn [bind].
  rewrite join_strings_cons. destruct first; reflexivity.
Qed.

Lemma has_visible_text_joined (items : list string) :
  has_visible_text (join_strings EmptyString items) = existsb has_visible_text items.
Proof.
  unfold has_visible_text.
  induction items as [|s rest IH]; [reflexivity|].
  rewrite join_strings_cons. cbn [existsb]. rewrite <- IH.
  rewrite !is_empty_trim, all_chars_append. apply negb_andb.
Qed.

Lemma has_joined_text_strings (items : list string) :
  has_joined_text (VArr (map VStr items)) = Ok (existsb has_visible_text items).
Proof.
  unfold has_joined_text, gt_zero. cbn [truthy length_of bind to_number].
  destruct items as [|s rest]; [reflexivity|].
  replace (0 <? Z.of_nat (List.length (map VStr (s :: rest))))%Z with true
    by (symmetry; apply Z.ltb_lt; cbn [map List.length]; lia).
  cbn [call_join]. unfold join. rewrite join_of_strings; cbn [bind].
  fold (has_visible_text (join_strings EmptyString (s :: rest))).
  now rewrite has_visible_text_joined.
Qed.

Lemma has_joined_text_string (s : string) :
  s <> EmptyString -> has_joined_text (VStr s) = TypeError.
Proof.
  destruct s as [|c s]; [contradiction|]. intros _.
  unfold has_joined_text, gt_zero. cbn [truthy is_empty negb length_of bind to_number String.length].
  replace (0 <? Z.of_nat (S (String.length s)))%Z with true
    by (symmetry; apply Z.ltb_lt; lia).
  reflexivity.
Qed.

(** X10: Lines 71 and 89 on an array of strings: the operation has local
    [consumes], or [produces], exactly when one of the strings has a
    character that is not white space; the empty array has none. *)
Theorem local_types_count_when_one_has_text :
  forall (op : value) (items : list string),
    (member op "consumes" = Ok (VArr (map VStr items)) ->
     hasLocalConsumes op = Ok (existsb has_visible_text items)) /\
    (member op "produces" = Ok (VArr (map VStr items)) ->
     hasLocalProduces op = Ok (existsb has_visible_text items)).
Proof.
  intros op items; split; intros H;
    unfold hasLocalConsumes, hasLocalProduces; rewrite H; cbn [bind];
    apply has_joined_text_strings.
Qed.

Lemma local_types_count_when_one_has_text_witness :
  hasLocalConsumes (VObj [("consumes", VArr [VStr ""; VStr "  "])]) = Ok false /\
  hasLocalProduces (VObj [("produces", VArr [VStr " "; VStr "text/plain"])]) = Ok true.
Proof.
  split.
  - apply (proj1 (local_types_count_when_one_has_text
                    (VObj [("consumes", VArr [VStr ""; VStr "  "])]) [""; "  "]) eq_refl).
  - apply (proj2 (local_types_count_when_one_has_text
                    (VObj [("produces", VArr [VStr " "; VStr "text/plain"])])
                    [" "; "text/plain"]) eq_refl).
Defined.

(** X11: A [produces] that is a string with characters in it, not an array,
    has no [join]: the R3 check raises on every operation but HEAD, and
    the visit of such an operation does not return.  The same holds of
    [consumes] and the R1 check on PUT and POST. *)
Theorem types_given_as_a_string_raise :
  forall (jsSpec config : value) (pathKey : string) (op : value) (opKey s : string)
         (r : buckets),
    In opKey method_keys ->
    s <> EmptyString ->
    (member op "produces" = Ok (VStr s) -> opKey <> "head" ->
     check_produces jsSpec config pathKey op opKey r = TypeError /\
     (~ is_excluded op ->
      forall r', visit_operation jsSpec config pathKey op opKey r <> Ok r')) /\
    (member op "consumes" = Ok (VStr s) -> opKey = "put" \/ opKey = "post" ->
     check_consumes jsSpec config pathKey op opKey r = TypeError /\
     (~ is_excluded op ->
      forall r', visit_operation jsSpec config pathKey op opKey r <> Ok r')).
Proof.
  intros jsSpec config pathKey op opKey s r Hkey Hs; split.
  - intros Hp Hhead.
    assert (Hraise : forall x, check_produces jsSpec config pathKey op opKey x = TypeError).
    { intros x. unfold check_produces. rewrite (toLowerCase_method _ Hkey).
      destruct (String.eqb opKey "head") eqn:E; [apply String.eqb_eq in E; contradiction|].
      cbn [negb]. unfold hasLocalProduces. rewrite Hp; cbn [bind].
      now rewrite (has_joined_text_string _ Hs). }
    split; [apply Hraise|]. intros Hex r' H.
    destruct (visit_operation_rule _ _ _ _ _ R3_produces_required _ _ H Hex)
      as (ra & rb & Hk & _).
    cbn [run_rule] in Hk. rewrite Hraise in Hk; discriminate.
  - intros Hc Hm.
    assert (Hraise : forall x, check_consumes jsSpec config pathKey op opKey x = TypeError).
    { intros x. unfold check_consumes. rewrite (toLowerCase_method _ Hkey).
      assert (includes ["put"; "post"] opKey = true) as ->
          by (destruct Hm as [-> | ->]; reflexivity).
      unfold hasLocalConsumes. rewrite Hc; cbn [bind].
      now rewrite (has_joined_text_string _ Hs). }
    split; [apply Hraise|]. intros Hex r' H.
    destruct (visit_operation_rule _ _ _ _ _ R1_consumes_required _ _ H Hex)
      as (ra & rb & Hk & _).
    cbn [run_rule] in Hk. rewrite Hraise in Hk; discriminate.
Qed.

Lemma types_given_as_a_string_raise_witness :
  check_produces (VObj []) all_errors "/pets" (VObj [("produces", VStr "text/plain")]) "get"
                 empty_buckets = TypeError /\
  check_consumes (VObj []) all_errors "/pets" (VObj [("consumes", VStr "text/plain")]) "post"
                 empty_buckets = TypeError.
Proof.
  split.
  - apply (proj1 (types_given_as_a_string_raise
                    (VObj []) all_errors "/pets" (VObj [("produces", VStr "text/plain")])
                    "get" "text/plain" empty_buckets
                    (or_introl eq_refl) ltac:(discriminate))).
    + reflexivity.
    + discriminate.
  - apply (proj2 (types_given_as_a_string_raise
                    (VObj []) all_errors "/pets" (VObj [("consumes", VStr "text/plain")])
                    "post" "text/plain" empty_buckets
                    (or_intror (or_intror (or_introl eq_refl))) ltac:(discriminate))).
    + reflexivity.
    + right; reflexivity.
Defined.

Lemma strings_are_listed (items : list value) :
  Forall (fun x => exists s, x = VStr s) items -> exists texts, items = map VStr texts.
Proof.
  induction 1 as [|x items (s & ->) _ (texts & ->)]; [now exists [] | now exists (s :: texts)].
Qed.

Lemma has_joined_text_declared (local : value) :
  strings_or_absent local -> has_joined_text local = Ok (names_a_type local).
Proof.
  intros [->|(items & -> & H)]; [reflexivity|].
  destruct (strings_are_listed _ H) as (texts & ->).
  rewrite has_joined_text_strings. cbn [names_a_type]. f_equal.
  induction texts as [|s rest IH]; [reflexivity|].
  cbn [map existsb]. f_equal. apply IH. now inversion H.
Qed.

Lemma check_produces_declared (jsSpec config : value) (pathKey : string) (op : value)
      (opKey severity : string) (local of_document : value) (r : buckets) :
  In opKey method_keys ->
  member op "produces" = Ok local ->
  strings_or_absent local ->
  member jsSpec "produces" = Ok of_document ->
  member config "no_produces" = Ok (VStr severity) ->
  severity = "error" \/ severity = "warning" ->
  check_produces jsSpec config pathKey op opKey r
  = Ok (if negb (String.eqb opKey "head") && negb (names_a_type local)
           && negb (truthy of_document)
        then add_to severity r [produces_finding pathKey opKey] else r).
Proof.
  intros Hkey Hl Hshape Hg Hs Hsev. unfold check_produces.
  rewrite (toLowerCase_method _ Hkey).
  destruct (String.eqb opKey "head"); [reflexivity|]. cbn [negb andb].
  unfold hasLocalProduces, hasGlobalProduces. rewrite Hl, Hg; cbn [bind].
  rewrite (has_joined_text_declared _ Hshape); cbn [bind].
  destruct (negb (names_a_type local) && negb (truthy of_document)); [|reflexivity].
  rewrite Hs; cbn [bind]. rewrite (severity_is_not_off severity Hsev); cbn [negb].
  apply push_severity; exact Hsev.
Qed.

(** X12: R3 on an operation whose [produces] is missing or an array of
    strings.  The operation lacks [produces] when it is not HEAD, none of
    the strings has a character that is not white space (there may be no
    string at all), and the [produces] of the document is falsy.  On an
    operation that lacks it the check returns with exactly one finding, at
    [paths.<pathKey>.<opKey>.produces], in the bucket of the severity of
    [no_produces], and that is the one R3 finding that the visit adds; on
    any other operation the check returns the buckets as they were and
    the visit adds no R3 finding. *)
Theorem non_head_without_produces_one_finding :
  forall (jsSpec config : value) (pathKey : string) (op : value) (opKey severity : string)
         (local of_document : value) (r : buckets),
    In opKey method_keys ->
    member op "produces" = Ok local ->
    strings_or_absent local ->
    member jsSpec "produces" = Ok of_document ->
    member config "no_produces" = Ok (VStr severity) ->
    severity = "error" \/ severity = "warning" ->
    let lacking :=
      opKey <> "head" /\ names_a_type local = false /\ truthy of_document = false in
    (lacking ->
     check_produces jsSpec config pathKey op opKey r
     = Ok (add_to severity r [produces_finding pathKey opKey])) /\
    (~ lacking -> check_produces jsSpec config pathKey op opKey r = Ok r) /\
    forall r',
      visit_operation jsSpec config pathKey op opKey r = Ok r' ->
      ~ is_excluded op ->
      (lacking ->
       adds produces_message
            (errors_of severity [produces_finding pathKey opKey])
            (warnings_of severity [produces_finding pathKey opKey]) r r') /\
      (~ lacking -> adds produces_message [] [] r r').
Proof.
  intros jsSpec config pathKey op opKey severity local of_document r Hkey Hl Hshape Hg Hs Hsev
         lacking.
  assert (Hiff : negb (String.eqb opKey "head") && negb (names_a_type local)
                 && negb (truthy of_document) = true <-> lacking).
  { unfold lacking. rewrite !andb_true_iff, !negb_true_iff, String.eqb_neq. tauto. }
  assert (Hcheck : forall x, lacking ->
             check_produces jsSpec config pathKey op opKey x
             = Ok (add_to severity x [produces_finding pathKey opKey])).
  { intros x Hlack. rewrite (check_produces_declared _ _ _ _ _ _ _ _ x Hkey Hl Hshape Hg Hs Hsev).
    apply Hiff in Hlack. now rewrite Hlack. }
  assert (Hother : forall x, ~ lacking ->
             check_produces jsSpec config pathKey op opKey x = Ok x).
  { intros x Hnot. rewrite (check_produces_declared _ _ _ _ _ _ _ _ x Hkey Hl Hshape Hg Hs Hsev).
    destruct (negb (String.eqb opKey "head") && negb (names_a_type local)
              && negb (truthy of_document)); [|reflexivity].
    exfalso; apply Hnot, Hiff; reflexivity. }
  split; [apply Hcheck|]. split; [apply Hother|].
  intros r' H Hex.
  destruct (visit_operation_rule _ _ _ _ _ R3_produces_required _ _ H Hex)
    as (ra & rb & Hk & Hadds).
  cbn [run_rule] in Hk. split.
  - intros Hlack. apply Hadds. rewrite (Hcheck ra Hlack) in Hk; injection Hk as <-.
    apply (add_to_adds severity (produces_finding pathKey opKey)).
  - intros Hnot. apply Hadds. rewrite (Hother ra Hnot) in Hk; injection Hk as <-.
    apply adds_refl.
Qed.

Lemma non_head_without_produces_one_finding_witness :
  let config :=
    severities (VStr "off") (VStr "off") (VStr "warning") (VStr "off") (VStr "off")
               (VStr "off") (VStr "off") in
  check_produces (VObj []) config "/pets" (VObj [("produces", VArr [VStr " "; VStr ""])])
                 "delete" empty_buckets
  = Ok (add_to "warning" empty_buckets [produces_finding "/pets" "delete"]) /\
  check_produces (VObj []) config "/pets" (VObj [("produces", VArr [VStr "text/plain"])])
                 "delete" empty_buckets
  = Ok empty_buckets /\
  check_produces (VObj [("produces", VArr [])]) config "/pets" (VObj []) "delete" empty_buckets
  = Ok empty_buckets.
Proof.
  intros config. split; [|split].
  - apply (proj1 (non_head_without_produces_one_finding
                    (VObj []) config "/pets" (VObj [("produces", VArr [VStr " "; VStr ""])])
                    "delete" "warning" (VArr [VStr " "; VStr ""]) VUndefined empty_buckets
                    ltac:(cbn; tauto) eq_refl
                    ltac:(right; eexists; split; [reflexivity|]; repeat constructor;
                          eexists; reflexivity)
                    eq_refl eq_refl (or_intror eq_refl))).
    split; [discriminate | split; reflexivity].
  - apply (proj1 (proj2 (non_head_without_produces_one_finding
                    (VObj []) config "/pets" (VObj [("produces", VArr [VStr "text/plain"])])
                    "delete" "warning" (VArr [VStr "text/plain"]) VUndefined empty_buckets
                    ltac:(cbn; tauto) eq_refl
                    ltac:(right; eexists; split; [reflexivity|]; repeat constructor;
                          eexists; reflexivity)
                    eq_refl eq_refl (or_intror eq_refl)))).
    intros (_ & H & _); vm_compute in H; discriminate.
  - apply (proj1 (proj2 (non_head_without_produces_one_finding
                    (VObj [("produces", VArr [])]) config "/pets" (VObj [])
                    "delete" "warning" VUndefined (VArr []) empty_buckets
                    ltac:(cbn; tauto) eq_refl ltac:(now left)
                    eq_refl eq_refl (or_intror eq_refl)))).
    intros (_ & _ & H); discriminate.
Defined.

(** ** Which operations a rule reports *)

Lemma add_findings_inj (r : buckets) (es ws es' ws' : list finding) :
  add_findings r es ws = add_findings r es' ws' -> es = es' /\ ws = ws'.
Proof.
  unfold add_findings; intros H; injection H as He Hw.
  split; eapply app_inv_head; eassumption.
Qed.

Lemma finding_of_message (k : rule) (pathKey opKey : string) (f : finding) :
  finding_of k pathKey opKey f ->
  message f = rule_message k /\
  String.prefix (operation_locator pathKey opKey) (path f) = true.
Proof.
  destruct k; cbn [finding_of single_finding];
    [intros H; injection H as <- | intros H; injection H as <- | intros H; injection H as <-
    |intros H; injection H as <- | intros H; injection H as <- | intros (nameText & ->)
    |intros (indx & ->)];
    (split; [reflexivity | locator]).
Qed.

Section Placement.

Variables (jsSpec config : value) (pathKey : string) (op : value) (opKey : string).

Lemma adds_of_refl (k : rule) (r : buckets) : adds_of k pathKey opKey r r.
Proof. exists [], []; rewrite add_findings_nil; repeat split; constructor. Qed.

Lemma adds_of_trans (k : rule) (r1 r2 r3 : buckets) :
  adds_of k pathKey opKey r1 r2 -> adds_of k pathKey opKey r2 r3 ->
  adds_of k pathKey opKey r1 r3.
Proof.
  intros (e1 & w1 & -> & He1 & Hw1) (e2 & w2 & -> & He2 & Hw2).
  exists (e1 ++ e2)%list, (w1 ++ w2)%list; rewrite add_findings_add.
  repeat split; apply Forall_app; split; assumption.
Qed.

Lemma push_adds_of (k : rule) (s : value) (f : finding) (r r' : buckets) :
  finding_of k pathKey opKey f -> push r s f = Ok r' -> adds_of k pathKey opKey r r'.
Proof.
  intros Hf H. apply push_Ok in H as [[_ ->]|[_ ->]].
  - exists [f], []; repeat split; repeat constructor; exact Hf.
  - exists [], [f]; repeat split; repeat constructor; exact Hf.
Qed.

Lemma guarded_push_adds_of (k : rule) (key : string) (f : finding) (r r' : buckets) :
  finding_of k pathKey opKey f -> guarded_push config key f r r' ->
  adds_of k pathKey opKey r r'.
Proof.
  intros Hf (s & _ & [[_ ->]|[_ H]]); [apply adds_of_refl|].
  eapply push_adds_of; eassumption.
Qed.

Lemma each_response_adds_of (s : value) (responses : list (value * value)) (r r' : buckets) :
  each_response jsSpec pathKey opKey s responses r = Ok r' ->
  adds_of R6_no_array_response pathKey opKey r r'.
Proof.
  revert r; induction responses as [|[response name] rest IH]; simpl; intros r H.
  - injection H as <-; apply adds_of_refl.
  - bind_inv H. eapply adds_of_trans; [|apply IH; exact H].
    apply check_response_Ok in E as [->|(nameText & _ & E)]; [apply adds_of_refl|].
    eapply push_adds_of; [|exact E]. exists nameText; reflexivity.
Qed.

Lemma parameter_loop_adds_of (s parameters : value) (indices : list nat) (firstOptional : Z)
      (r r' : buckets) :
  parameter_loop jsSpec pathKey opKey s parameters indices firstOptional r = Ok r' ->
  adds_of R7_parameter_order pathKey opKey r r'.
Proof.
  revert firstOptional r; induction indices as [|indx rest IH]; simpl; intros fo r H.
  - injection H as <-; apply adds_of_refl.
  - bind_inv H. eapply adds_of_trans; [|eapply IH; exact H].
    apply parameter_step_Ok in E as [->|E]; [apply adds_of_refl|].
    eapply push_adds_of; [|exact E]. exists indx; reflexivity.
Qed.

Lemma run_rule_adds_of (k : rule) (r r' : buckets) :
  run_rule jsSpec config pathKey op opKey k r = Ok r' -> adds_of k pathKey opKey r r'.
Proof.
  destruct k; cbn [run_rule]; intros H.
  - apply check_consumes_Ok in H as [[-> _]|(_ & _ & _ & H)]; [apply adds_of_refl|].
    eapply guarded_push_adds_of; [|exact H]; reflexivity.
  - destruct (String.eqb _ _); [|injection H as <-; apply adds_of_refl].
    apply check_get_consumes_Ok in H as (c & _ & [[_ ->]|[_ H]]); [apply adds_of_refl|].
    eapply guarded_push_adds_of; [|exact H]; reflexivity.
  - apply check_produces_Ok in H as [[-> _]|(_ & _ & _ & H)]; [apply adds_of_refl|].
    eapply guarded_push_adds_of; [|exact H]; reflexivity.
  - apply check_operationId_Ok in H as [[_ ->]|[_ H]]; [apply adds_of_refl|].
    eapply guarded_push_adds_of; [|exact H]; reflexivity.
  - apply check_summary_Ok in H as [[_ ->]|[_ H]]; [apply adds_of_refl|].
    eapply guarded_push_adds_of; [|exact H]; reflexivity.
  - destruct (String.eqb _ _); [|injection H as <-; apply adds_of_refl].
    unfold check_array_responses in H. bind_inv H.
    destruct (negb _); [|injection H as <-; apply adds_of_refl].
    bind_inv H. eapply each_response_adds_of; exact H.
  - unfold check_parameter_order in H. bind_inv H.
    destruct (negb _); [|injection H as <-; apply adds_of_refl].
    bind_inv H. destruct (truthy a0); [|injection H as <-; apply adds_of_refl].
    bind_inv H. bind_inv H. destruct a2; [|injection H as <-; apply adds_of_refl].
    bind_inv H. eapply parameter_loop_adds_of; exact H.
Qed.

Lemma run_rule_applies (k : rule) (r r' : buckets) :
  run_rule jsSpec config pathKey op opKey k r = Ok r' ->
  applies_to k opKey = false ->
  r' = r.
Proof.
  destruct k; cbn [run_rule applies_to]; intros H Ha; try discriminate.
  - unfold check_consumes in H; rewrite Ha in H; congruence.
  - rewrite Ha in H; congruence.
  - unfold check_produces in H. apply negb_false_iff in Ha. rewrite Ha in H.
    cbn [negb] in H; congruence.
  - rewrite Ha in H; congruence.
Qed.

Lemma run_rule_placed (k : rule) (r r' : buckets) :
  run_rule jsSpec config pathKey op opKey k r = Ok r' ->
  exists es ws,
    r' = add_findings r es ws /\
    Forall (placed_at pathKey opKey) es /\ Forall (placed_at pathKey opKey) ws.
Proof.
  intros H. destruct (applies_to k opKey) eqn:Ha.
  - destruct (run_rule_adds_of _ _ _ H) as (es & ws & Heq & He & Hw).
    exists es, ws; split; [exact Heq|].
    split; (eapply Forall_impl; [|eassumption]); intros f Hf; exists k; split; assumption.
  - rewrite (run_rule_applies _ _ _ H Ha).
    exists [], []; rewrite add_findings_nil; repeat split; constructor.
Qed.

Lemma visit_operation_placed (r r' : buckets) :
  visit_operation jsSpec config pathKey op opKey r = Ok r' ->
  exists es ws,
    r' = add_findings r es ws /\
    Forall (placed_at pathKey opKey) es /\ Forall (placed_at pathKey opKey) ws.
Proof.
  rewrite visit_operation_run_rules; intros H; bind_inv H.
  destruct (is_true a);
    [injection H as <-; exists [], []; rewrite add_findings_nil; repeat split; constructor|].
  revert r H; generalize emission_order as ks.
  induction ks as [|k ks IH]; cbn [run_rules]; intros r H.
  - injection H as <-; exists [], []; rewrite add_findings_nil; repeat split; constructor.
  - bind_inv H.
    destruct (run_rule_placed _ _ _ E0) as (e1 & w1 & -> & He1 & Hw1).
    destruct (IH _ H) as (e2 & w2 & -> & He2 & Hw2).
    exists (e1 ++ e2)%list, (w1 ++ w2)%list; rewrite add_findings_add.
    repeat split; apply Forall_app; split; assumption.
Qed.

End Placement.

(** X13: A rule with one place to report adds at most one finding in the
    visit of an operation: R1 to R5 each add nothing or their one finding
    for the operation, to one of the two buckets. *)
Theorem a_visit_reports_a_field_at_most_once :
  forall (jsSpec config : value) (pathKey : string) (op : value) (opKey : string)
         (k : rule) (f : finding) (r r' : buckets),
    single_finding k pathKey opKey = Some f ->
    visit_operation jsSpec config pathKey op opKey r = Ok r' ->
    exists es ws,
      adds (rule_message k) es ws r r' /\
      ((es = [] /\ ws = []) \/ (es = [f] /\ ws = []) \/ (es = [] /\ ws = [f])).
Proof.
  intros jsSpec config pathKey op opKey k f r r' Hf H.
  destruct (visit_operation_skipped_or_not _ _ _ _ _ _ _ H) as [->|Hex];
    [exists [], []; split; [apply adds_refl | now left]|].
  destruct (visit_operation_rule _ _ _ _ _ k _ _ H Hex) as (ra & rb & Hk & Hadds).
  assert (Hm : message f = rule_message k)
    by (destruct k; try discriminate; injection Hf as <-; reflexivity).
  assert (Hone : rb = ra \/ exists s, push ra s f = Ok rb).
  { destruct k; try discriminate; cbn [single_finding] in Hf; injection Hf as <-;
      cbn [run_rule] in Hk.
    - apply check_consumes_Ok in Hk as [[-> _]|(_ & _ & _ & s & _ & [[_ ->]|[_ Hk]])];
        [now left | now left | right; now exists s].
    - destruct (String.eqb _ _); [|injection Hk as <-; now left].
      apply check_get_consumes_Ok in Hk
        as (c & _ & [[_ ->]|[_ (s & _ & [[_ ->]|[_ Hk]])]]);
        [now left | now left | right; now exists s].
    - apply check_produces_Ok in Hk as [[-> _]|(_ & _ & _ & s & _ & [[_ ->]|[_ Hk]])];
        [now left | now left | right; now exists s].
    - apply check_operationId_Ok in Hk as [[_ ->]|[_ (s & _ & [[_ ->]|[_ Hk]])]];
        [now left | now left | right; now exists s].
    - apply check_summary_Ok in Hk as [[_ ->]|[_ (s & _ & [[_ ->]|[_ Hk]])]];
        [now left | now left | right; now exists s]. }
  destruct Hone as [->|(s & Hp)].
  - exists [], []; split; [apply Hadds, adds_refl | now left].
  - apply push_Ok in Hp as [[_ ->]|[_ ->]].
    + exists [f], []; split; [|right; now left].
      apply Hadds. rewrite <- Hm.
      apply (emits_only_adds (message f) [f] [] ra); repeat constructor.
    + exists [], [f]; split; [|right; now right].
      apply Hadds. rewrite <- Hm.
      apply (emits_only_adds (message f) [] [f] ra); repeat constructor.
Qed.

Lemma a_visit_reports_a_field_at_most_once_witness :
  exists es ws,
    adds summary_message es ws empty_buckets
         {| error := [operationId_finding "/pets" "get"];
            warning := [produces_finding "/pets" "get"; summary_finding "/pets" "get"] |} /\
    ((es = [] /\ ws = []) \/ (es = [summary_finding "/pets" "get"] /\ ws = []) \/
     (es = [] /\ ws = [summary_finding "/pets" "get"])).
Proof.
  apply (a_visit_reports_a_field_at_most_once
           (VObj []) (severities (VStr "error") (VStr "error") (VStr "warning") (VStr "error")
                                 (VStr "warning") (VStr "error") (VStr "error"))
           "/pets" (VObj []) "get" R5_summary_required (summary_finding "/pets" "get")
           empty_buckets);
    vm_compute; reflexivity.
Defined.


Lemma adds_placed_refl (r : buckets) : adds_placed r r.
Proof. exists [], []; rewrite add_findings_nil; repeat split; constructor. Qed.

Lemma adds_placed_trans (r1 r2 r3 : buckets) :
  adds_placed r1 r2 -> adds_placed r2 r3 -> adds_placed r1 r3.
Proof.
  intros (e1 & w1 & -> & He1 & Hw1) (e2 & w2 & -> & He2 & Hw2).
  exists (e1 ++ e2)%list, (w1 ++ w2)%list; rewrite add_findings_add.
  repeat split; apply Forall_app; split; assumption.
Qed.

(** X14: Every finding that [validate] returns is a finding of one of the
    seven rules for an operation under one of the seven method keys, with
    the message of the rule and the locator
    [paths.<pathKey>.<opKey>.<field>] of what it is about, and the rule
    applies to the operation: R1 is reported on [put] and [post] only, R2
    and R6 on [get] only, and R3 never on [head]. *)
Theorem findings_are_placed_at_operations :
  forall (arg config : value) (rep : report),
    validate arg config = Ok rep ->
    Forall placed (errors rep) /\ Forall placed (warnings rep).
Proof.
  intros arg config rep H.
  destruct (validate_Ok _ _ _ H) as (jsSpec & operations & Hj & Hc).
  destruct (validate_across arg config jsSpec operations rep adds_placed
              adds_placed_refl adds_placed_trans) as (es & ws & Heq & He & Hw);
    try assumption.
  - intros pathKey path opKey op r r' Hin Hv.
    apply visit_operation_placed in Hv as (es & ws & -> & He & Hw).
    apply pick_method in Hin.
    exists es, ws; repeat split; (eapply Forall_impl; [|eassumption]);
      intros f Hf; exists pathKey, opKey; split; assumption.
  - unfold add_findings, empty_buckets in Heq; cbn [error warning app] in Heq.
    injection Heq as -> ->; split; assumption.
Qed.

Lemma findings_are_placed_at_operations_witness :
  Forall placed [produces_finding "/pets" "get"; get_consumes_finding "/pets" "get";
                 operationId_finding "/pets" "get"; summary_finding "/pets" "get";
                 parameter_order_finding "/pets" "get" 1] /\
  Forall placed [].
Proof.
  apply (findings_are_placed_at_operations
           (document_with
              [("/pets",
                VObj [("get", VObj [("consumes", VArr []);
                                    ("parameters",
                                     VArr [VObj []; VObj [("required", VBool true)]])])])])
           (config_with all_errors)
           {| errors := [produces_finding "/pets" "get"; get_consumes_finding "/pets" "get";
                         operationId_finding "/pets" "get"; summary_finding "/pets" "get";
                         parameter_order_finding "/pets" "get" 1];
              warnings := [] |}).
  vm_compute; reflexivity.
Defined.

(** ** The types of the document *)

Lemma validate_adds_nothing (arg config jsSpec : value) (m : string) (rep : report) :
  (forall operations pathKey op opKey r r',
      visit_operation jsSpec operations pathKey op opKey r = Ok r' -> adds m [] [] r r') ->
  member arg "jsSpec" = Ok jsSpec ->
  validate arg config = Ok rep ->
  with_message m (errors rep) = [] /\ with_message m (warnings rep) = [].
Proof.
  intros Hvisit Hj H.
  destruct (validate_Ok _ _ _ H) as (jsSpec' & operations & Hj' & Hc).
  rewrite Hj in Hj'; injection Hj' as <-.
  destruct (validate_across arg config jsSpec operations rep (adds m [] [])
              (adds_refl m) (fun r1 r2 r3 => adds_trans m [] [] [] [] r1 r2 r3))
    as (es & ws & Heq & He & Hw); try assumption.
  - intros pathKey path opKey op r r' _ Hv; eapply Hvisit; exact Hv.
  - unfold add_findings, empty_buckets in Heq; cbn [error warning app] in Heq.
    injection Heq as -> ->; split; assumption.
Qed.

(** X15: A [consumes] of the document that is truthy, the empty array
    included, leaves R1 without a finding in the whole call, whatever the
    operations have; a truthy [produces] of the document does the same
    for R3. *)
Theorem types_of_the_document_silence_R1_and_R3 :
  forall (arg config jsSpec : value) (rep : report),
    validate arg config = Ok rep ->
    member arg "jsSpec" = Ok jsSpec ->
    (forall v, member jsSpec "consumes" = Ok v -> truthy v = true ->
               with_message consumes_message (errors rep) = [] /\
               with_message consumes_message (warnings rep) = []) /\
    (forall v, member jsSpec "produces" = Ok v -> truthy v = true ->
               with_message produces_message (errors rep) = [] /\
               with_message produces_message (warnings rep) = []).
Proof.
  intros arg config jsSpec rep H Hj; split; intros v Hv Ht;
    apply (validate_adds_nothing arg config jsSpec _ rep); try assumption;
    intros operations pathKey op opKey r r' Hvisit;
    (destruct (visit_operation_skipped_or_not _ _ _ _ _ _ _ Hvisit) as [->|Hex];
     [apply adds_refl|]).
  - destruct (visit_operation_rule _ _ _ _ _ R1_consumes_required _ _ Hvisit Hex)
      as (ra & rb & Hk & Hadds).
    apply Hadds. cbn [run_rule] in Hk.
    apply check_consumes_Ok in Hk as [[-> _]|(_ & _ & Hg & _)]; [apply adds_refl|].
    unfold hasGlobalConsumes in Hg. rewrite Hv in Hg; cbn [bind] in Hg. congruence.
  - destruct (visit_operation_rule _ _ _ _ _ R3_produces_required _ _ Hvisit Hex)
      as (ra & rb & Hk & Hadds).
    apply Hadds. cbn [run_rule] in Hk.
    apply check_produces_Ok in Hk as [[-> _]|(_ & _ & Hg & _)]; [apply adds_refl|].
    unfold hasGlobalProduces in Hg. rewrite Hv in Hg; cbn [bind] in Hg. congruence.
Qed.

Lemma types_of_the_document_silence_R1_and_R3_witness :
  with_message consumes_message
               [produces_finding "/pets" "post"; operationId_finding "/pets" "post";
                summary_finding "/pets" "post"] = [] /\
  with_message consumes_message [] = [].
Proof.
  apply (proj1 (types_of_the_document_silence_R1_and_R3
                  (VObj [("jsSpec",
                          VObj [("consumes", VArr []);
                                ("paths", VObj [("/pets", VObj [("post", VObj [])])])])])
                  (config_with all_errors)
                  (VObj [("consumes", VArr []);
                         ("paths", VObj [("/pets", VObj [("post", VObj [])])])])
                  {| errors := [produces_finding "/pets" "post";
                                operationId_finding "/pets" "post";
                                summary_finding "/pets" "post"];
                     warnings := [] |}
                  ltac:(vm_compute; reflexivity) eq_refl) (VArr [])); reflexivity.
Defined.
(** ** The reference resolver *)

Lemma baseGet_loop_missing (jsSpec : value) (keys : list string) :
  missing_at jsSpec keys = true -> baseGet_loop jsSpec keys = Ok VUndefined.
Proof.
  revert jsSpec; induction keys as [|key rest IH]; intros jsSpec H; [discriminate|].
  cbn [missing_at] in H. destruct jsSpec as [| | | | | |props]; try discriminate.
  cbn [baseGet_loop read_property].
  destruct (assoc key props) as [x|]; cbn [bind]; [apply IH; exact H|].
  apply negb_true_iff in H; rewrite H; cbn [bind].
  destruct rest; reflexivity.
Qed.

Lemma resolveRef_root_key (obj : value) (props : list (string * value)) (v : value)
      (segments : list string) :
  member obj "$ref" = Ok (VStr (pointer_to segments)) ->
  segments <> [] ->
  Forall (fun s => clean_segment s = true) segments ->
  assoc (path_of segments) props = Some v ->
  resolveRef obj (VObj props) = Ok v.
Proof.
  intros Href Hne Hclean Hkey. unfold resolveRef. rewrite Href; cbn [bind].
  change (truthy (VStr (pointer_to segments))) with true. cbn [negb call_startsWith bind].
  assert (String.prefix "#/" (pointer_to segments) = true) as ->
    by (unfold pointer_to; simpl; destruct (join_strings "/" segments); reflexivity).
  cbn [negb call_split bind].
  change (split_on "/" (pointer_to segments))
    with (String "#" EmptyString :: split_on "/" (join_strings "/" segments)).
  rewrite (split_on_join _ Hne Hclean). cbn [tl].
  fold (path_of segments).
  unfold at_first, baseGet, castPath.
  rewrite (isKey_path_of _ _ Hne Hclean). cbn [in_object]. unfold has_key. rewrite Hkey.
  cbn [baseGet_loop read_property]. rewrite Hkey. reflexivity.
Qed.

(** X16: A pointer [#/...] whose segments have no slash, double quote or
    backslash in them (dots and brackets are allowed).
    - When the path that line 42 builds of the segments is not itself an
      own key of the document, the pointer is read key by key.  It
      resolves to the value that the document stores under these keys,
      each an own key of the object reached before it.  And it resolves
      to [undefined] when the walk through these objects comes to a key
      that the object reached does not have and that is not the name of
      a member of [Object.prototype] either ([constructor], [toString]
      and the like read the inherited member, which is left out here);
      R6 then skips the response whose schema the pointer is, with no
      finding.
    - When that path is an own key of the document, the pointer resolves
      to the value of this key, whatever the segments name. *)
Theorem pointer_reads_the_named_keys :
  forall (obj jsSpec : value) (segments : list string),
    member obj "$ref" = Ok (VStr (pointer_to segments)) ->
    segments <> [] ->
    Forall (fun s => clean_segment s = true) segments ->
    (in_object (path_of segments) jsSpec = false ->
     (forall v, stored_at jsSpec segments = Some v -> resolveRef obj jsSpec = Ok v) /\
     (missing_at jsSpec segments = true ->
      resolveRef obj jsSpec = Ok VUndefined /\
      forall pathKey opKey checkStatus response name r,
        member response "schema" = Ok obj ->
        check_response jsSpec pathKey opKey checkStatus response name r = Ok r)) /\
    (forall props v,
        jsSpec = VObj props ->
        assoc (path_of segments) props = Some v ->
        resolveRef obj jsSpec = Ok v).
Proof.
  intros obj jsSpec segments Href Hne Hclean; split.
  - intros Hroot; split.
    + intros v Hv. now apply (resolveRef_resolves_stored_value obj jsSpec v segments).
    + intros Hm.
      assert (Hr : resolveRef obj jsSpec = Ok VUndefined).
      { rewrite (resolveRef_clean_pointer _ _ _ Href Hne Hclean Hroot).
        now apply baseGet_loop_missing. }
      split; [exact Hr|].
      intros pathKey opKey checkStatus response name r Hs.
      now apply (unresolved_schema_is_skipped jsSpec pathKey opKey checkStatus response name
                                              obj).
  - intros props v -> Hkey. now apply (resolveRef_root_key obj props v segments).
Qed.

Lemma pointer_reads_the_named_keys_witness :
  let jsSpec := VObj [("definitions", VObj [("a.b[0]", VObj [("type", VStr "array")])])] in
  resolveRef (VObj [("$ref", VStr "#/definitions/a.b[0]")]) jsSpec
  = Ok (VObj [("type", VStr "array")]) /\
  resolveRef (VObj [("$ref", VStr "#/definitions/Pet/properties")]) jsSpec = Ok VUndefined /\
  resolveRef (VObj [("$ref", VStr "#/definitions/Pet")])
             (VObj [("definitions", VObj [("Pet", VObj [("type", VStr "array")])]);
                    (path_of ["definitions"; "Pet"], VNum 7)])
  = Ok (VNum 7).
Proof.
  intros jsSpec; split; [|split].
  - destruct (pointer_reads_the_named_keys
                (VObj [("$ref", VStr "#/definitions/a.b[0]")]) jsSpec
                ["definitions"; "a.b[0]"]) as [Hwalk _].
    + reflexivity.
    + discriminate.
    + repeat constructor.
    + destruct Hwalk as [Hstored _]; [vm_compute; reflexivity|].
      apply Hstored; reflexivity.
  - destruct (pointer_reads_the_named_keys
                (VObj [("$ref", VStr "#/definitions/Pet/properties")]) jsSpec
                ["definitions"; "Pet"; "properties"]) as [Hwalk _].
    + reflexivity.
    + discriminate.
    + repeat constructor.
    + destruct Hwalk as [_ Hmissing]; [vm_compute; reflexivity|].
      apply Hmissing; reflexivity.
  - destruct (pointer_reads_the_named_keys
                (VObj [("$ref", VStr "#/definitions/Pet")])
                (VObj [("definitions", VObj [("Pet", VObj [("type", VStr "array")])]);
                       (path_of ["definitions"; "Pet"], VNum 7)])
                ["definitions"; "Pet"]) as [_ Hroot].
    + reflexivity.
    + discriminate.
    + repeat constructor.
    + eapply Hroot; [reflexivity|]. vm_compute; reflexivity.
Defined.

Lemma resolveRef_external (obj jsSpec : value) :
  is_external obj -> resolveRef obj jsSpec = Ok (VObj []).
Proof.
  intros (s & Href & Hs & Hp). unfold resolveRef. rewrite Href; cbn [bind truthy].
  destruct s as [|c s]; [contradiction|]. cbn [is_empty negb call_startsWith bind].
  rewrite Hp; reflexivity.
Qed.

(** X17: A reference that does not start with [#/] resolves to an empty
    object, whatever the document holds: R6 has no finding for a response
    whose schema it is, and R7 takes a parameter that is such a reference
    for an optional one, so that it starts the optional region when none
    was seen before and is never reported. *)
Theorem external_reference_is_an_empty_object :
  forall (obj jsSpec : value),
    is_external obj ->
    resolveRef obj jsSpec = Ok (VObj []) /\
    (forall pathKey opKey checkStatus response name r,
        member response "schema" = Ok obj ->
        check_response jsSpec pathKey opKey checkStatus response name r = Ok r) /\
    (forall pathKey opKey checkStatus parameters indx firstOptional r,
        index_value parameters indx = Ok obj ->
        parameter_step jsSpec pathKey opKey checkStatus parameters indx firstOptional r
        = Ok (if (firstOptional <? 0)%Z then Z.of_nat indx else firstOptional, r)).
Proof.
  intros obj jsSpec Hext.
  pose proof (resolveRef_external obj jsSpec Hext) as Hr.
  split; [exact Hr|]. split.
  - intros pathKey opKey checkStatus response name r Hs.
    unfold check_response. rewrite Hs; cbn [bind].
    destruct (truthy obj); [|reflexivity]. rewrite Hr; reflexivity.
  - intros pathKey opKey checkStatus parameters indx fo r Hi.
    unfold parameter_step. rewrite Hi; cbn [bind]. rewrite Hr; cbn [bind].
    destruct (fo <? 0)%Z; reflexivity.
Qed.

Lemma external_reference_is_an_empty_object_witness :
  resolveRef (VObj [("$ref", VStr "other.yaml#/definitions/Pet")])
             (VObj [("definitions", VObj [("Pet", VObj [("type", VStr "array")])])])
  = Ok (VObj []).
Proof.
  apply external_reference_is_an_empty_object.
  exists "other.yaml#/definitions/Pet".
  split; [reflexivity|]. split; [discriminate | reflexivity].
Defined.

(** X18: A [$ref] that is truthy and not a string has no [startsWith]: the
    resolver raises, and so do R6 on a response with such a schema and R7
    on such a parameter. *)
Theorem reference_that_is_no_string_raises :
  forall (obj jsSpec ref : value),
    member obj "$ref" = Ok ref ->
    truthy ref = true ->
    (forall s, ref <> VStr s) ->
    resolveRef obj jsSpec = TypeError /\
    (forall pathKey opKey checkStatus response name r,
        member response "schema" = Ok obj ->
        check_response jsSpec pathKey opKey checkStatus response name r = TypeError) /\
    (forall pathKey opKey checkStatus parameters indx firstOptional r,
        index_value parameters indx = Ok obj ->
        parameter_step jsSpec pathKey opKey checkStatus parameters indx firstOptional r
        = TypeError).
Proof.
  intros obj jsSpec ref Href Ht Hns.
  assert (Hr : resolveRef obj jsSpec = TypeError).
  { unfold resolveRef. rewrite Href; cbn [bind]. rewrite Ht; cbn [negb].
    destruct ref; try reflexivity. exfalso; now apply (Hns s). }
  split; [exact Hr|]. split.
  - intros pathKey opKey checkStatus response name r Hs.
    unfold check_response. rewrite Hs; cbn [bind].
    assert (truthy obj = true) as ->.
    { destruct obj as [| | | | | |props]; try discriminate; try reflexivity;
        cbn [member] in Href; injection Href as <-; discriminate. }
    rewrite Hr; reflexivity.
  - intros pathKey opKey checkStatus parameters indx fo r Hi.
    unfold parameter_step. rewrite Hi; cbn [bind]. rewrite Hr; reflexivity.
Qed.

Lemma reference_that_is_no_string_raises_witness :
  resolveRef (VObj [("$ref", VNum 7)]) (VObj []) = TypeError.
Proof.
  apply (reference_that_is_no_string_raises (VObj [("$ref", VNum 7)]) (VObj []) (VNum 7)).
  - reflexivity.
  - reflexivity.
  - discriminate.
Defined.

(** ** R6: schemas that are arrays *)

Section Array_responses.

Variables (jsSpec : value) (pathKey opKey severity : string).
Hypothesis names_bucket : severity = "error" \/ severity = "warning".

Lemma check_response_has_array_schema (response : value) (name : string) (found : bool)
      (r : buckets) :
  has_array_schema jsSpec response = Ok found ->
  check_response jsSpec pathKey opKey (VStr severity) response (VStr name) r
  = Ok (if found then add_to severity r [array_response_finding pathKey opKey name] else r).
Proof.
  unfold has_array_schema, check_response.
  destruct (member response "schema") as [schema| |]; cbn [bind]; try discriminate.
  destruct (truthy schema); [|intros H; injection H as <-; reflexivity].
  destruct (resolveRef schema jsSpec) as [responseSchema| |]; cbn [bind]; try discriminate.
  destruct (truthy responseSchema); [|intros H; injection H as <-; reflexivity].
  destruct (member responseSchema "type") as [type| |]; cbn [bind]; try discriminate.
  intros H; injection H as <-.
  destruct (is_string type "array"); [|reflexivity].
  cbn [to_string bind]. apply push_severity; exact names_bucket.
Qed.

Lemma each_response_array_responses (responses : list (string * value)) :
  forall (names : list string) (r : buckets),
    array_responses jsSpec responses = Ok names ->
    each_response jsSpec pathKey opKey (VStr severity)
                  (map (fun kv => (snd kv, VStr (fst kv))) responses) r
    = Ok (add_to severity r (map (array_response_finding pathKey opKey) names)).
Proof.
  induction responses as [|[name response] rest IH]; intros names r H.
  - injection H as <-; cbn [map each_response]; now rewrite add_to_nil.
  - cbn [array_responses] in H. bind_inv H. bind_inv H. injection H as <-.
    cbn [map each_response fst snd].
    rewrite (check_response_has_array_schema _ _ _ _ E); cbn [bind].
    rewrite (IH _ _ E0). destruct a; [|reflexivity].
    now rewrite add_to_app.
Qed.

End Array_responses.

(** X19: R6 on a GET operation whose [responses] is a plain object: the check
    returns with one finding for each response whose schema is truthy and
    resolves to something truthy of type [array], at
    [paths.<pathKey>.<opKey>.responses.<name>.schema], in the order of the
    responses, all in the bucket of the severity of [no_array_responses]. *)
Theorem array_responses_are_reported_in_order :
  forall (jsSpec config : value) (pathKey : string) (op : value) (opKey severity : string)
         (responses : list (string * value)) (names : list string) (r : buckets),
    member op "responses" = Ok (VObj responses) ->
    assoc "length" responses = None ->
    array_responses jsSpec responses = Ok names ->
    member config "no_array_responses" = Ok (VStr severity) ->
    severity = "error" \/ severity = "warning" ->
    check_array_responses jsSpec config pathKey op opKey r
    = Ok (add_to severity r (map (array_response_finding pathKey opKey) names)).
Proof.
  intros jsSpec config pathKey op opKey severity responses names r Hr Hlen Hn Hs Hsev.
  unfold check_array_responses. rewrite Hs; cbn [bind].
  rewrite (severity_is_not_off severity Hsev); cbn [negb].
  rewrite Hr; cbn [bind entries]. rewrite Hlen.
  now apply each_response_array_responses.
Qed.

Lemma array_responses_are_reported_in_order_witness :
  let jsSpec := VObj [("definitions", VObj [("Pets", VObj [("type", VStr "array")])])] in
  let responses :=
    [("200", VObj [("schema", VObj [("$ref", VStr "#/definitions/Pets")])]);
     ("404", VObj [("schema", VObj [("type", VStr "object")])]);
     ("default", VObj [("schema", VObj [("type", VStr "array")])]);
     ("500", VObj [])] in
  check_array_responses jsSpec all_errors "/pets" (VObj [("responses", VObj responses)]) "get"
                        empty_buckets
  = Ok {| error := [array_response_finding "/pets" "get" "200";
                    array_response_finding "/pets" "get" "default"];
          warning := [] |}.
Proof.
  intros jsSpec responses.
  apply (array_responses_are_reported_in_order
           jsSpec all_errors "/pets" (VObj [("responses", VObj responses)]) "get" "error"
           responses ["200"; "default"] empty_buckets).
  - reflexivity.
  - reflexivity.
  - vm_compute; reflexivity.
  - reflexivity.
  - now left.
Defined.

(** X20: A response whose schema is a pointer [#/...] that the resolver
    reads key by key (no segment has a slash, double quote or backslash in
    it, and the path that line 42 builds is not itself an own key of the
    document; a key with a double quote in it is not reached) to a schema
    that the document stores under these keys and that is not itself a
    reference.  It gets the outcome of the check of line 122 that a
    response gets with the same schema written in place, which is one
    finding when the type of the schema is [array]. *)
Theorem referenced_schema_is_checked_like_inline :
  forall (jsSpec : value) (pathKey opKey : string) (checkStatus schema target : value)
         (segments : list string) (referenced inline name : value) (r : buckets),
    points_to schema jsSpec segments ->
    stored_at jsSpec segments = Some target ->
    (truthy target = true -> exists ref, member target "$ref" = Ok ref /\ truthy ref = false) ->
    member referenced "schema" = Ok schema ->
    member inline "schema" = Ok target ->
    check_response jsSpec pathKey opKey checkStatus referenced name r
    = check_response jsSpec pathKey opKey checkStatus inline name r /\
    (forall severity nameText,
        member target "type" = Ok (VStr "array") ->
        to_string name = Ok nameText ->
        severity = "error" \/ severity = "warning" ->
        check_response jsSpec pathKey opKey (VStr severity) referenced name r
        = Ok (add_to severity r [array_response_finding pathKey opKey nameText])).
Proof.
  intros jsSpec pathKey opKey checkStatus schema target segments referenced inline name r
         Hpt Hst Hplain Hr Hi.
  assert (Hres : resolveRef schema jsSpec = Ok target).
  { destruct Hpt as (Href & Hne & Hclean & Hroot).
    now apply (resolveRef_resolves_stored_value schema jsSpec target segments). }
  assert (Hts : truthy schema = true).
  { destruct Hpt as (Href & _). destruct schema as [| | | | | |props]; try discriminate;
      try reflexivity; cbn [member] in Href; injection Href as Href; discriminate. }
  assert (Hself : truthy target = true -> resolveRef target jsSpec = Ok target).
  { intros Ht. destruct (Hplain Ht) as (ref & Href & Hf).
    unfold resolveRef. rewrite Href; cbn [bind]. now rewrite Hf. }
  split.
  - unfold check_response. rewrite Hr, Hi; cbn [bind]. rewrite Hts, Hres; cbn [bind].
    destruct (truthy target) eqn:Ht; [|reflexivity].
    rewrite (Hself eq_refl); cbn [bind]. rewrite Ht; reflexivity.
  - intros severity nameText Htype Hname Hsev.
    unfold check_response. rewrite Hr; cbn [bind]. rewrite Hts, Hres; cbn [bind].
    assert (truthy target = true) as ->
        by (destruct target as [| | | | | |props]; try discriminate; reflexivity).
    rewrite Htype; cbn [bind is_string String.eqb Ascii.eqb Bool.eqb].
    rewrite Hname; cbn [bind]. apply push_severity; exact Hsev.
Qed.

Lemma referenced_schema_is_checked_like_inline_witness :
  let jsSpec := VObj [("definitions", VObj [("Pets", VObj [("type", VStr "array")])])] in
  let referenced := VObj [("schema", VObj [("$ref", VStr "#/definitions/Pets")])] in
  let inline := VObj [("schema", VObj [("type", VStr "array")])] in
  check_response jsSpec "/pets" "get" (VStr "warning") referenced (VStr "200") empty_buckets
  = check_response jsSpec "/pets" "get" (VStr "warning") inline (VStr "200") empty_buckets.
Proof.
  intros jsSpec referenced inline.
  apply (referenced_schema_is_checked_like_inline
           jsSpec "/pets" "get" (VStr "warning") (VObj [("$ref", VStr "#/definitions/Pets")])
           (VObj [("type", VStr "array")]) ["definitions"; "Pets"] referenced inline
           (VStr "200") empty_buckets).
  - split; [reflexivity|]. split; [discriminate|]. split.
    + repeat constructor.
    + vm_compute; reflexivity.
  - reflexivity.
  - intros _; exists VUndefined; split; reflexivity.
  - reflexivity.
  - reflexivity.
Defined.

(** ** R7: parameters in order *)

Lemma reported_from_seen_none (indx : nat) (requireds : list value) :
  reported_from true indx requireds = [] <->
  forallb (fun x => negb (truthy x)) requireds = true.
Proof.
  revert indx; induction requireds as [|v rest IH]; intros indx; [tauto|].
  cbn [reported_from forallb]. destruct (truthy v); cbn [negb andb app].
  - split; discriminate.
  - apply IH.
Qed.

Lemma reported_from_unseen_none (indx : nat) (requireds : list value) :
  reported_from false indx requireds = [] <-> required_first requireds = true.
Proof.
  revert indx; induction requireds as [|v rest IH]; intros indx; [tauto|].
  cbn [reported_from required_first]. destruct (truthy v); cbn [negb].
  - apply IH.
  - apply reported_from_seen_none.
Qed.

Lemma add_to_same (severity : string) (r : buckets) (fs : list finding) :
  add_to severity r fs = r <-> fs = [].
Proof.
  split; [|intros ->; apply add_to_nil].
  unfold add_to, add_findings; destruct r as [e w]; cbn [error warning].
  destruct (String.eqb severity "error"); intros H; injection H as H1 H2.
  - apply (app_inv_head e); rewrite app_nil_r; exact H1.
  - apply (app_inv_head w); rewrite app_nil_r; exact H2.
Qed.

Lemma check_parameter_order_reports (jsSpec config : value) (pathKey : string) (op : value)
      (opKey severity : string) (parameters requireds : list value) (r : buckets) :
  member op "parameters" = Ok (VArr parameters) ->
  parameters <> [] ->
  required_values jsSpec parameters = Ok requireds ->
  member config "parameter_order" = Ok (VStr severity) ->
  severity = "error" \/ severity = "warning" ->
  check_parameter_order jsSpec config pathKey op opKey r
  = Ok (add_to severity r
               (map (parameter_order_finding pathKey opKey) (reported_from false 0 requireds))).
Proof.
  intros Hp Hne Hreq Hs Hsev.
  unfold check_parameter_order. rewrite Hs; cbn [bind].
  rewrite (severity_is_not_off severity Hsev).
  cbn [negb]. rewrite Hp; cbn [bind truthy length_of].
  unfold gt_zero, iterations; cbn [to_number bind].
  assert ((0 <? Z.of_nat (List.length parameters))%Z = true) as ->
    by (apply Z.ltb_lt; destruct parameters; [contradiction | simpl; lia]).
  rewrite Nat2Z.id.
  pose proof (parameter_loop_reports jsSpec pathKey opKey severity Hsev parameters []
                                     requireds (-1)%Z r Hreq) as Hloop.
  cbn [app List.length] in Hloop. exact Hloop.
Qed.

(** X21: R7 has no finding for an operation exactly when its parameters are in
    order, every parameter whose resolved [required] is truthy before
    every one whose [required] is falsy: the check then returns the
    buckets as they were, and it returns other buckets otherwise. *)
Theorem parameters_in_order_have_no_finding :
  forall (jsSpec config : value) (pathKey : string) (op : value) (opKey severity : string)
         (parameters requireds : list value) (r : buckets),
    member op "parameters" = Ok (VArr parameters) ->
    parameters <> [] ->
    required_values jsSpec parameters = Ok requireds ->
    member config "parameter_order" = Ok (VStr severity) ->
    severity = "error" \/ severity = "warning" ->
    (check_parameter_order jsSpec config pathKey op opKey r = Ok r <->
     required_first requireds = true).
Proof.
  intros jsSpec config pathKey op opKey severity parameters requireds r Hp Hne Hreq Hs Hsev.
  rewrite (check_parameter_order_reports jsSpec config pathKey op opKey severity
             parameters requireds r Hp Hne Hreq Hs Hsev).
  rewrite <- (reported_from_unseen_none 0 requireds). split.
  - intros H; injection H as H. apply add_to_same in H.
    now apply map_eq_nil in H.
  - intros ->; cbn [map]; now rewrite add_to_nil.
Qed.

Lemma parameters_in_order_have_no_finding_witness :
  let parameters :=
    [VObj [("required", VBool true)]; VObj [("$ref", VStr "#/parameters/limit")];
     VObj [("required", VBool false)]; VObj []] in
  let jsSpec := VObj [("parameters", VObj [("limit", VObj [("required", VBool true)])])] in
  check_parameter_order jsSpec all_errors "/pets" (VObj [("parameters", VArr parameters)]) "get"
                        empty_buckets
  = Ok empty_buckets.
Proof.
  intros parameters jsSpec.
  apply (parameters_in_order_have_no_finding
           jsSpec all_errors "/pets" (VObj [("parameters", VArr parameters)]) "get" "error"
           parameters [VBool true; VBool true; VBool false; VUndefined] empty_buckets).
  - reflexivity.
  - discriminate.
  - vm_compute; reflexivity.
  - reflexivity.
  - now left.
  - reflexivity.
Defined.

(** ** Documents with nothing to walk *)

(** X22: A [paths] that is missing, [null], a number, a boolean or empty gives
    the empty findings pair; a [paths] that is an array or a string with
    something in it makes [validate] raise, as the keys are then numbers,
    which have no [slice]. *)
Theorem paths_that_is_no_object :
  forall (arg config jsSpec operations paths : value),
    member arg "jsSpec" = Ok jsSpec ->
    member config "operations" = Ok operations ->
    member jsSpec "paths" = Ok paths ->
    (is_empty_collection paths = true ->
     validate arg config = Ok {| errors := []; warnings := [] |}) /\
    (is_list_like paths = true -> validate arg config = TypeError).
Proof.
  intros arg config jsSpec operations paths Hj Hc Hp.
  unfold validate. rewrite Hj; cbn [bind]. rewrite Hc; cbn [bind]. rewrite Hp; cbn [bind].
  split; intros H.
  - destruct paths as [| | | |[|c s]|[|x items]|[|kv props]]; try discriminate; reflexivity.
  - destruct paths as [| | | |[|c s]|[|x items]|props]; try discriminate.
    + cbn [map_entries entries bind String.length seq map map_paths visit_path]. reflexivity.
    + cbn [map_entries entries bind List.length seq map map_paths visit_path]. reflexivity.
Qed.

Lemma paths_that_is_no_object_witness :
  validate (VObj [("jsSpec", VObj [("swagger", VStr "2.0")])]) (config_with all_errors)
  = Ok {| errors := []; warnings := [] |} /\
  validate (VObj [("jsSpec", VObj [("paths", VArr [VObj [("get", VObj [])]])])])
           (config_with all_errors)
  = TypeError.
Proof.
  split.
  - apply (proj1 (paths_that_is_no_object
                    (VObj [("jsSpec", VObj [("swagger", VStr "2.0")])]) (config_with all_errors)
                    (VObj [("swagger", VStr "2.0")]) all_errors VUndefined
                    eq_refl eq_refl eq_refl)).
    reflexivity.
  - apply (proj2 (paths_that_is_no_object
                    (VObj [("jsSpec", VObj [("paths", VArr [VObj [("get", VObj [])]])])])
                    (config_with all_errors)
                    (VObj [("paths", VArr [VObj [("get", VObj [])]])]) all_errors
                    (VArr [VObj [("get", VObj [])]])
                    eq_refl eq_refl eq_refl)).
    reflexivity.
Defined.

(** ** Documents as the data model has them *)

(** X23: On a document that is as the data model has it (a plain object of
    paths, operations whose [consumes] and [produces] are arrays of
    strings or missing, whose [operationId] and [summary] are strings or
    missing, whose parameters resolve to objects and whose response
    schemas resolve), under severities that are each [error], [warning] or
    [off], [validate] returns a findings pair. *)
Theorem validate_returns_on_documents_of_the_data_model :
  forall (arg config jsSpec operations : value),
    member arg "jsSpec" = Ok jsSpec ->
    member config "operations" = Ok operations ->
    well_formed_severities operations ->
    well_formed_document jsSpec ->
    exists rep, validate arg config = Ok rep.
Proof. exact validate_returns. Qed.

Lemma validate_returns_on_documents_of_the_data_model_witness :
  let op :=
    VObj [("summary", VStr "Add"); ("consumes", VArr [VStr "application/json"]);
          ("parameters", VArr [VObj [("required", VBool true)]; VObj []])] in
  exists rep,
    validate (document_with [("/pets", VObj [("post", op)])]) (config_with all_errors) = Ok rep.
Proof.
  intros op.
  apply (validate_returns_on_documents_of_the_data_model
           (document_with [("/pets", VObj [("post", op)])]) (config_with all_errors)
           (VObj [("paths", VObj [("/pets", VObj [("post", op)])])]) all_errors
           eq_refl eq_refl).
  - intros k; exists (VStr "error"); split; [destruct k; reflexivity | now left].
  - eexists _, _; repeat split; try reflexivity.
    constructor; [|constructor]. intros opKey o [Heq|[]]; injection Heq as <- <-.
    eexists; repeat split; cbn [assoc String.eqb Ascii.eqb Bool.eqb or_undefined].
    + right; eexists; split; [reflexivity|]. repeat constructor. eexists; reflexivity.
    + now left.
    + now left.
    + right; eexists; reflexivity.
    + right; eexists; split; [reflexivity|]. repeat constructor; eexists; reflexivity.
    + now left.
Defined.

(** ** The severity of one rule and the findings of the others *)

Lemma run_rule_after (jsSpec config : value) (pathKey : string) (op : value) (opKey : string)
      (k : rule) (r d : buckets) :
  run_rule jsSpec config pathKey op opKey k (add_findings r (error d) (warning d))
  = after r (run_rule jsSpec config pathKey op opKey k d).
Proof.
  destruct k; cbn [run_rule].
  - apply check_consumes_after.
  - destruct (String.eqb _ _); [apply check_get_consumes_after | reflexivity].
  - apply check_produces_after.
  - apply check_operationId_after.
  - apply check_summary_after.
  - destruct (String.eqb _ _); [apply check_array_responses_after | reflexivity].
  - apply check_parameter_order_after.
Qed.

Section Same_rule.

Variables (jsSpec config config2 : value) (k : rule).
Hypothesis same_severity : member config (rule_key k) = member config2 (rule_key k).

Lemma visit_operation_same_rule (pathKey : string) (op : value) (opKey : string)
      (r1 r1' r2 r2' : buckets) :
  visit_operation jsSpec config pathKey op opKey r1 = Ok r1' ->
  visit_operation jsSpec config2 pathKey op opKey r2 = Ok r2' ->
  exists es ws,
    adds (rule_message k) es ws r1 r1' /\ adds (rule_message k) es ws r2 r2'.
Proof.
  intros H1 H2.
  destruct (visit_operation_Ok _ _ _ _ _ _ _ H1) as [[Hex ->]|[(excluded & Hex & Ht) _]].
  - unfold visit_operation in H2. rewrite Hex in H2; cbn [bind is_true] in H2.
    injection H2 as <-. exists [], []; split; apply adds_refl.
  - assert (Hnot : member op "x-sdk-exclude" <> Ok (VBool true))
      by (rewrite Hex; intros Heq; injection Heq as ->; discriminate).
    destruct (visit_operation_rule _ _ _ _ _ k _ _ H1 Hnot) as (ra & rb & Hk & Hadds).
    destruct (visit_operation_rule _ _ _ _ _ k _ _ H2 Hnot) as (ra2 & rb2 & Hk2 & Hadds2).
    rewrite <- (add_findings_empty ra), run_rule_after in Hk.
    rewrite <- (add_findings_empty ra2), run_rule_after in Hk2.
    rewrite (run_rule_same_severity jsSpec config config2 pathKey op opKey k empty_buckets
               same_severity) in Hk.
    destruct (run_rule jsSpec config2 pathKey op opKey k empty_buckets) as [d| |] eqn:Ed;
      cbn [after] in Hk, Hk2; try discriminate.
    injection Hk as <-. injection Hk2 as <-.
    destruct (run_rule_emits _ _ _ _ _ _ _ _ Ed) as (es & ws & Hd & He & Hw).
    unfold add_findings, empty_buckets in Hd; cbn [error warning app] in Hd. subst d.
    cbn [error warning].
    exists es, ws; split; [apply Hadds | apply Hadds2]; now apply emits_only_adds.
Qed.

Lemma each_operation_same_rule (pathKey : string) (pathOps : list (string * value)) :
  forall r1 r1' r2 r2',
    each_operation jsSpec config pathKey pathOps r1 = Ok r1' ->
    each_operation jsSpec config2 pathKey pathOps r2 = Ok r2' ->
    exists es ws,
      adds (rule_message k) es ws r1 r1' /\ adds (rule_message k) es ws r2 r2'.
Proof.
  induction pathOps as [|[opKey op] rest IH]; cbn [each_operation]; intros r1 r1' r2 r2' H1 H2.
  - injection H1 as <-. injection H2 as <-. exists [], []; split; apply adds_refl.
  - bind_inv H1. bind_inv H2.
    destruct (visit_operation_same_rule _ _ _ _ _ _ _ E E0) as (e1 & w1 & Ha & Hb).
    destruct (IH _ _ _ _ H1 H2) as (e2 & w2 & Ha2 & Hb2).
    exists (e1 ++ e2)%list, (w1 ++ w2)%list; split; eapply adds_trans; eassumption.
Qed.

Lemma map_paths_same_rule (paths : list (value * value)) :
  forall r1 r1' r2 r2',
    map_paths jsSpec config paths r1 = Ok r1' ->
    map_paths jsSpec config2 paths r2 = Ok r2' ->
    exists es ws,
      adds (rule_message k) es ws r1 r1' /\ adds (rule_message k) es ws r2 r2'.
Proof.
  induction paths as [|[path pathKey] rest IH]; cbn [map_paths]; intros r1 r1' r2 r2' H1 H2.
  - injection H1 as <-. injection H2 as <-. exists [], []; split; apply adds_refl.
  - bind_inv H1. bind_inv H2.
    assert (exists e1 w1, adds (rule_message k) e1 w1 r1 a /\ adds (rule_message k) e1 w1 r2 a0)
      as (e1 & w1 & Ha & Hb).
    { unfold visit_path in E, E0. destruct pathKey; try discriminate.
      destruct (String.eqb _ _).
      - injection E as <-. injection E0 as <-. exists [], []; split; apply adds_refl.
      - eapply each_operation_same_rule; eassumption. }
    destruct (IH _ _ _ _ H1 H2) as (e2 & w2 & Ha2 & Hb2).
    exists (e1 ++ e2)%list, (w1 ++ w2)%list; split; eapply adds_trans; eassumption.
Qed.

End Same_rule.

(** X24: The findings of a rule depend on no severity but its own: two calls
    on the same document, under configurations that give the rule the same
    severity and may differ in every other, return the same findings of the
    rule, in the same buckets and the same order. *)
Theorem findings_of_a_rule_depend_on_its_own_severity :
  forall (arg config config2 operations operations2 : value) (k : rule) (rep rep2 : report),
    validate arg config = Ok rep ->
    validate arg config2 = Ok rep2 ->
    member config "operations" = Ok operations ->
    member config2 "operations" = Ok operations2 ->
    member operations (rule_key k) = member operations2 (rule_key k) ->
    with_message (rule_message k) (errors rep) = with_message (rule_message k) (errors rep2) /\
    with_message (rule_message k) (warnings rep)
    = with_message (rule_message k) (warnings rep2).
Proof.
  intros arg config config2 operations operations2 k rep rep2 H1 H2 Hc Hc2 Hsame.
  unfold validate in H1, H2.
  bind_inv H1. rewrite E in H2; cbn [bind] in H2.
  rewrite Hc in H1; cbn [bind] in H1. rewrite Hc2 in H2; cbn [bind] in H2.
  bind_inv H1. rewrite E0 in H2; cbn [bind] in H2.
  bind_inv H1. rewrite E1 in H2; cbn [bind] in H2.
  bind_inv H1. bind_inv H2. injection H1 as <-. injection H2 as <-. cbn [errors warnings].
  destruct (map_paths_same_rule a operations operations2 k Hsame _ _ _ _ _ E2 E3)
    as (es & ws & (e1 & w1 & Heq1 & <- & <-) & (e2 & w2 & Heq2 & He & Hw)).
  rewrite Heq1, Heq2; cbn [add_findings error warning app]. split; congruence.
Qed.

Lemma findings_of_a_rule_depend_on_its_own_severity_witness :
  let arg := document_with [("/pets", VObj [("post", VObj [("summary", VStr "Add")])])] in
  with_message operationId_message
               [consumes_finding "/pets" "post"; produces_finding "/pets" "post";
                operationId_finding "/pets" "post"]
  = with_message operationId_message [operationId_finding "/pets" "post"] /\
  with_message operationId_message []
  = with_message operationId_message [produces_finding "/pets" "post"].
Proof.
  intros arg.
  apply (findings_of_a_rule_depend_on_its_own_severity
           arg (config_with all_errors)
           (config_with (severities (VStr "off") (VStr "warning") (VStr "warning")
                                    (VStr "error") (VStr "warning") (VStr "off")
                                    (VStr "off")))
           all_errors
           (severities (VStr "off") (VStr "warning") (VStr "warning")
                       (VStr "error") (VStr "warning") (VStr "off") (VStr "off"))
           R4_operationId_required
           {| errors := [consumes_finding "/pets" "post"; produces_finding "/pets" "post";
                         operationId_finding "/pets" "post"];
              warnings := [] |}
           {| errors := [operationId_finding "/pets" "post"];
              warnings := [produces_finding "/pets" "post"] |});
    vm_compute; reflexivity.
Defined.

(** ** The operations of a path, one after the other *)

Lemma each_operation_groups (jsSpec config : value) (pathKey : string)
      (pathOps : list (string * value)) :
  forall g,
    each_operation jsSpec config pathKey pathOps empty_buckets = Ok g ->
    exists groups,
      Forall2 (fun entry d => operation_findings jsSpec config pathKey entry = Ok d)
              pathOps groups /\
      error g = concat (map error groups) /\ warning g = concat (map warning groups).
Proof.
  induction pathOps as [|[opKey op] rest IH]; intros g H.
  - injection H as <-; exists []; repeat split; constructor.
  - cbn [each_operation] in H. bind_inv H.
    rewrite <- (add_findings_empty a), each_operation_after in H.
    destruct (each_operation jsSpec config pathKey rest empty_buckets) as [d2| |] eqn:E2;
      cbn [after] in H; try discriminate.
    injection H as <-. destruct (IH d2 eq_refl) as (groups & Hg & He & Hw).
    exists (a :: groups); repeat split.
    + constructor; [exact E | exact Hg].
    + cbn [add_findings error map concat]; now rewrite He.
    + cbn [add_findings warning map concat]; now rewrite Hw.
Qed.

(** X25: The findings of a path that is not an extension are grouped by
    operation, in the order get, head, post, put, patch, delete, options of
    the operations it has: the errors are the errors that each operation
    gives from empty buckets, one group after the other, and so are the
    warnings. *)
Theorem findings_of_a_path_are_grouped_by_operation :
  forall (jsSpec config : value) (pathKey : string) (path : value) (g : buckets),
    is_extension pathKey = false ->
    path_findings jsSpec config (pathKey, path) = Ok g ->
    exists groups,
      Forall2 (fun entry d => operation_findings jsSpec config pathKey entry = Ok d)
              (pick path method_keys) groups /\
      error g = concat (map error groups) /\ warning g = concat (map warning groups).
Proof.
  intros jsSpec config pathKey path g Hx H.
  unfold path_findings, visit_path in H; cbn [fst snd] in H.
  unfold is_extension in Hx; rewrite Hx in H.
  now apply each_operation_groups.
Qed.

Lemma findings_of_a_path_are_grouped_by_operation_witness :
  let path := VObj [("post", VObj [("summary", VStr "Add")]);
                    ("get", VObj [("operationId", VStr "list")])] in
  exists groups,
    Forall2 (fun entry d => operation_findings (VObj []) all_errors "/pets" entry = Ok d)
            (pick path method_keys) groups /\
    [produces_finding "/pets" "get"; summary_finding "/pets" "get";
     consumes_finding "/pets" "post"; produces_finding "/pets" "post";
     operationId_finding "/pets" "post"] = concat (map error groups) /\
    [] = concat (map warning groups).
Proof.
  intros path.
  apply (findings_of_a_path_are_grouped_by_operation
           (VObj []) all_errors "/pets" path
           {| error := [produces_finding "/pets" "get"; summary_finding "/pets" "get";
                        consumes_finding "/pets" "post"; produces_finding "/pets" "post";
                        operationId_finding "/pets" "post"];
              warning := [] |});
    vm_compute; reflexivity.
Defined.

(** ** Nodes that are null *)

Lemma resolveRef_nullish (v jsSpec : value) : is_nullish v -> resolveRef v jsSpec = TypeError.
Proof. intros [-> | ->]; reflexivity. Qed.

Lemma each_response_nullish (jsSpec : value) (pathKey opKey : string) (s : value)
      (responses : list (value * value)) (response name : value) (r r' : buckets) :
  In (response, name) responses ->
  is_nullish response ->
  each_response jsSpec pathKey opKey s responses r <> Ok r'.
Proof.
  intros Hin Hnull; revert r.
  induction responses as [|[response' name'] rest IH]; intros r H; [contradiction|].
  cbn [each_response] in H. bind_inv H. destruct Hin as [Heq|Hin].
  - injection Heq as -> ->. unfold check_response in E.
    destruct Hnull as [-> | ->]; discriminate.
  - now apply (IH Hin a).
Qed.

Lemma parameter_loop_nullish (jsSpec : value) (pathKey opKey : string)
      (s parameters parameter : value) (indices : list nat) (indx : nat) (firstOptional : Z)
      (r r' : buckets) :
  In indx indices ->
  index_value parameters indx = Ok parameter ->
  is_nullish parameter ->
  parameter_loop jsSpec pathKey opKey s parameters indices firstOptional r <> Ok r'.
Proof.
  intros Hin Hi Hnull; revert firstOptional r.
  induction indices as [|i rest IH]; intros fo r H; [contradiction|].
  cbn [parameter_loop] in H. bind_inv H. destruct Hin as [->|Hin].
  - unfold parameter_step in E. rewrite Hi in E; cbn [bind] in E.
    rewrite (resolveRef_nullish _ _ Hnull) in E; discriminate.
  - now apply (IH Hin (fst a) (snd a)).
Qed.

Lemma visit_operation_null_node (jsSpec config : value) (pathKey : string) (op : value)
      (opKey : string) (r r' : buckets) :
  has_null_node config op opKey ->
  visit_operation jsSpec config pathKey op opKey r <> Ok r'.
Proof.
  intros [Hnull|[Hex Hnode]] H.
  - unfold visit_operation in H. destruct Hnull as [-> | ->]; discriminate.
  - destruct Hnode as [(-> & Hoff & responses & response & name & Hr & Hin & Hnull)
                      |(Hoff & parameters & parameter & Hp & Hin & Hnull)].
    + destruct (visit_operation_rule _ _ _ _ _ R6_no_array_response _ _ H Hex)
        as (ra & rb & Hk & _).
      cbn [run_rule toLowerCase lower_char] in Hk.
      change (String.eqb (toLowerCase "get") "get") with true in Hk.
      unfold check_array_responses in Hk. bind_inv Hk.
      destruct (is_string a "off") eqn:Eoff; cbn [negb] in Hk.
      * apply is_string_true in Eoff; subst a. contradiction.
      * rewrite Hr in Hk; cbn [bind] in Hk.
        now apply (each_response_nullish _ _ _ _ _ _ _ _ _ Hin Hnull) in Hk.
    + destruct (visit_operation_rule _ _ _ _ _ R7_parameter_order _ _ H Hex)
        as (ra & rb & Hk & _).
      cbn [run_rule] in Hk. unfold check_parameter_order in Hk. bind_inv Hk.
      destruct (is_string a "off") eqn:Eoff; cbn [negb] in Hk.
      * apply is_string_true in Eoff; subst a. contradiction.
      * rewrite Hp in Hk; cbn [bind truthy length_of] in Hk.
        unfold gt_zero, iterations in Hk; cbn [to_number bind] in Hk.
        destruct (In_nth _ _ VUndefined Hin) as (indx & Hlt & Hnth).
        assert ((0 <? Z.of_nat (List.length parameters))%Z = true) as Hpos
            by (apply Z.ltb_lt; lia).
        rewrite Hpos, Nat2Z.id in Hk.
        apply (parameter_loop_nullish _ _ _ _ _ parameter _ indx) in Hk; try assumption.
        -- apply in_seq; lia.
        -- cbn [index_value]. now rewrite Hnth.
Qed.

(** X26: An operation that is [null], as a parser gives for a method key with
    no value, makes [validate] raise, and so does a [null] among the
    responses of a GET operation when R6 is not off, or among the
    parameters of an operation when R7 is not off: the call returns no
    findings pair. *)
Theorem null_nodes_make_validate_raise :
  forall (arg config jsSpec operations : value) (paths : list (string * value))
         (pathKey : string) (path : value) (opKey : string) (op : value),
    member arg "jsSpec" = Ok jsSpec ->
    member config "operations" = Ok operations ->
    member jsSpec "paths" = Ok (VObj paths) ->
    assoc "length" paths = None ->
    In (pathKey, path) paths ->
    is_extension pathKey = false ->
    In (opKey, op) (pick path method_keys) ->
    has_null_node operations op opKey ->
    forall rep, validate arg config <> Ok rep.
Proof.
  intros arg config jsSpec operations paths pathKey path opKey op Hj Hc Hp Hlen Hin Hx Hop
         Hnull rep H.
  destruct (validate_visits arg config jsSpec operations (VObj paths) path pathKey opKey op rep
              H Hj Hc Hp) as (r & r' & Hv & _).
  - cbn [entries]. rewrite Hlen.
    apply (in_map (fun kv => (snd kv, VStr (fst kv))) paths (pathKey, path) Hin).
  - unfold is_extension in Hx. intros Heq; rewrite Heq in Hx; discriminate.
  - exact Hop.
  - exact (visit_operation_null_node _ _ _ _ _ _ _ Hnull Hv).
Qed.

Lemma null_nodes_make_validate_raise_witness :
  validate (document_with [("/pets", VObj [("get", VNull)])]) (config_with all_off)
  <> Ok {| errors := []; warnings := [] |}.
Proof.
  apply (null_nodes_make_validate_raise
           (document_with [("/pets", VObj [("get", VNull)])]) (config_with all_off)
           (VObj [("paths", VObj [("/pets", VObj [("get", VNull)])])]) all_off
           [("/pets", VObj [("get", VNull)])] "/pets" (VObj [("get", VNull)]) "get" VNull);
    try reflexivity.
  - left; reflexivity.
  - left; reflexivity.
  - left; left; reflexivity.
Defined.

(** ** An operation with nothing to report *)

Lemma has_types_found (of_document local : value) :
  has_types of_document local ->
  exists b, has_joined_text local = Ok b /\ negb b && negb (truthy of_document) = false.
Proof.
  intros [[-> Ht]|(items & -> & H)].
  - exists false; split; [reflexivity|]. now rewrite Ht.
  - exists (existsb has_visible_text items); split; [apply has_joined_text_strings|].
    destruct H as [-> | ->]; [reflexivity | apply andb_false_r].
Qed.

Lemma has_text_text (v : value) : is_text v -> has_text v = Ok true.
Proof.
  intros (s & -> & Hs). rewrite (has_text_scalar (VStr s) eq_refl).
  cbn [is_blank]. unfold has_visible_text in Hs. now rewrite Hs.
Qed.

Lemma visit_operation_clean (jsSpec config : value) (pathKey : string) (op : value)
      (opKey : string) (r : buckets) :
  well_formed_severities config ->
  In opKey method_keys ->
  clean_operation jsSpec op opKey ->
  visit_operation jsSpec config pathKey op opKey r = Ok r.
Proof.
  intros Hsev Hkey
         (props & gc & gp & -> & Hgc & Hgp & Hcons & Hprod & Hget & Hid & Hsum & Hpar).
  unfold visit_operation. cbn [member bind].
  destruct (is_true _); [reflexivity|].
  assert (H1 : check_consumes jsSpec config pathKey (VObj props) opKey r = Ok r).
  { unfold check_consumes. rewrite (toLowerCase_method _ Hkey).
    destruct (includes ["put"; "post"] opKey) eqn:Einc; [|reflexivity].
    assert (Hm : opKey = "put" \/ opKey = "post").
    { unfold includes in Einc; cbn [existsb] in Einc.
      rewrite !orb_true_iff, !String.eqb_eq in Einc.
      destruct Einc as [?|[?|?]]; (discriminate || auto). }
    destruct (has_types_found _ _ (Hcons Hm)) as (b & Hb & Hnone).
    unfold hasLocalConsumes, hasGlobalConsumes. cbn [member bind].
    rewrite Hb, Hgc; cbn [bind]. now rewrite Hnone. }
  assert (H2 : check_produces jsSpec config pathKey (VObj props) opKey r = Ok r).
  { unfold check_produces. rewrite (toLowerCase_method _ Hkey).
    destruct (String.eqb opKey "head") eqn:Ehead; [reflexivity|].
    apply String.eqb_neq in Ehead. cbn [negb].
    destruct (has_types_found _ _ (Hprod Ehead)) as (b & Hb & Hnone).
    unfold hasLocalProduces, hasGlobalProduces. cbn [member bind].
    rewrite Hb, Hgp; cbn [bind]. now rewrite Hnone. }
  assert (H3 : check_get jsSpec config pathKey (VObj props) opKey r = Ok r).
  { unfold check_get. rewrite (toLowerCase_method _ Hkey).
    destruct (String.eqb opKey "get") eqn:Eget; [|reflexivity].
    apply String.eqb_eq in Eget. destruct (Hget Eget) as [Hc Hresp].
    unfold check_get_consumes. cbn [member bind]. rewrite Hc; cbn [bind].
    destruct (Hsev R6_no_array_response) as (s & Hs & His).
    cbn [rule_key] in Hs.
    destruct His as [-> | [-> | ->]].
    - destruct Hresp as [Hnone|(responses & Hsome & Hlen & Harr)].
      + unfold check_array_responses. rewrite Hs; cbn [bind is_string String.eqb negb member].
        rewrite Hnone; reflexivity.
      + unfold check_array_responses. rewrite Hs; cbn [bind is_string String.eqb negb member].
        rewrite Hsome; cbn [or_undefined bind entries]. rewrite Hlen.
        rewrite (each_response_array_responses jsSpec pathKey opKey "error" ltac:(now left)
                   responses [] r Harr).
        now rewrite add_to_nil.
    - destruct Hresp as [Hnone|(responses & Hsome & Hlen & Harr)].
      + unfold check_array_responses. rewrite Hs; cbn [bind is_string String.eqb negb member].
        rewrite Hnone; reflexivity.
      + unfold check_array_responses. rewrite Hs; cbn [bind is_string String.eqb negb member].
        rewrite Hsome; cbn [or_undefined bind entries]. rewrite Hlen.
        rewrite (each_response_array_responses jsSpec pathKey opKey "warning" ltac:(now right)
                   responses [] r Harr).
        now rewrite add_to_nil.
    - unfold check_array_responses. rewrite Hs; reflexivity. }
  assert (H4 : check_operationId config pathKey (VObj props) opKey r = Ok r).
  { unfold check_operationId, hasOperationId. cbn [member bind].
    now rewrite (has_text_text _ Hid). }
  assert (H5 : check_summary config pathKey (VObj props) opKey r = Ok r).
  { unfold check_summary, hasSummary. cbn [member bind].
    now rewrite (has_text_text _ Hsum). }
  assert (H6 : check_parameter_order jsSpec config pathKey (VObj props) opKey r = Ok r).
  { destruct (Hsev R7_parameter_order) as (s & Hs & His). cbn [rule_key] in Hs.
    assert (Hoff : s = VStr "off" ->
                   check_parameter_order jsSpec config pathKey (VObj props) opKey r = Ok r).
    { intros ->. unfold check_parameter_order. rewrite Hs; reflexivity. }
    assert (Hon : forall severity,
               s = VStr severity -> severity = "error" \/ severity = "warning" ->
               check_parameter_order jsSpec config pathKey (VObj props) opKey r = Ok r).
    { intros severity -> Hbucket.
      destruct Hpar as [Hnone|(parameters & requireds & Hsome & Hreq & Hord)].
      - unfold check_parameter_order. rewrite Hs; cbn [bind].
        rewrite (severity_is_not_off severity Hbucket); cbn [negb member].
        rewrite Hnone; reflexivity.
      - destruct parameters as [|p rest].
        + unfold check_parameter_order. rewrite Hs; cbn [bind].
          rewrite (severity_is_not_off severity Hbucket); cbn [negb member].
          rewrite Hsome; reflexivity.
        + rewrite (check_parameter_order_reports jsSpec config pathKey (VObj props) opKey
                     severity (p :: rest) requireds r); try assumption.
          * apply (reported_from_unseen_none 0) in Hord. rewrite Hord.
            cbn [map]; now rewrite add_to_nil.
          * cbn [member]; now rewrite Hsome.
          * discriminate. }
    destruct His as [-> | [-> | ->]];
      [apply (Hon "error"); auto | apply (Hon "warning"); auto | now apply Hoff]. }
  rewrite H1; cbn [bind]. rewrite H2; cbn [bind]. rewrite H3; cbn [bind].
  rewrite H4; cbn [bind]. rewrite H5; cbn [bind]. exact H6.
Qed.

Lemma each_operation_clean (jsSpec config : value) (pathKey : string)
      (pathOps : list (string * value)) (r : buckets) :
  well_formed_severities config ->
  (forall opKey op, In (opKey, op) pathOps ->
                    In opKey method_keys /\ clean_operation jsSpec op opKey) ->
  each_operation jsSpec config pathKey pathOps r = Ok r.
Proof.
  intros Hsev; induction pathOps as [|[opKey op] rest IH]; intros Hall; [reflexivity|].
  cbn [each_operation].
  destruct (Hall opKey op (or_introl eq_refl)) as [Hkey Hclean].
  rewrite (visit_operation_clean _ _ _ _ _ _ Hsev Hkey Hclean); cbn [bind].
  apply IH; intros k o Hin; apply (Hall k o); now right.
Qed.

(** X27: A document whose operations each declare the types the rules ask for
    (or find them declared by the document), have an [operationId] and a
    [summary] with text, parameters in order if any, and, when GET, no
    [consumes] and no response whose schema is an array, has no finding:
    under severities that are each [error], [warning] or [off],
    [validate] returns the empty findings pair. *)
Theorem clean_document_has_no_finding :
  forall (arg config jsSpec operations : value) (paths : list (string * value)),
    member arg "jsSpec" = Ok jsSpec ->
    member config "operations" = Ok operations ->
    well_formed_severities operations ->
    member jsSpec "paths" = Ok (VObj paths) ->
    assoc "length" paths = None ->
    Forall (fun entry =>
              forall opKey op, In (opKey, op) (pick (snd entry) method_keys) ->
                               clean_operation jsSpec op opKey)
           paths ->
    validate arg config = Ok {| errors := []; warnings := [] |}.
Proof.
  intros arg config jsSpec operations paths Hj Hc Hsev Hp Hlen Hall.
  unfold validate. rewrite Hj; cbn [bind]. rewrite Hc; cbn [bind].
  rewrite Hp; cbn [bind map_entries entries]. rewrite Hlen; cbn [bind].
  assert (Hwalk : forall r,
             map_paths jsSpec operations (map (fun kv => (snd kv, VStr (fst kv))) paths) r
             = Ok r).
  { clear Hp Hlen.
    induction Hall as [|[pathKey path] rest Hone _ IH]; intros r; [reflexivity|].
    cbn [map map_paths fst snd visit_path] in *.
    destruct (String.eqb _ _); cbn [bind]; [apply IH|].
    rewrite (each_operation_clean jsSpec operations pathKey _ r Hsev); cbn [bind];
      [apply IH|].
    intros opKey op Hin; split; [eapply pick_method; exact Hin | now apply Hone]. }
  rewrite Hwalk; reflexivity.
Qed.

Lemma clean_document_has_no_finding_witness :
  let get :=
    VObj [("operationId", VStr "listPets"); ("summary", VStr "List the pets");
          ("produces", VArr [VStr "application/json"]);
          ("parameters", VArr [VObj [("required", VBool true)]; VObj []]);
          ("responses", VObj [("200", VObj [("schema", VObj [("type", VStr "object")])])])] in
  let post :=
    VObj [("operationId", VStr "addPet"); ("summary", VStr "Add a pet");
          ("consumes", VArr [VStr "application/json"])] in
  let paths := [("/pets", VObj [("get", get); ("post", post)])] in
  let jsSpec := VObj [("produces", VArr [VStr "application/json"]); ("paths", VObj paths)] in
  validate (VObj [("jsSpec", jsSpec)]) (config_with all_errors)
  = Ok {| errors := []; warnings := [] |}.
Proof.
  intros get post paths jsSpec.
  apply (clean_document_has_no_finding
           (VObj [("jsSpec", jsSpec)]) (config_with all_errors) jsSpec all_errors paths
           eq_refl eq_refl).
  - intros k; exists (VStr "error"); split; [destruct k; reflexivity | now left].
  - reflexivity.
  - reflexivity.
  - constructor; [|constructor].
    intros opKey op [Heq|[Heq|[]]]; injection Heq as <- <-.
    + eexists _, _, _. split; [reflexivity|]. split; [reflexivity|]. split; [reflexivity|].
      split; [intros [H|H]; discriminate|].
      split; [intros _; right; exists ["application/json"]; split; [reflexivity | now left]|].
      split.
      { intros _; split; [reflexivity|]. right; eexists; split; [reflexivity|].
        split; [reflexivity | vm_compute; reflexivity]. }
      split; [eexists; split; [reflexivity | vm_compute; reflexivity]|].
      split; [eexists; split; [reflexivity | vm_compute; reflexivity]|].
      right; eexists _, [VBool true; VUndefined]; split; [reflexivity|].
      split; vm_compute; reflexivity.
    + eexists _, _, _. split; [reflexivity|]. split; [reflexivity|]. split; [reflexivity|].
      split; [intros _; right; exists ["application/json"]; split; [reflexivity | now left]|].
      split; [intros _; left; split; reflexivity|].
      split; [intros H; discriminate|].
      split; [eexists; split; [reflexivity | vm_compute; reflexivity]|].
      split; [eexists; split; [reflexivity | vm_compute; reflexivity]|].
      now left.
Defined.

(** ** The exclusion marker *)

Lemma member_other (k name : string) (e : value) (props : list (string * value)) :
  String.eqb name k = false ->
  member (VObj ((k, e) :: props)) name = member (VObj props) name.
Proof. intros H; cbn [member assoc]; now rewrite H. Qed.

(** X28: Only the boolean [true] excludes an operation: with any other value of
    [x-sdk-exclude] (the string [true], the number 1, [false]) the visit of
    the operation is the visit of the operation without the marker. *)
Theorem marker_that_is_not_true_changes_nothing :
  forall (jsSpec config : value) (pathKey : string) (props : list (string * value))
         (opKey : string) (e : value) (r : buckets),
    e <> VBool true ->
    assoc "x-sdk-exclude" props = None ->
    visit_operation jsSpec config pathKey (VObj (("x-sdk-exclude", e) :: props)) opKey r
    = visit_operation jsSpec config pathKey (VObj props) opKey r.
Proof.
  intros jsSpec config pathKey props opKey e r He Hnone.
  assert (Ht : is_true e = false)
    by (destruct e as [| |[|]| | | |]; try reflexivity; contradiction).
  unfold visit_operation.
  replace (member (VObj (("x-sdk-exclude", e) :: props)) "x-sdk-exclude") with (Ok e)
    by (cbn [member assoc]; now rewrite String.eqb_refl).
  replace (member (VObj props) "x-sdk-exclude") with (Ok VUndefined)
    by (cbn [member]; now rewrite Hnone).
  cbn [bind is_true]. rewrite Ht.
  unfold check_consumes, check_produces, check_get, check_get_consumes,
    check_array_responses, check_operationId, check_summary, check_parameter_order,
    hasLocalConsumes, hasLocalProduces, hasOperationId, hasSummary.
  rewrite !(member_other "x-sdk-exclude" "consumes") by reflexivity.
  rewrite !(member_other "x-sdk-exclude" "produces") by reflexivity.
  rewrite !(member_other "x-sdk-exclude" "responses") by reflexivity.
  rewrite !(member_other "x-sdk-exclude" "operationId") by reflexivity.
  rewrite !(member_other "x-sdk-exclude" "summary") by reflexivity.
  rewrite !(member_other "x-sdk-exclude" "parameters") by reflexivity.
  reflexivity.
Qed.

Lemma marker_that_is_not_true_changes_nothing_witness :
  visit_operation (VObj []) all_errors "/pets"
                  (VObj [("x-sdk-exclude", VStr "true"); ("summary", VStr "List")]) "get"
                  empty_buckets
  = visit_operation (VObj []) all_errors "/pets" (VObj [("summary", VStr "List")]) "get"
                    empty_buckets.
Proof.
  apply (marker_that_is_not_true_changes_nothing
           (VObj []) all_errors "/pets" [("summary", VStr "List")] "get" (VStr "true")
           empty_buckets).
  - discriminate.
  - reflexivity.
Defined.

(** * Severities, the types of an operation, and two calls *)

(** ** R1 on the consumes that a document has *)




(** ** Where the severities are read, and what they decide *)

Lemma adds_has (m : string) (es ws : list finding) (r r' : buckets) (f : finding) :
  adds m es ws r r' ->
  (In f es -> In f (error r')) /\ (In f ws -> In f (warning r')).
Proof.
  intros (es' & ws' & -> & <- & <-); cbn [add_findings error warning].
  split; intros H; apply in_or_app; right; unfold with_message in H;
    apply filter_In in H; tauto.
Qed.

Lemma extends_has (r r' : buckets) (f : finding) :
  extends r r' ->
  (In f (error r) -> In f (error r')) /\ (In f (warning r) -> In f (warning r')).
Proof.
  intros (es & ws & ->); cbn [add_findings error warning].
  split; intros H; apply in_or_app; now left.
Qed.

Lemma text_rule_reports (jsSpec config : value) (pathKey : string) (op : value)
      (opKey severity field : string) (k : rule) (v : value) (f : finding) (r r' : buckets) :
  text_field k = Some field ->
  single_finding k pathKey opKey = Some f ->
  member op field = Ok v ->
  is_scalar v = true ->
  is_blank v = true ->
  member config (rule_key k) = Ok (VStr severity) ->
  severity = "error" \/ severity = "warning" ->
  run_rule jsSpec config pathKey op opKey k r = Ok r' ->
  r' = add_to severity r [f] /\ message f = rule_message k.
Proof.
  intros Hfield Hf Hv Hsc Hb Hs Hsev H.
  destruct k; try discriminate; injection Hfield as <-; injection Hf as <-;
    cbn [run_rule rule_key] in *.
  - rewrite (check_operationId_scalar config pathKey op opKey severity Hsev v r Hv Hsc Hs), Hb in H.
    injection H as <-; split; reflexivity.
  - rewrite (check_summary_scalar config pathKey op opKey severity Hsev v r Hv Hsc Hs), Hb in H.
    injection H as <-; split; reflexivity.
Qed.

(** C5: [validate] takes the severities from [config.operations], one for
    each rule under the key of the rule, and from nowhere else.
    - Two configurations with the same [operations] give the same
      outcome, and a rule key at the top level of the configuration
      changes nothing.
    - With no [operations] in the configuration the call fails as soon as
      the document has an operation that is visited: it returns no
      findings pair.
    - The severity that [operations] holds under the key of a rule is the
      one that decides: every finding among the errors is of a rule whose
      severity there is not [off] and converts to [error], likewise for
      the warnings, and an operation whose [operationId] or [summary] is
      missing or blank has its R4 or R5 finding in the list that the
      severity under [no_operation_id] or [no_summary] names.
    - With severities in [operations] that are each [error], [warning] or
      [off], the call returns a findings pair on every document that is as
      the data model has it. *)
Theorem severities_are_read_from_operations :
  (forall arg config config2 : value,
      member config "operations" = member config2 "operations" ->
      validate arg config = validate arg config2) /\
  (forall (arg : value) (top : list (string * value)) (k : rule) (s : value),
      validate arg (VObj ((rule_key k, s) :: top)) = validate arg (VObj top)) /\
  (forall (arg jsSpec paths path : value) (top : list (string * value))
          (pathKey opKey : string) (op : value) (rep : report),
      assoc "operations" top = None ->
      member arg "jsSpec" = Ok jsSpec ->
      member jsSpec "paths" = Ok paths ->
      In (path, VStr pathKey) (entries paths) ->
      String.substring 0 2 pathKey <> "x-" ->
      In (opKey, op) (pick path method_keys) ->
      member op "x-sdk-exclude" <> Ok (VBool true) ->
      validate arg (VObj top) <> Ok rep) /\
  (forall (arg config operations : value) (rep : report),
      validate arg config = Ok rep ->
      member config "operations" = Ok operations ->
      Forall (routed operations "error") (errors rep) /\
      Forall (routed operations "warning") (warnings rep)) /\
  (forall (arg config jsSpec operations paths path : value) (pathKey opKey : string)
          (op : value) (k : rule) (field severity : string) (v : value) (f : finding)
          (rep : report),
      validate arg config = Ok rep ->
      member arg "jsSpec" = Ok jsSpec ->
      member config "operations" = Ok operations ->
      member jsSpec "paths" = Ok paths ->
      In (path, VStr pathKey) (entries paths) ->
      String.substring 0 2 pathKey <> "x-" ->
      In (opKey, op) (pick path method_keys) ->
      member op "x-sdk-exclude" <> Ok (VBool true) ->
      text_field k = Some field ->
      single_finding k pathKey opKey = Some f ->
      member op field = Ok v ->
      is_scalar v = true ->
      is_blank v = true ->
      member operations (rule_key k) = Ok (VStr severity) ->
      severity = "error" \/ severity = "warning" ->
      In f (bucket_of severity rep)) /\
  (forall arg config jsSpec operations : value,
      member arg "jsSpec" = Ok jsSpec ->
      member config "operations" = Ok operations ->
      well_formed_severities operations ->
      well_formed_document jsSpec ->
      exists rep, validate arg config = Ok rep).
Proof.
  split; [|split; [|split; [|split; [|split]]]].
  - intros arg config config2 H; unfold validate; rewrite H; reflexivity.
  - intros arg top k s; unfold validate; destruct k; reflexivity.
  - intros arg jsSpec paths path top pathKey opKey op rep Hnone Hj Hp Hin Hx Hop Hex H.
    unfold validate in H; rewrite Hj in H; simpl in H.
    rewrite Hnone, Hp in H; simpl in H. bind_inv H. bind_inv H.
    apply map_entries_Ok in E; subst a.
    now apply (map_paths_without_severities _ _ _ _ _ _ _ _ Hin Hx Hop Hex) in E0.
  - intros arg config operations rep H Hc.
    destruct (validate_call_adds _ _ _ _ H Hc) as [He Hw].
    split; (eapply Forall_impl; [|eassumption]); intros f [Hr _]; exact Hr.
  - intros arg config jsSpec operations paths path pathKey opKey op k field severity v f rep
           H Hj Hc Hp Hin Hx Hop Hex Hfield Hf Hv Hsc Hb Hs Hsev.
    destruct (validate_visits _ _ _ _ _ _ _ _ _ _ H Hj Hc Hp Hin Hx Hop)
      as (r & r' & Hvisit & _ & Hext).
    destruct (visit_operation_rule _ _ _ _ _ k _ _ Hvisit Hex) as (ra & rb & Hk & Hadds).
    destruct (text_rule_reports _ _ _ _ _ _ _ _ _ _ _ _ Hfield Hf Hv Hsc Hb Hs Hsev Hk)
      as [-> Hm].
    pose proof (add_to_adds severity f ra) as Ha. rewrite Hm in Ha.
    apply Hadds in Ha.
    destruct (adds_has _ _ _ _ _ f Ha) as [He Hw].
    destruct (extends_has _ _ f Hext) as [He' Hw'].
    unfold bucket_of, errors_of, warnings_of in *. cbn [error warning] in He', Hw'.
    destruct (String.eqb severity "error").
    + apply He', He; now left.
    + apply Hw', Hw; now left.
  - exact validate_returns.
Qed.

Lemma severities_are_read_from_operations_witness :
  let arg := document_with [("/pets", VObj [("get", VObj [("x-sdk-exclude", VBool false)])])] in
  validate arg (VObj [("no_summary", VStr "off"); ("parameter_order", VStr "off")])
  <> Ok {| errors := []; warnings := [] |} /\
  In (summary_finding "/pets" "get")
     (bucket_of "warning"
                {| errors := [produces_finding "/pets" "get"];
                   warnings := [summary_finding "/pets" "get"] |}).
Proof.
  intros arg. split.
  - apply (proj1 (proj2 (proj2 severities_are_read_from_operations))
             _ (VObj [("paths", VObj [("/pets", VObj [("get", VObj [("x-sdk-exclude", VBool false)])])])])
             (VObj [("/pets", VObj [("get", VObj [("x-sdk-exclude", VBool false)])])])
             (VObj [("get", VObj [("x-sdk-exclude", VBool false)])])
             _ "/pets" "get" (VObj [("x-sdk-exclude", VBool false)])).
    + reflexivity.
    + reflexivity.
    + reflexivity.
    + simpl; left; reflexivity.
    + simpl; discriminate.
    + simpl; left; reflexivity.
    + simpl; discriminate.
  - apply (proj1 (proj2 (proj2 (proj2 (proj2 severities_are_read_from_operations))))
             arg
             (VObj [("no_summary", VStr "error");
                    ("operations",
                     severities (VStr "off") (VStr "off") (VStr "error") (VStr "off")
                                (VStr "warning") (VStr "off") (VStr "off"))])
             (VObj [("paths", VObj [("/pets", VObj [("get", VObj [("x-sdk-exclude", VBool false)])])])])
             (severities (VStr "off") (VStr "off") (VStr "error") (VStr "off")
                         (VStr "warning") (VStr "off") (VStr "off"))
             (VObj [("/pets", VObj [("get", VObj [("x-sdk-exclude", VBool false)])])])
             (VObj [("get", VObj [("x-sdk-exclude", VBool false)])])
             "/pets" "get" (VObj [("x-sdk-exclude", VBool false)])
             R5_summary_required "summary" "warning" VUndefined
             (summary_finding "/pets" "get")).
    + vm_compute; reflexivity.
    + reflexivity.
    + reflexivity.
    + reflexivity.
    + simpl; left; reflexivity.
    + simpl; discriminate.
    + simpl; left; reflexivity.
    + simpl; discriminate.
    + reflexivity.
    + reflexivity.
    + reflexivity.
    + reflexivity.
    + reflexivity.
    + reflexivity.
    + now right.
Defined.
(** ** Two calls *)

Lemma nth_error_skip (pre cells : Store.heap) (i : nat) :
  nth_error (pre ++ cells)%list (i + List.length pre) = nth_error cells i.
Proof.
  induction pre as [|x pre IH]; cbn [List.length app].
  - now rewrite Nat.add_0_r.
  - rewrite Nat.add_succ_r. exact IH.
Qed.

Lemma replace_skip (pre cells : Store.heap) (i : nat) (c : Store.cell) :
  Store.replace (i + List.length pre) c (pre ++ cells)%list
  = (pre ++ Store.replace i c cells)%list.
Proof.
  induction pre as [|x pre IH]; cbn [List.length app].
  - now rewrite Nat.add_0_r.
  - rewrite Nat.add_succ_r. cbn [Store.replace]. now rewrite IH.
Qed.

Lemma nth_error_0 (pre cells : Store.heap) :
  nth_error (pre ++ cells)%list (List.length pre) = nth_error cells 0.
Proof. exact (nth_error_skip pre cells 0). Qed.

Lemma nth_error_1 (pre cells : Store.heap) :
  nth_error (pre ++ cells)%list (S (List.length pre)) = nth_error cells 1.
Proof. exact (nth_error_skip pre cells 1). Qed.

Lemma nth_error_2 (pre cells : Store.heap) :
  nth_error (pre ++ cells)%list (S (S (List.length pre))) = nth_error cells 2.
Proof. exact (nth_error_skip pre cells 2). Qed.

Lemma replace_0 (pre cells : Store.heap) (c : Store.cell) :
  Store.replace (List.length pre) c (pre ++ cells)%list
  = (pre ++ Store.replace 0 c cells)%list.
Proof. exact (replace_skip pre cells 0 c). Qed.

Lemma replace_1 (pre cells : Store.heap) (c : Store.cell) :
  Store.replace (S (List.length pre)) c (pre ++ cells)%list
  = (pre ++ Store.replace 1 c cells)%list.
Proof. exact (replace_skip pre cells 1 c). Qed.

Lemma replace_2 (pre cells : Store.heap) (c : Store.cell) :
  Store.replace (S (S (List.length pre))) c (pre ++ cells)%list
  = (pre ++ Store.replace 2 c cells)%list.
Proof. exact (replace_skip pre cells 2 c). Qed.

Lemma nth_error_before (pre rest : Store.heap) (l : Store.loc) (c : Store.cell) :
  nth_error pre l = Some c -> nth_error (pre ++ rest)%list l = Some c.
Proof.
  intros H. rewrite nth_error_app1; [exact H|]. apply nth_error_Some; congruence.
Qed.

(** A push changes the array that the severity names, in place. *)
Lemma push_on_heap (pre : Store.heap) (r : buckets) (s : value) (f : finding) :
  Store.push (List.length pre) s f (during pre r) = on_heap pre (push r s f).
Proof.
  unfold push.
  cbv beta iota delta [Store.push Store.bindM Store.lift Store.get_property Store.read
                       Store.ret Store.write].
  destruct (to_string s) as [key| |]; cbn [bind on_heap]; try reflexivity.
  unfold during at 1. rewrite nth_error_0. cbn [result_cells nth_error Store.property].
  destruct (String.eqb key "error").
  - unfold during at 1. rewrite nth_error_1. cbn [result_cells nth_error].
    unfold during. rewrite replace_1. reflexivity.
  - destruct (String.eqb key "warning"); [|reflexivity].
    unfold during at 1. rewrite nth_error_2. cbn [result_cells nth_error].
    unfold during. rewrite replace_2. reflexivity.
Qed.

Lemma bindM_on_heap (pre : Store.heap) (r : buckets) (m : Store.M unit) (o : outcome buckets)
      (k : unit -> Store.M unit) (k' : buckets -> outcome buckets) :
  m (during pre r) = on_heap pre o ->
  (forall r', k tt (during pre r') = on_heap pre (k' r')) ->
  Store.bindM m k (during pre r) = on_heap pre (bind o k').
Proof.
  intros Hm Hk. unfold Store.bindM. rewrite Hm.
  destruct o; cbn [on_heap bind]; [apply Hk | reflexivity | reflexivity].
Qed.

Ltac on_heap :=
  unfold Store.bindM, Store.lift, Store.ret;
  repeat match goal with
         | |- context [bind ?e _] =>
             lazymatch e with
             | push _ _ _ => fail
             | _ => destruct e; cbn [bind on_heap]
             end
         | |- context [if ?b then _ else _] => destruct b; cbn [bind on_heap]
         end;
  first [reflexivity | apply push_on_heap].

Section On_heap.

Variables (jsSpec config : value) (pathKey : string) (op : value) (opKey : string).
Variable pre : Store.heap.

Lemma check_consumes_on_heap (r : buckets) :
  Store.check_consumes jsSpec config pathKey op opKey (List.length pre) (during pre r)
  = on_heap pre (check_consumes jsSpec config pathKey op opKey r).
Proof. unfold Store.check_consumes, check_consumes; on_heap. Qed.

Lemma check_produces_on_heap (r : buckets) :
  Store.check_produces jsSpec config pathKey op opKey (List.length pre) (during pre r)
  = on_heap pre (check_produces jsSpec config pathKey op opKey r).
Proof. unfold Store.check_produces, check_produces; on_heap. Qed.

Lemma check_get_consumes_on_heap (r : buckets) :
  Store.check_get_consumes config pathKey op opKey (List.length pre) (during pre r)
  = on_heap pre (check_get_consumes config pathKey op opKey r).
Proof. unfold Store.check_get_consumes, check_get_consumes; on_heap. Qed.

Lemma check_operationId_on_heap (r : buckets) :
  Store.check_operationId config pathKey op opKey (List.length pre) (during pre r)
  = on_heap pre (check_operationId config pathKey op opKey r).
Proof. unfold Store.check_operationId, check_operationId; on_heap. Qed.

Lemma check_summary_on_heap (r : buckets) :
  Store.check_summary config pathKey op opKey (List.length pre) (during pre r)
  = on_heap pre (check_summary config pathKey op opKey r).
Proof. unfold Store.check_summary, check_summary; on_heap. Qed.

Lemma check_response_on_heap (s response name : value) (r : buckets) :
  Store.check_response jsSpec pathKey opKey (List.length pre) s response name (during pre r)
  = on_heap pre (check_response jsSpec pathKey opKey s response name r).
Proof. unfold Store.check_response, check_response; on_heap. Qed.

Lemma each_response_on_heap (s : value) (responses : list (value * value)) (r : buckets) :
  Store.each_response jsSpec pathKey opKey (List.length pre) s responses (during pre r)
  = on_heap pre (each_response jsSpec pathKey opKey s responses r).
Proof.
  revert r; induction responses as [|[response name] rest IH]; intros r; [reflexivity|].
  cbn [Store.each_response each_response].
  apply bindM_on_heap; [apply check_response_on_heap | exact IH].
Qed.

Lemma check_array_responses_on_heap (r : buckets) :
  Store.check_array_responses jsSpec config pathKey op opKey (List.length pre) (during pre r)
  = on_heap pre (check_array_responses jsSpec config pathKey op opKey r).
Proof.
  unfold Store.check_array_responses, check_array_responses, Store.bindM, Store.lift, Store.ret.
  destruct (member config _); cbn [bind on_heap]; try reflexivity.
  destruct (negb _); [|reflexivity].
  destruct (member op _); cbn [bind on_heap]; try reflexivity.
  apply each_response_on_heap.
Qed.

Lemma check_get_on_heap (r : buckets) :
  Store.check_get jsSpec config pathKey op opKey (List.length pre) (during pre r)
  = on_heap pre (check_get jsSpec config pathKey op opKey r).
Proof.
  unfold Store.check_get, check_get. destruct (String.eqb _ _); [|reflexivity].
  apply bindM_on_heap; [apply check_get_consumes_on_heap|].
  intros r'; apply check_array_responses_on_heap.
Qed.

Lemma parameter_step_on_heap (s parameters : value) (indx : nat) (firstOptional : Z)
      (r : buckets) :
  Store.parameter_step jsSpec pathKey opKey (List.length pre) s parameters indx firstOptional
                       (during pre r)
  = match parameter_step jsSpec pathKey opKey s parameters indx firstOptional r with
    | Ok next => Ok (fst next, during pre (snd next))
    | TypeError => TypeError
    | Unmodelled => Unmodelled
    end.
Proof.
  unfold Store.parameter_step, parameter_step, Store.bindM, Store.lift, Store.ret.
  destruct (index_value _ _); cbn [bind]; try reflexivity.
  destruct (resolveRef _ _); cbn [bind]; try reflexivity.
  destruct (firstOptional <? 0)%Z.
  - destruct (member _ _); cbn [bind]; try reflexivity.
    destruct (negb _); reflexivity.
  - destruct (member _ _); cbn [bind]; try reflexivity.
    destruct (truthy _); [|reflexivity].
    rewrite push_on_heap. destruct (push r s _); reflexivity.
Qed.

Lemma parameter_loop_on_heap (s parameters : value) (indices : list nat) (firstOptional : Z)
      (r : buckets) :
  Store.parameter_loop jsSpec pathKey opKey (List.length pre) s parameters indices firstOptional
                       (during pre r)
  = on_heap pre (parameter_loop jsSpec pathKey opKey s parameters indices firstOptional r).
Proof.
  revert firstOptional r; induction indices as [|indx rest IH]; intros fo r; [reflexivity|].
  cbn [Store.parameter_loop parameter_loop]. unfold Store.bindM.
  rewrite parameter_step_on_heap.
  destruct (parameter_step _ _ _ _ _ _ _ _) as [[fo' r']| |]; cbn [bind on_heap fst snd];
    try reflexivity.
  apply IH.
Qed.

Lemma check_parameter_order_on_heap (r : buckets) :
  Store.check_parameter_order jsSpec config pathKey op opKey (List.length pre) (during pre r)
  = on_heap pre (check_parameter_order jsSpec config pathKey op opKey r).
Proof.
  unfold Store.check_parameter_order, check_parameter_order, Store.bindM, Store.lift, Store.ret.
  destruct (member config _); cbn [bind on_heap]; try reflexivity.
  destruct (negb _); [|reflexivity].
  destruct (member op _); cbn [bind on_heap]; try reflexivity.
  destruct (truthy _); [|reflexivity].
  destruct (length_of _); cbn [bind on_heap]; try reflexivity.
  destruct (gt_zero _) as [[|]| |]; cbn [bind on_heap]; try reflexivity.
  destruct (iterations _); cbn [bind on_heap]; try reflexivity.
  apply parameter_loop_on_heap.
Qed.

Lemma visit_operation_on_heap (r : buckets) :
  Store.visit_operation jsSpec config pathKey op opKey (List.length pre) (during pre r)
  = on_heap pre (visit_operation jsSpec config pathKey op opKey r).
Proof.
  unfold Store.visit_operation, visit_operation.
  unfold Store.bindM at 1, Store.lift.
  destruct (member op _); cbn [bind on_heap]; try reflexivity.
  destruct (is_true _); [reflexivity|].
  apply bindM_on_heap; [apply check_consumes_on_heap | intros r1].
  apply bindM_on_heap; [apply check_produces_on_heap | intros r2].
  apply bindM_on_heap; [apply check_get_on_heap | intros r3].
  apply bindM_on_heap; [apply check_operationId_on_heap | intros r4].
  apply bindM_on_heap; [apply check_summary_on_heap | intros r5].
  apply check_parameter_order_on_heap.
Qed.

End On_heap.

Lemma each_operation_on_heap (jsSpec config : value) (pathKey : string)
      (pathOps : list (string * value)) (pre : Store.heap) (r : buckets) :
  Store.each_operation jsSpec config pathKey pathOps (List.length pre) (during pre r)
  = on_heap pre (each_operation jsSpec config pathKey pathOps r).
Proof.
  revert r; induction pathOps as [|[opKey op] rest IH]; intros r; [reflexivity|].
  cbn [Store.each_operation each_operation].
  apply bindM_on_heap; [apply visit_operation_on_heap | exact IH].
Qed.

Lemma map_paths_on_heap (jsSpec config : value) (paths : list (value * value))
      (pre : Store.heap) (r : buckets) :
  Store.map_paths jsSpec config paths (List.length pre) (during pre r)
  = on_heap pre (map_paths jsSpec config paths r).
Proof.
  revert r; induction paths as [|[path pathKey] rest IH]; intros r; [reflexivity|].
  cbn [Store.map_paths map_paths].
  apply bindM_on_heap; [|exact IH].
  unfold Store.visit_path, visit_path. destruct pathKey; try reflexivity.
  destruct (String.eqb _ _); [reflexivity | apply each_operation_on_heap].
Qed.

Lemma length_snoc (h : Store.heap) (c : Store.cell) :
  List.length (h ++ [c])%list = S (List.length h).
Proof. rewrite length_app; cbn [List.length]; lia. Qed.

(** Lines 50 to 52: [result] and its two arrays are the next three cells
    of the heap. *)
Lemma result_on_heap (h : Store.heap) (k : Store.loc -> Store.M Store.loc) :
  Store.bindM (Store.new (Store.Object []))
    (fun result =>
       Store.bindM (Store.new (Store.Findings []))
         (fun error =>
            Store.bindM (Store.set_property result "error" error)
              (fun _ =>
                 Store.bindM (Store.new (Store.Findings []))
                   (fun warning =>
                      Store.bindM (Store.set_property result "warning" warning)
                        (fun _ => k result))))) h
  = k (List.length h) (during h empty_buckets).
Proof.
  unfold Store.bindM at 1, Store.new at 1; cbv beta iota.
  unfold Store.bindM at 1, Store.new at 1; cbv beta iota.
  rewrite length_snoc.
  unfold Store.bindM at 1, Store.set_property at 1, Store.bindM at 1, Store.read at 1;
    cbv beta iota.
  rewrite <- app_assoc; cbn [app]. rewrite nth_error_0; cbn [nth_error]; cbv beta iota.
  unfold Store.write at 1. rewrite replace_0; cbn [Store.replace Store.with_property].
  unfold Store.bindM at 1, Store.new at 1; cbv beta iota.
  rewrite length_app; cbn [List.length]. rewrite Nat.add_succ_r, Nat.add_1_r.
  unfold Store.bindM at 1, Store.set_property at 1, Store.bindM at 1, Store.read at 1;
    cbv beta iota.
  rewrite <- app_assoc; cbn [app]. rewrite nth_error_0; cbn [nth_error]; cbv beta iota.
  unfold Store.write at 1. rewrite replace_0.
  cbn [Store.replace Store.with_property String.eqb Ascii.eqb Bool.eqb].
  reflexivity.
Qed.

(** A call on the heap does what [validate] does on the values that the
    two references are to, and leaves [result], its arrays and the
    returned object behind, after what the heap had. *)
Lemma validate_on_heap (h : Store.heap) (arg config : Store.loc)
      (document configuration : value) :
  holds h arg document ->
  holds h config configuration ->
  Store.validate arg config h
  = match validate document configuration with
    | Ok rep => Ok (S (S (S (List.length h))), after_call h rep)
    | TypeError => TypeError
    | Unmodelled => Unmodelled
    end.
Proof.
  unfold holds; intros Ha Hc.
  unfold Store.validate, validate.
  unfold Store.bindM at 1, Store.read at 1. rewrite Ha.
  unfold Store.bindM at 1, Store.read at 1. rewrite Hc.
  unfold Store.bindM at 1, Store.lift at 1.
  destruct (member document "jsSpec") as [jsSpec| |]; cbn [bind]; try reflexivity.
  rewrite result_on_heap.
  unfold Store.bindM at 1, Store.lift at 1.
  destruct (member configuration "operations") as [operations| |]; cbn [bind];
    try reflexivity.
  unfold Store.bindM at 1, Store.lift at 1.
  destruct (member jsSpec "paths") as [paths| |]; cbn [bind]; try reflexivity.
  unfold Store.bindM at 1, Store.lift at 1.
  destruct (map_entries paths) as [pairs| |]; cbn [bind]; try reflexivity.
  unfold Store.bindM at 1. rewrite map_paths_on_heap.
  fold empty_buckets.
  destruct (map_paths jsSpec operations pairs empty_buckets) as [r'| |]; cbn [bind on_heap];
    try reflexivity.
  unfold Store.bindM at 1, Store.get_property at 1, Store.bindM at 1, Store.read at 1;
    cbv beta iota.
  unfold during at 1. rewrite nth_error_0. cbn [result_cells nth_error]. cbv beta iota.
  unfold Store.ret at 1.
  unfold Store.bindM at 1, Store.get_property at 1, Store.bindM at 1, Store.read at 1;
    cbv beta iota.
  unfold during at 1. rewrite nth_error_0. cbn [result_cells nth_error]. cbv beta iota.
  unfold Store.ret at 1.
  cbn [Store.property String.eqb Ascii.eqb Bool.eqb].
  unfold Store.new, after_call. cbn [error warning errors warnings]. f_equal. f_equal.
  unfold during. rewrite length_app. cbn [result_cells List.length]. lia.
Qed.

Lemma nth_error_3 (pre cells : Store.heap) :
  nth_error (pre ++ cells)%list (S (S (S (List.length pre)))) = nth_error cells 3.
Proof. exact (nth_error_skip pre cells 3). Qed.

Lemma after_call_cells (h : Store.heap) (rep : report) :
  after_call h rep
  = (h ++ [Store.Object [("error", S (List.length h)); ("warning", S (S (List.length h)))];
           Store.Findings (errors rep); Store.Findings (warnings rep);
           Store.Object [("errors", S (List.length h)); ("warnings", S (S (List.length h)))]])%list.
Proof. unfold after_call, during, result_cells. now rewrite <- app_assoc. Qed.

Lemma report_after_call (h : Store.heap) (rep : report) :
  report_at (after_call h rep) (S (S (S (List.length h)))) = Some rep.
Proof.
  unfold report_at. rewrite after_call_cells, nth_error_3. cbn [nth_error Store.property].
  cbn [String.eqb Ascii.eqb Bool.eqb].
  rewrite nth_error_1, nth_error_2. cbn [nth_error]. now destruct rep.
Qed.

(** C10: two calls of [validate] with the same document and the same
    configuration, both unmodified, return the same findings, element by
    element and in the same order.  The calls are on a heap, where a
    call could leave something behind for the next one; it does not:
    - a call that returns has left every object that was there as it
      was, the document and the configuration among them;
    - what it returns is a new object with two new arrays, which hold
      the errors and the warnings that [validate] gives on the values of
      the document and of the configuration;
    - a second call, on any heap in which the two references are still
      to the same document and configuration (the heap that the first
      call left is one, and so is that heap after the caller changed the
      arrays it was handed), returns the same pair of findings in objects
      of its own;
    - and when the first call raises, so does the second. *)
Theorem validate_twice_gives_the_same :
  forall (h : Store.heap) (arg config : Store.loc) (document configuration : value),
    holds h arg document ->
    holds h config configuration ->
    (forall (rep1 : Store.loc) (h1 : Store.heap),
        Store.validate arg config h = Ok (rep1, h1) ->
        (forall l c, nth_error h l = Some c -> nth_error h1 l = Some c) /\
        (exists e w es ws,
            nth_error h1 rep1 = Some (Store.Object [("errors", e); ("warnings", w)]) /\
            ~ allocated h rep1 /\ ~ allocated h e /\ ~ allocated h w /\ e <> w /\
            nth_error h1 e = Some (Store.Findings es) /\
            nth_error h1 w = Some (Store.Findings ws) /\
            validate document configuration = Ok {| errors := es; warnings := ws |}) /\
        forall h2 : Store.heap,
          holds h2 arg document ->
          holds h2 config configuration ->
          exists (rep2 : Store.loc) (h3 : Store.heap) (rep : report),
            Store.validate arg config h2 = Ok (rep2, h3) /\
            report_at h1 rep1 = Some rep /\
            report_at h3 rep2 = Some rep /\
            ~ allocated h2 rep2) /\
    (Store.validate arg config h = TypeError ->
     forall h2 : Store.heap,
       holds h2 arg document ->
       holds h2 config configuration ->
       Store.validate arg config h2 = TypeError).
Proof.
  intros h arg config document configuration Ha Hc.
  rewrite (validate_on_heap h arg config document configuration Ha Hc). split.
  - intros rep1 h1 H.
    destruct (validate document configuration) as [rep| |] eqn:Hv; try discriminate.
    injection H as <- <-. split; [|split].
    + intros l c Hl. rewrite after_call_cells. now apply nth_error_before.
    + exists (S (List.length h)), (S (S (List.length h))), (errors rep), (warnings rep).
      rewrite after_call_cells, nth_error_1, nth_error_2, nth_error_3. cbn [nth_error].
      unfold allocated. repeat split; try lia. now destruct rep.
    + intros h2 Ha2 Hc2.
      exists (S (S (S (List.length h2)))), (after_call h2 rep), rep.
      rewrite (validate_on_heap h2 arg config document configuration Ha2 Hc2), Hv.
      rewrite !report_after_call. unfold allocated. repeat split; lia.
  - intros H h2 Ha2 Hc2.
    rewrite (validate_on_heap h2 arg config document configuration Ha2 Hc2).
    destruct (validate document configuration); (discriminate || reflexivity).
Qed.

Lemma validate_twice_gives_the_same_witness :
  let document := document_with [("/pets", VObj [("get", VObj [("summary", VStr "List")])])] in
  let found :=
    {| errors := [produces_finding "/pets" "get"; operationId_finding "/pets" "get"];
       warnings := [] |} in
  let h := [Store.Tree document; Store.Tree (config_with all_errors)] in
  let h1 := after_call h found in
  let emptied := Store.replace 3 (Store.Findings []) h1 in
  exists (rep2 : Store.loc) (h3 : Store.heap) (rep : report),
    Store.validate 0 1 emptied = Ok (rep2, h3) /\
    report_at h1 5 = Some rep /\
    report_at h3 rep2 = Some rep /\
    ~ allocated emptied rep2.
Proof.
  intros document found h h1 emptied.
  apply (proj2 (proj2 (proj1 (validate_twice_gives_the_same
                                h 0 1 document (config_with all_errors) eq_refl eq_refl)
                             5 h1 ltac:(vm_compute; reflexivity)))).
  - reflexivity.
  - reflexivity.
Defined.
